(** * cvec2: a shallow embedding of the generic vector engine of [cvec2.c]

    The development follows [src/cvec2.c] and [src/cvec2.h] function by
    function.

    - [size_t] is a 64-bit and [unsigned int] a 32-bit unsigned integer
      (LP64); both are carried by [Z] with the wrap-around written out.
    - Memory is byte addressed.  The world holds the vector structure, the
      one heap block the vector owns, and the list of answers the allocator
      is going to give: [realloc] may fail at any call, and the bytes past
      those it preserves are chosen by the allocator.
    - Every function runs in the monad [M]: it threads the world, and ends
      in [Ret] (the C function returned), in [Undef] (the C function left
      defined behaviour: an access outside the block, a foreign pointer
      handed to [realloc] or [free], a division by zero) or in [Diverge]
      (a loop outlived the fuel it was given).
    - The structure pointer [vec_ptr] always addresses the structure of the
      world, so the [vec_ptr != NULL] conjunct of [_vec2_impl_valid] holds
      by construction. *)

From Stdlib Require Import ZArith List Lia Bool.
From Stdlib.Strings Require Import Byte.
From Stdlib.Sorting Require Import Permutation.
Import ListNotations.

Local Open Scope Z_scope.

(** ** Machine integers *)

Module Word.

Definition SIZE_MOD : Z := 18446744073709551616.   (* 2^64 *)
Definition UINT_MOD : Z := 4294967296.             (* 2^32 *)

(** Conversion to [size_t] and to [unsigned int]. *)
Definition to_size (z : Z) : Z := z mod SIZE_MOD.
Definition to_uint (z : Z) : Z := z mod UINT_MOD.

Definition size_add (a b : Z) : Z := to_size (a + b).
Definition size_sub (a b : Z) : Z := to_size (a - b).
Definition size_mul (a b : Z) : Z := to_size (a * b).

Definition uint_add (a b : Z) : Z := to_uint (a + b).
Definition uint_shl1 (a : Z) : Z := to_uint (Z.shiftl a 1).
Definition shr1 (a : Z) : Z := Z.shiftr a 1.

Definition is_size (z : Z) : Prop := 0 <= z < SIZE_MOD.

End Word.
Import Word.

(** ** The world: structure, heap block, allocator *)

Definition NULL : Z := 0.
Definition TRUE : bool := true.
Definition FALSE : bool := false.

Definition VEC2_INITIAL_CAPACITY : Z := 8.
Definition VEC2_SWAP_SIZE : Z := 24.

(** [struct _vec2_impl_struct VEC2_BODY(unsigned char)]; [data] is an
    address, [NULL] when there is none. *)
Record vec2 : Type := mkVec2 {
  size : Z;
  capacity : Z;
  _idx : Z;
  _start : Z;
  data : Z
}.

Definition set_size (x : Z) (v : vec2) : vec2 :=
  mkVec2 x (capacity v) (_idx v) (_start v) (data v).
Definition set_capacity (x : Z) (v : vec2) : vec2 :=
  mkVec2 (size v) x (_idx v) (_start v) (data v).
Definition set_idx (x : Z) (v : vec2) : vec2 :=
  mkVec2 (size v) (capacity v) x (_start v) (data v).
Definition set_start (x : Z) (v : vec2) : vec2 :=
  mkVec2 (size v) (capacity v) (_idx v) x (data v).
Definition set_data (x : Z) (v : vec2) : vec2 :=
  mkVec2 (size v) (capacity v) (_idx v) (_start v) x.

(** [memset(vec_ptr, 0, sizeof *vec_ptr)], and [VEC2_INITIALIZER]. *)
Definition vec2_zero : vec2 := mkVec2 0 0 0 0 NULL.

Record block : Type := mkBlock {
  base : Z;
  bytes : list byte
}.

(** One answer of the allocator: failure, or the address of the block
    (never [NULL]) and the bytes that follow the preserved ones. *)
Inductive alloc_reply : Type :=
| AllocFail
| AllocAt (addr : positive) (fresh : list byte).

Record world : Type := mkWorld {
  vec : vec2;
  heap : option block;
  allocator : list alloc_reply
}.

Definition with_vec (v : vec2) (w : world) : world :=
  mkWorld v (heap w) (allocator w).
Definition with_heap (h : option block) (w : world) : world :=
  mkWorld (vec w) h (allocator w).
Definition with_allocator (a : list alloc_reply) (w : world) : world :=
  mkWorld (vec w) (heap w) a.

(** ** The monad of the C functions *)

Inductive outcome (A : Type) : Type :=
| Ret (a : A)
| Undef
| Diverge.
Arguments Ret {A} a.
Arguments Undef {A}.
Arguments Diverge {A}.

Definition M (A : Type) : Type := world -> outcome (A * world).

Definition ret {A} (a : A) : M A := fun w => Ret (a, w).
Definition bind {A B} (m : M A) (k : A -> M B) : M B :=
  fun w => match m w with
           | Ret (a, w') => k a w'
           | Undef => Undef
           | Diverge => Diverge
           end.
Definition undef {A} : M A := fun _ => Undef.
Definition diverge {A} : M A := fun _ => Diverge.

Declare Scope cvec_scope.
Delimit Scope cvec_scope with cvec.
Notation "x <- m ;; k" := (bind m (fun x => k))
  (at level 61, m at next level, right associativity) : cvec_scope.
Notation "m ;;; k" := (bind m (fun _ => k))
  (at level 61, right associativity) : cvec_scope.
Local Open Scope cvec_scope.

Definition get_vec : M vec2 := fun w => Ret (vec w, w).
Definition upd_vec (f : vec2 -> vec2) : M unit :=
  fun w => Ret (tt, with_vec (f (vec w)) w).

(** ** Memory *)

Definition slice (off n : Z) (l : list byte) : list byte :=
  firstn (Z.to_nat n) (skipn (Z.to_nat off) l).

Definition splice (off : Z) (bs l : list byte) : list byte :=
  firstn (Z.to_nat off) l ++ bs ++ skipn (Z.to_nat off + length bs) l.

Definition in_block (b : block) (a n : Z) : bool :=
  (base b <=? a) && (0 <=? n) && (a + n <=? base b + Z.of_nat (length (bytes b))).

(** Read [n] bytes at address [a]. *)
Definition load (a n : Z) : M (list byte) :=
  fun w => match heap w with
           | Some b =>
               if in_block b a n
               then Ret (slice (a - base b) n (bytes b), w)
               else Undef
           | None => Undef
           end.

(** Write the bytes [bs] at address [a]. *)
Definition store (a : Z) (bs : list byte) : M unit :=
  fun w => match heap w with
           | Some b =>
               if in_block b a (Z.of_nat (length bs))
               then Ret (tt, with_heap
                               (Some (mkBlock (base b)
                                        (splice (a - base b) bs (bytes b)))) w)
               else Undef
           | None => Undef
           end.

(** [memmove(dst, src, n)] inside the block: the source is read whole
    before the destination is written, so overlap is harmless. *)
Definition memmove (dst src n : Z) : M unit :=
  bs <- load src n ;; store dst bs.

(** [memcpy(dst, val, n)] from an array of the caller into the block. *)
Definition memcpy_in (dst : Z) (val : list byte) (n : Z) : M unit :=
  if n <=? Z.of_nat (length val)
  then store dst (firstn (Z.to_nat n) val)
  else undef.

(** [memcpy(out, src, n)] from the block into an array of the caller; the
    result is the caller's array afterwards. *)
Definition memcpy_out (out : list byte) (src n : Z) : M (list byte) :=
  if n <=? Z.of_nat (length out)
  then bs <- load src n ;; ret (bs ++ skipn (Z.to_nat n) out)
  else undef.

(** The [n] bytes of a reallocated block: the old bytes as far as they
    fit, then the allocator's, padded when it gave too few. *)
Definition resize (n : Z) (old fresh : list byte) : list byte :=
  firstn (Z.to_nat n) (old ++ fresh ++ repeat x00 (Z.to_nat n)).

(** [realloc(p, n)].  [p] is [NULL] (then it is [malloc]) or the base of
    the block.  On failure nothing changes and [NULL] comes back. *)
Definition realloc (p n : Z) : M Z :=
  fun w =>
    let answer (old : list byte) :=
      match allocator w with
      | AllocAt addr fresh :: rest =>
          Ret (Z.pos addr,
               mkWorld (vec w)
                 (Some (mkBlock (Z.pos addr) (resize n old fresh))) rest)
      | AllocFail :: rest => Ret (NULL, with_allocator rest w)
      | [] => Ret (NULL, w)
      end in
    if p =? NULL then answer []
    else match heap w with
         | Some b => if p =? base b then answer (bytes b) else Undef
         | None => Undef
         end.

(** [free(p)] for a non-null [p]. *)
Definition free (p : Z) : M unit :=
  fun w => match heap w with
           | Some b => if p =? base b then Ret (tt, with_heap None w) else Undef
           | None => Undef
           end.

(** [memcpy(dst, src, n)] inside the block: overlapping regions are not
    allowed. *)
Definition memcpy (dst src n : Z) : M unit :=
  if (0 <? n) && (Z.abs (dst - src) <? n) then undef else memmove dst src n.

(** ** The accessors of [cvec2.h] *)

(** [_vec2_impl_valid(vec_ptr)] *)
Definition _vec2_impl_valid (v : vec2) : bool :=
  ((capacity v =? 0) && (data v =? NULL)) || (size v <=? capacity v).

(** [VEC2_GET(vec_ptr, el_size, idx)] *)
Definition VEC2_GET (v : vec2) (el_size idx : Z) : Z :=
  data v + size_mul idx el_size.

(** [vec2_mem(vec_ptr, el_size)] *)
Definition vec2_mem (v : vec2) (el_size : Z) : Z :=
  data v - size_mul (_start v) el_size.

(** ** The static functions of [cvec2.c] *)

Definition _vec2_reserve (additional el_size : Z) : M bool :=
  v <- get_vec ;;
  (* Check if we need to do anything *)
  if additional >? size_sub (capacity v) (size v) then
    let new_capacity := size_add (capacity v) additional in
    (* Avoid integer overflow *)
    if new_capacity <? capacity v then ret FALSE else
    let alloc_size := size_mul new_capacity el_size in
    if el_size =? 0 then undef else
    (* Avoid integer overflow *)
    if negb (alloc_size / el_size =? new_capacity) then ret FALSE else
    new_mem <- realloc (vec2_mem v el_size) alloc_size ;;
    (* Check if allocation succeeded *)
    if new_mem =? NULL then ret FALSE else
    (* Set the new values *)
    upd_vec (fun v => set_capacity new_capacity
                        (set_data (new_mem + size_mul el_size (_start v)) v)) ;;;
    ret TRUE
  else ret TRUE.

(** The first loop of [_vec2_create_hole]: [addition] is an
    [unsigned int], [next_addition] and [len] are [size_t]. *)
Fixpoint grow_addition (fuel : nat) (addition len : Z) : option Z :=
  if addition <? len then
    match fuel with
    | O => None
    | S fuel' =>
        let next_addition := uint_add (uint_shl1 addition) (shr1 addition) in
        if next_addition <? addition
        then Some (to_uint len)
        else grow_addition fuel' (to_uint next_addition) len
    end
  else Some addition.

(** The second loop of [_vec2_create_hole]; [FALSE] is its [return FALSE],
    [TRUE] is the loop left because [_vec2_reserve] succeeded. *)
Fixpoint reserve_retry (fuel : nat) (addition len el_size : Z) : M bool :=
  match fuel with
  | O => diverge
  | S fuel' =>
      ok <- _vec2_reserve addition el_size ;;
      if ok then ret TRUE else
      (* Divide by two and try again unless reserve failed even for exactly
         len elements more *)
      if (addition >? len) && (shr1 addition <? len)
      then reserve_retry fuel' (to_uint len) len el_size
      else
        let addition' := shr1 addition in
        if addition' <? len then ret FALSE
        else reserve_retry fuel' addition' len el_size
  end.

Definition _vec2_create_hole (fuel : nat) (idx len el_size : Z) : M bool :=
  v <- get_vec ;;
  if (len <=? 0) || (idx >? size v) || (size_add (size v) len <? size v)
  then ret FALSE else
  (* Check if we need to reserve more memory *)
  reserved <-
    (if size_add (size v) len >? capacity v then
       let addition :=
         to_uint (if negb (capacity v =? 0) then shr1 (capacity v)
                  else VEC2_INITIAL_CAPACITY) in
       match grow_addition fuel addition len with
       | None => diverge
       | Some addition => reserve_retry fuel addition len el_size
       end
     else ret TRUE) ;;
  if negb reserved then ret FALSE else
  v <- get_vec ;;
  (if size v >? 0 then
     (* Check if we can create free slot at idx with simple pointer
        regression *)
     if (idx =? 0) && (_start v >=? len) then
       upd_vec (fun v => set_data (data v - size_mul len el_size)
                           (set_start (size_sub (_start v) len) v))
     else if (idx <? size v) ||
             (len >? size_sub (capacity v) (size_add (_start v) (size v)))
     then
       let shift_back :=
         if (idx =? size v) || (len >? _start v) then _start v else len in
       upd_vec (fun v => set_data (data v - size_mul shift_back el_size)
                           (set_start (size_sub (_start v) shift_back) v)) ;;;
       v <- get_vec ;;
       memmove (data v) (VEC2_GET v el_size shift_back) (size_mul idx el_size) ;;;
       (* Shift elements forward if after shifting back we still need more
          room *)
       if (idx <? size v) && (len >? shift_back) then
         memmove (VEC2_GET v el_size (size_add idx len))
                 (VEC2_GET v el_size (size_add idx shift_back))
                 (size_mul (size_sub len shift_back) el_size)
       else ret tt
     else ret tt
   else ret tt) ;;;
  ret TRUE.

(** [opt_out_val] is [None] for a null pointer, else the caller's array;
    the array comes back as the call leaves it. *)
Definition _vec2_remove (idx len el_size : Z) (opt_out_val : option (list byte))
  : M (bool * option (list byte)) :=
  v <- get_vec ;;
  (* Make sure that the index is reachable *)
  if (len >? size v) || (size_sub (size v) len <? idx)
  then ret (FALSE, opt_out_val) else
  (* Check if we actually need to do anything *)
  if negb (len =? 0) then
    (* Check if we need to copy out the values that are being removed *)
    out <- match opt_out_val with
           | Some o =>
               o' <- memcpy_out o (VEC2_GET v el_size idx) (size_mul len el_size) ;;
               ret (Some o')
           | None => ret None
           end ;;
    upd_vec (fun v => set_size (size_sub (size v) len) v) ;;;
    v <- get_vec ;;
    (* Check if we need to shift elements around because of the removal *)
    (if negb (size v =? 0) then
       (* Check if we can get it done with a simple start pointer
          advancement *)
       if idx =? 0 then
         upd_vec (fun v => set_data (data v + size_mul len el_size)
                             (set_start (size_add (_start v) len) v))
       else if idx <? size v then
         (* Shift back len slots from idx + len to idx *)
         memmove (VEC2_GET v el_size idx)
                 (VEC2_GET v el_size (size_add idx len))
                 (size_mul (size_sub (size v) idx) el_size)
       else ret tt
     else ret tt) ;;;
    ret (TRUE, out)
  else ret (TRUE, opt_out_val).

Definition _vec2_clear (el_size : Z) : M unit :=
  v <- get_vec ;;
  (if negb (data v =? NULL) then free (vec2_mem v el_size) else ret tt) ;;;
  upd_vec (fun _ => vec2_zero).

(** ** The functions [cvec2.h] declares *)

Definition _vec2_impl_init : M bool :=
  upd_vec (fun _ => vec2_zero) ;;; ret TRUE.

Definition _vec2_impl_reserve (additional el_size : Z) : M bool :=
  v <- get_vec ;;
  if negb (_vec2_impl_valid v) || (el_size =? 0) then ret FALSE
  else _vec2_reserve additional el_size.

Definition _vec2_impl_shrink (el_size : Z) : M bool :=
  v <- get_vec ;;
  if negb (_vec2_impl_valid v) || (el_size =? 0) then ret FALSE else
  if size v =? 0 then _vec2_clear el_size ;;; ret TRUE
  else if (size v <? capacity v) && (capacity v >? VEC2_INITIAL_CAPACITY) then
    let new_capacity :=
      if size v >? VEC2_INITIAL_CAPACITY then size v
      else VEC2_INITIAL_CAPACITY in
    (* Move the data to the beginning if we're at an offset due to
       removals *)
    (if _start v >? 0 then
       let mem := vec2_mem v el_size in
       memmove mem (data v) (size_mul el_size (size v)) ;;;
       upd_vec (fun v => set_start 0 (set_data mem v))
     else ret tt) ;;;
    v <- get_vec ;;
    new_mem <- realloc (data v) (size_mul new_capacity el_size) ;;
    if new_mem =? NULL then ret FALSE else
    upd_vec (fun v => set_capacity (size v) (set_data new_mem v)) ;;;
    ret TRUE
  else ret TRUE.

Definition _vec2_impl_create_hole (fuel : nat) (idx len el_size : Z) : M bool :=
  v <- get_vec ;;
  if negb (_vec2_impl_valid v) || (len <=? 0) || (el_size =? 0) then ret FALSE
  else
    ok <- _vec2_create_hole fuel idx len el_size ;;
    if negb ok then ret FALSE else
    upd_vec (set_idx idx) ;;; ret TRUE.

(** One pass of the exchange through [swap.bytes]. *)
Definition swap_pass (first second n : Z) : M unit :=
  tmp <- load first n ;;
  memcpy first second n ;;;
  store second tmp.

(** [for (; left_bytes >= sizeof(swap); left_bytes -= sizeof(swap))]; the
    result is [left_bytes] after the loop. *)
Fixpoint swap_loop (fuel : nat) (first second left_bytes : Z) : M Z :=
  if left_bytes >=? VEC2_SWAP_SIZE then
    match fuel with
    | O => diverge
    | S fuel' =>
        swap_pass first second VEC2_SWAP_SIZE ;;;
        swap_loop fuel' first second (size_sub left_bytes VEC2_SWAP_SIZE)
    end
  else ret left_bytes.

Definition _vec2_impl_swap (fuel : nat) (first second el_size : Z) : M bool :=
  v <- get_vec ;;
  if negb (_vec2_impl_valid v) || (first >=? size v) || (second >=? size v)
     || (el_size =? 0)
  then ret FALSE else
  (* Check if we need to do anything *)
  (if negb (first =? second) then
     left_bytes <- swap_loop fuel (VEC2_GET v el_size first)
                     (VEC2_GET v el_size second) el_size ;;
     if negb (left_bytes =? 0) then
       swap_pass (VEC2_GET v el_size first) (VEC2_GET v el_size second)
         left_bytes
     else ret tt
   else ret tt) ;;;
  ret TRUE.

(** The comparison function of the caller, on two elements. *)
Definition cmpfn_t : Type := list byte -> list byte -> Z.

(** [nmemb] elements of [el_size] bytes each, off the front of [l]. *)
Fixpoint chunks (nmemb el_size : nat) (l : list byte) : list (list byte) :=
  match nmemb with
  | O => []
  | S n => firstn el_size l :: chunks n el_size (skipn el_size l)
  end.

Fixpoint insert_sorted (cmp : cmpfn_t) (x : list byte) (l : list (list byte))
  : list (list byte) :=
  match l with
  | [] => [x]
  | y :: t => if cmp x y <=? 0 then x :: y :: t else y :: insert_sorted cmp x t
  end.

(** [qsort] of the C library, which the repository calls and does not
    define: here an insertion sort of the elements. *)
Definition qsort (p nmemb el_size : Z) (cmp : cmpfn_t) : M unit :=
  bs <- load p (size_mul nmemb el_size) ;;
  store p (firstn (length bs)
             (concat (fold_right (insert_sorted cmp) []
                        (chunks (Z.to_nat nmemb) (Z.to_nat el_size) bs)))).

Definition _vec2_impl_sort (cmpfn : option cmpfn_t) (el_size : Z) : M bool :=
  v <- get_vec ;;
  match cmpfn with
  | Some cmp =>
      if negb (_vec2_impl_valid v) || (el_size =? 0) then ret FALSE else
      (* Check if we need to sort anything *)
      (if negb (size v =? 0)
       then qsort (VEC2_GET v el_size 0) (size v) el_size cmp
       else ret tt) ;;;
      ret TRUE
  | None => ret FALSE
  end.

Definition _vec2_impl_assign (idx : Z) (val : option (list byte))
  (len el_size : Z) : M bool :=
  v <- get_vec ;;
  match val with
  | Some bs =>
      if negb (_vec2_impl_valid v) || (el_size =? 0) || (idx >=? size v)
         || (size_sub (size v) idx <? len)
      then ret FALSE else
      memcpy_in (VEC2_GET v el_size idx) bs (size_mul len el_size) ;;;
      ret TRUE
  | None => ret FALSE
  end.

Definition _vec2_impl_remove (idx len el_size : Z) (out : option (list byte))
  : M (bool * option (list byte)) :=
  v <- get_vec ;;
  if negb (_vec2_impl_valid v) || (el_size =? 0) then ret (FALSE, out)
  else _vec2_remove idx len el_size out.

Definition _vec2_impl_insert (fuel : nat) (idx : Z) (val : option (list byte))
  (len el_size : Z) : M bool :=
  v <- get_vec ;;
  match val with
  | Some bs =>
      if negb (_vec2_impl_valid v) || (el_size =? 0) then ret FALSE else
      if len >? 0 then
        ok <- _vec2_create_hole fuel idx len el_size ;;
        if negb ok then ret FALSE else
        v <- get_vec ;;
        (* Copy len elements from val into the free slots *)
        memcpy_in (VEC2_GET v el_size idx) bs (size_mul el_size len) ;;;
        upd_vec (fun v => set_size (size_add (size v) len) v) ;;;
        ret TRUE
      else ret TRUE
  | None => ret FALSE
  end.

Definition _vec2_impl_clear (el_size : Z) : M unit :=
  v <- get_vec ;;
  if _vec2_impl_valid v then _vec2_clear el_size else ret tt.

(** ** Calls and sequences of calls *)

(** A call of one of the functions above; the element size is the same
    for every call on one vector (the macros pass [sizeof] of the element
    type). *)
Inductive op : Type :=
| Init
| Reserve (additional : Z)
| Shrink
| CreateHole (idx len : Z)
| Swap (first second : Z)
| Sort (cmpfn : option cmpfn_t)
| Assign (idx : Z) (val : option (list byte)) (len : Z)
| Remove (idx len : Z) (out : option (list byte))
| Insert (idx : Z) (val : option (list byte)) (len : Z)
| Clear.

(** The value a call returns ([_vec2_impl_clear] returns nothing: [TRUE]
    stands for its return). *)
Definition run_op (fuel : nat) (el_size : Z) (o : op) : M bool :=
  match o with
  | Init => _vec2_impl_init
  | Reserve additional => _vec2_impl_reserve additional el_size
  | Shrink => _vec2_impl_shrink el_size
  | CreateHole idx len => _vec2_impl_create_hole fuel idx len el_size
  | Swap first second => _vec2_impl_swap fuel first second el_size
  | Sort cmpfn => _vec2_impl_sort cmpfn el_size
  | Assign idx val len => _vec2_impl_assign idx val len el_size
  | Remove idx len out =>
      r <- _vec2_impl_remove idx len el_size out ;; ret (fst r)
  | Insert idx val len => _vec2_impl_insert fuel idx val len el_size
  | Clear => _vec2_impl_clear el_size ;;; ret TRUE
  end.

(** The calls one after the other, whatever each returns. *)
Fixpoint run_ops (fuel : nat) (el_size : Z) (os : list op) : M unit :=
  match os with
  | [] => ret tt
  | o :: os' => run_op fuel el_size o ;;; run_ops fuel el_size os'
  end.

(** The world a vector starts in: [VEC2_INITIALIZER], nothing allocated. *)
Definition initial_world (replies : list alloc_reply) : world :=
  mkWorld vec2_zero None replies.

(** ** What the caller sees, and when a world is well formed *)

(** The live elements, as the caller reads them through [vec2_data]:
    [size * el_size] bytes at [data]. *)
Definition content (el_size : Z) (w : world) : list byte :=
  match heap w with
  | Some b => slice (data (vec w) - base b) (size (vec w) * el_size) (bytes b)
  | None => []
  end.

(** The invariants of the data model. *)
Definition invariants (v : vec2) : Prop :=
  size v <= capacity v /\
  (capacity v = 0 <-> data v = NULL) /\
  _start v + size v <= capacity v.

(** A valid buffer: the counters are consistent with each other and with
    the block, which holds at least [capacity] elements. *)
Definition wf (el_size : Z) (w : world) : Prop :=
  let v := vec w in
  0 < el_size /\ 0 <= size v /\ 0 <= _start v /\
  _start v + size v <= capacity v /\
  match heap w with
  | Some b =>
      0 < capacity v /\ 0 < base b /\
      data v = base b + _start v * el_size /\
      capacity v * el_size <= Z.of_nat (length (bytes b)) /\
      Z.of_nat (length (bytes b)) < SIZE_MOD
  | None => capacity v = 0 /\ data v = NULL
  end.

(** ** Sample worlds *)

(** The buffer [1,2,3,4,5] as five pushes leave it: capacity 8, no front
    slack, one-byte elements. *)
Definition world_12345 : world :=
  mkWorld (mkVec2 5 8 0 0 1000)
    (Some (mkBlock 1000 [x01; x02; x03; x04; x05; x00; x00; x00])) [].

(** Three live elements in a block of eight. *)
Definition world_3_of_8 : world :=
  mkWorld (mkVec2 3 8 0 0 1000) (Some (mkBlock 1000 (repeat x00 8))) [].

(** A full buffer of sixteen elements, the allocator willing. *)
Definition world_full_16 : world :=
  mkWorld (mkVec2 16 16 0 0 1000) (Some (mkBlock 1000 (repeat x00 16)))
    [AllocAt 2000%positive []].

(** Two live elements in a block of 64, the allocator ready to shrink it
    in place. *)
Definition world_2_of_64 : world :=
  mkWorld (mkVec2 2 64 0 0 1000)
    (Some (mkBlock 1000 ([x01; x02] ++ repeat x00 62)))
    [AllocAt 1000%positive []].

(** Seven live elements behind two slots of front slack in a block of 20;
    the allocator is going to refuse. *)
Definition world_front_slack : world :=
  mkWorld (mkVec2 7 20 0 2 1002)
    (Some (mkBlock 1000
             ([x01; x02; x03; x04; x05; x06; x07; x08; x09] ++ repeat x00 11)))
    [AllocFail].

(** Calls that empty a buffer with front slack and fill it again. *)
Definition refill_calls : list op :=
  [ Insert 0 (Some (repeat x07 9)) 9;
    Remove 2 7 None;
    Shrink;
    Remove 0 1 None;
    Remove 0 1 None;
    Insert 0 (Some [x01; x02]) 2 ].

(** The same without shrink-to-fit, on a block of eight elements. *)
Definition refill_full_calls : list op :=
  [ Insert 0 (Some (repeat x07 8)) 8;
    Remove 0 1 None;
    Remove 0 7 None;
    Insert 0 (Some (repeat x01 8)) 8 ].

(** The structure and the block are those of [w]. *)
Definition same_buffer (w w' : world) : Prop :=
  vec w' = vec w /\ heap w' = heap w.

(** [world_front_slack] after a shrink-to-fit that the allocator refused. *)
Definition world_front_slack_compacted : world :=
  mkWorld (mkVec2 7 20 0 0 1000)
    (Some (mkBlock 1000
             ([x03; x04; x05; x06; x07; x08; x09; x08; x09] ++ repeat x00 11)))
    [].

(** The contract of [_vec2_create_hole]: the block reads
    [P ++ A ++ G ++ S ++ T] with [data] at the end of [P], [A] the first
    [idx] elements of the old content [X], [G] the [len] free slots and
    [S] the rest of [X]. *)
Definition gap_at (el_size idx len : Z) (X : list byte) (w : world) : Prop :=
  exists b P A G S T,
    heap w = Some b /\
    bytes b = P ++ A ++ G ++ S ++ T /\
    data (vec w) = base b + Z.of_nat (length P) /\
    Z.of_nat (length A) = idx * el_size /\
    Z.of_nat (length G) = len * el_size /\
    X = A ++ S.

(** ** The macros of [cvec2.h] *)

(** The macros cast the typed structure to the generic one and pass
    [sizeof] of the element type as [el_size]; a value of the element type
    is its [el_size] bytes.  Indexing the typed [data] pointer is pointer
    arithmetic, not [size_t] arithmetic. *)

(** [vec2_empty(vec_ptr)] *)
Definition vec2_empty (v : vec2) : bool := size v =? 0.

(** [vec2_get(vec_ptr, idx)]: the address of the element, or [NULL]. *)
Definition vec2_get (v : vec2) (el_size idx : Z) : Z :=
  if _vec2_impl_valid v && (idx <? size v)
  then data v + idx * el_size
  else NULL.

(** [vec2_first(vec_ptr)] *)
Definition vec2_first (v : vec2) (el_size : Z) : Z := vec2_get v el_size 0.

(** [vec2_last(vec_ptr)] *)
Definition vec2_last (v : vec2) (el_size : Z) : Z :=
  if _vec2_impl_valid v && (size v >? 0)
  then data v + size_sub (size v) 1 * el_size
  else NULL.

(** [vec2_end(vec_ptr)] *)
Definition vec2_end (v : vec2) (el_size : Z) : Z :=
  data v + (if _vec2_impl_valid v then size v else 0) * el_size.

(** [vec2_remove(vec_ptr, idx, len, out)] *)
Definition vec2_remove (idx len el_size : Z) (out : option (list byte))
  : M (bool * option (list byte)) :=
  _vec2_impl_remove idx len el_size out.

(** [vec2_pop_multi(vec_ptr, len, out)] *)
Definition vec2_pop_multi (len el_size : Z) (out : option (list byte))
  : M (bool * option (list byte)) :=
  v <- get_vec ;;
  vec2_remove (size_sub (size v) len) len el_size out.

(** [vec2_pop(vec_ptr, out)] *)
Definition vec2_pop (el_size : Z) (out : option (list byte))
  : M (bool * option (list byte)) :=
  vec2_pop_multi 1 el_size out.

(** [vec2_shift_multi(vec_ptr, len, out)] *)
Definition vec2_shift_multi (len el_size : Z) (out : option (list byte))
  : M (bool * option (list byte)) :=
  vec2_remove 0 len el_size out.

(** [vec2_shift(vec_ptr, out)] *)
Definition vec2_shift (el_size : Z) (out : option (list byte))
  : M (bool * option (list byte)) :=
  vec2_shift_multi 1 el_size out.

(** [vec2_insert(vec_ptr, idx, val)]: the hole, then the assignment
    [data[_idx[0]] = val] and [++size]. *)
Definition vec2_insert (fuel : nat) (idx : Z) (val : list byte) (el_size : Z)
  : M bool :=
  ok <- _vec2_impl_create_hole fuel idx 1 el_size ;;
  if ok then
    v <- get_vec ;;
    store (data v + _idx v * el_size) val ;;;
    upd_vec (fun v => set_size (size_add (size v) 1) v) ;;;
    ret TRUE
  else ret FALSE.

(** [vec2_insert_multi(vec_ptr, idx, val, len)] *)
Definition vec2_insert_multi (fuel : nat) (idx : Z) (val : option (list byte))
  (len el_size : Z) : M bool :=
  _vec2_impl_insert fuel idx val len el_size.

(** [vec2_insert_ptr(vec_ptr, idx, val)] *)
Definition vec2_insert_ptr (fuel : nat) (idx : Z) (val : option (list byte))
  (el_size : Z) : M bool :=
  vec2_insert_multi fuel idx val 1 el_size.

(** [vec2_push_multi(vec_ptr, val, len)] *)
Definition vec2_push_multi (fuel : nat) (val : option (list byte))
  (len el_size : Z) : M bool :=
  v <- get_vec ;;
  vec2_insert_multi fuel (size v) val len el_size.

(** [vec2_push(vec_ptr, val)] *)
Definition vec2_push (fuel : nat) (val : list byte) (el_size : Z) : M bool :=
  v <- get_vec ;;
  vec2_insert fuel (size v) val el_size.

(** [vec2_unshift_multi(vec_ptr, val, len)] *)
Definition vec2_unshift_multi (fuel : nat) (val : option (list byte))
  (len el_size : Z) : M bool :=
  vec2_insert_multi fuel 0 val len el_size.

(** [vec2_unshift(vec_ptr, val)] *)
Definition vec2_unshift (fuel : nat) (val : list byte) (el_size : Z)
  : M bool :=
  vec2_insert fuel 0 val el_size.

(** [vec2_assign(vec_ptr, idx, val)]: [_idx[0]] is written before it is
    compared with the size. *)
Definition vec2_assign (idx : Z) (val : list byte) (el_size : Z) : M bool :=
  v <- get_vec ;;
  if _vec2_impl_valid v then
    upd_vec (set_idx idx) ;;;
    v <- get_vec ;;
    if _idx v <? size v then
      store (data v + _idx v * el_size) val ;;;
      ret TRUE
    else ret FALSE
  else ret FALSE.

(** [vec2_clear(vec_ptr)] *)
Definition vec2_clear (el_size : Z) : M unit := _vec2_impl_clear el_size.

(** [vec2_shrink_to_fit(vec_ptr)] *)
Definition vec2_shrink_to_fit (el_size : Z) : M bool :=
  _vec2_impl_shrink el_size.

(** [vec2_reserve(vec_ptr, additional)] *)
Definition vec2_reserve (additional el_size : Z) : M bool :=
  _vec2_impl_reserve additional el_size.

(** [vec2_swap(vec_ptr, first, second)] *)
Definition vec2_swap (fuel : nat) (first second el_size : Z) : M bool :=
  _vec2_impl_swap fuel first second el_size.

(** What [addition] starts from in [_vec2_create_hole], for a capacity
    that is an [unsigned int]:
    [capacity ? (capacity >> 1) : VEC2_INITIAL_CAPACITY]. *)
Definition first_addition (v : vec2) : Z :=
  if capacity v =? 0 then VEC2_INITIAL_CAPACITY else shr1 (capacity v).

(** ** More sample worlds *)

(** Two elements of 48 bytes each in a block of their size. *)
Definition world_two_of_48 : world :=
  mkWorld (mkVec2 2 2 0 0 1000)
    (Some (mkBlock 1000 (repeat x01 48 ++ repeat x02 48))) [].

(** One element in a block of one, as [vec2_reserve(1)] and a push leave
    it; the allocator is willing. *)
Definition world_1_of_1 : world :=
  mkWorld (mkVec2 1 1 0 0 1000) (Some (mkBlock 1000 [x01]))
    [AllocAt 2000%positive []].

(** A buffer emptied by removals at the front, [_start] still at 2. *)
Definition world_emptied : world :=
  mkWorld (mkVec2 0 8 0 2 1002)
    (Some (mkBlock 1000 ([x01; x02; x03] ++ repeat x00 5))) [].

(** The buffer [3,1,2]. *)
Definition world_312 : world :=
  mkWorld (mkVec2 3 8 0 0 1000)
    (Some (mkBlock 1000 ([x03; x01; x02] ++ repeat x00 5))) [].

(** [world_12345] after [9] was pushed. *)
Definition world_123459 : world :=
  mkWorld (mkVec2 6 8 0 0 1000)
    (Some (mkBlock 1000 [x01; x02; x03; x04; x05; x09; x00; x00])) [].

(** A comparison function for one-byte elements: the difference of the
    bytes. *)
Definition byte_cmp : cmpfn_t :=
  fun a c =>
    match a, c with
    | x :: _, y :: _ => Z.of_N (Byte.to_N x) - Z.of_N (Byte.to_N y)
    | _, _ => 0
    end.

(** [world_12345] with [_idx[0]] at 5, as a hole made at its end leaves
    it. *)
Definition world_12345_idx5 : world :=
  with_vec (set_idx 5 (vec world_12345)) world_12345.

(** ** What a removal and a hole leave behind *)

(** The copy to the caller that [_vec2_remove] makes first. *)
Definition removed_to (el_size idx len : Z) (X : list byte)
  (out : option (list byte)) : option (list byte) :=
  option_map (fun o => slice (idx * el_size) (len * el_size) X
                       ++ skipn (Z.to_nat (len * el_size)) o) out.

(** The structure after [len] elements left at the front: [_start] and
    [data] advance, unless the buffer is empty now. *)
Definition front_advanced (el_size len : Z) (v : vec2) : vec2 :=
  if len <? size v
  then set_data (data v + len * el_size)
         (set_start (_start v + len) (set_size (size v - len) v))
  else set_size 0 v.

(** [size] and [_idx] are those of [w], and [capacity] is not below its. *)
Definition keeps_counters (w w' : world) : Prop :=
  size (vec w') = size (vec w) /\
  _idx (vec w') = _idx (vec w) /\
  capacity (vec w) <= capacity (vec w').

(** * Properties *)

(** ** Arithmetic of the machine integers *)

Section WordFacts.

Lemma to_size_small (z : Z) : is_size z -> to_size z = z.
Proof. unfold is_size, to_size. intros H. now apply Z.mod_small. Qed.

Lemma to_size_range (z : Z) : is_size (to_size z).
Proof.
  unfold is_size, to_size, SIZE_MOD.
  apply Z.mod_pos_bound. reflexivity.
Qed.

Lemma size_add_wraps (a b : Z) :
  is_size a -> is_size b -> SIZE_MOD <= a + b -> size_add a b < a.
Proof.
  unfold is_size, size_add, to_size, SIZE_MOD. intros Ha Hb Hw.
  Z.to_euclidean_division_equations; lia.
Qed.

Lemma size_add_exact (a b : Z) :
  0 <= a -> 0 <= b -> a + b < SIZE_MOD -> size_add a b = a + b.
Proof.
  intros. unfold size_add. apply to_size_small. unfold is_size. lia.
Qed.

Lemma size_sub_exact (a b : Z) :
  0 <= b <= a -> a < SIZE_MOD -> size_sub a b = a - b.
Proof.
  intros. unfold size_sub. apply to_size_small. unfold is_size. lia.
Qed.

Lemma size_mul_exact (a b : Z) :
  0 <= a -> 0 <= b -> a * b < SIZE_MOD -> size_mul a b = a * b.
Proof.
  intros. unfold size_mul. apply to_size_small. unfold is_size. nia.
Qed.

(** The division test of [_vec2_reserve] is exact: it fires precisely
    when the product left the word. *)
Lemma size_mul_overflow_detected (n e : Z) :
  0 <= n -> 0 < e -> SIZE_MOD <= n * e -> size_mul n e / e <> n.
Proof.
  intros Hn He Hov.
  assert (Hlt : size_mul n e < e * n).
  { unfold size_mul, to_size, SIZE_MOD in *.
    Z.to_euclidean_division_equations; nia. }
  apply Z.div_lt_upper_bound in Hlt; lia.
Qed.

Lemma size_mul_no_overflow_passes (n e : Z) :
  0 <= n -> 0 < e -> n * e < SIZE_MOD -> size_mul n e / e = n.
Proof.
  intros Hn He Hov. rewrite size_mul_exact by lia.
  now apply Z.div_mul; lia.
Qed.

End WordFacts.

(** ** Guards that fail before anything is touched *)

(** C6. [reserve] on a valid buffer with a non-zero element size: when the
    request exceeds the spare capacity and either [capacity + additional]
    leaves the machine word or [(capacity + additional) * el_size] does,
    the call returns [FALSE] and the world is the one it was given. *)
Theorem reserve_overflow_guard (w : world) (additional el_size : Z) :
  0 <= size (vec w) <= capacity (vec w) ->
  capacity (vec w) < SIZE_MOD ->
  is_size additional ->
  0 < el_size ->
  additional > capacity (vec w) - size (vec w) ->
  SIZE_MOD <= capacity (vec w) + additional \/
  SIZE_MOD <= (capacity (vec w) + additional) * el_size ->
  _vec2_impl_reserve additional el_size w = Ret (FALSE, w).
Proof.
  intros Hsz Hcap Hadd Hel Hneed Hov.
  unfold _vec2_impl_reserve, _vec2_reserve, bind, get_vec, ret.
  assert (Hvalid : _vec2_impl_valid (vec w) = true).
  { unfold _vec2_impl_valid. apply orb_true_iff. right. apply Z.leb_le. lia. }
  rewrite Hvalid.
  replace (el_size =? 0) with false by (symmetry; apply Z.eqb_neq; lia).
  cbn [negb orb].
  rewrite size_sub_exact by lia.
  replace (additional >? capacity (vec w) - size (vec w)) with true
    by (symmetry; apply Z.gtb_lt; lia).
  destruct (Z.le_gt_cases SIZE_MOD (capacity (vec w) + additional)) as [Hw | Hnw].
  - pose proof (size_add_wraps (capacity (vec w)) additional) as Hlt.
    replace (size_add (capacity (vec w)) additional <? capacity (vec w))
      with true; [reflexivity |].
    symmetry. apply Z.ltb_lt. apply Hlt; unfold is_size in *; lia.
  - destruct Hov as [Hov | Hov]; [lia |].
    unfold is_size in Hadd.
    rewrite size_add_exact by lia.
    replace (capacity (vec w) + additional <? capacity (vec w)) with false
      by (symmetry; apply Z.ltb_ge; lia).
    replace (size_mul (capacity (vec w) + additional) el_size / el_size
             =? capacity (vec w) + additional) with false; [reflexivity |].
    symmetry. apply Z.eqb_neq.
    apply size_mul_overflow_detected; lia.
Qed.

(** The guard of C6 at a concrete input: a full buffer of capacity 16
    asked for [2^64 - 8] more elements. *)
Lemma reserve_overflow_guard_witness :
  _vec2_impl_reserve (SIZE_MOD - 8) 1 world_full_16
  = Ret (FALSE, world_full_16).
Proof.
  apply (reserve_overflow_guard world_full_16 (SIZE_MOD - 8) 1);
    unfold is_size, SIZE_MOD; simpl; lia.
Defined.

(** C7. [create_hole] with [len == 0], with [idx > size], or with
    [size + len] leaving the machine word returns [FALSE], in the static
    function and in the one the header declares, and the world is the one
    it was given. *)
Theorem create_hole_precondition_failure
  (fuel : nat) (w : world) (idx len el_size : Z) :
  is_size (size (vec w)) ->
  is_size len ->
  len = 0 \/ idx > size (vec w) \/ SIZE_MOD <= size (vec w) + len ->
  _vec2_create_hole fuel idx len el_size w = Ret (FALSE, w) /\
  _vec2_impl_create_hole fuel idx len el_size w = Ret (FALSE, w).
Proof.
  intros Hsz Hlen Hpre.
  assert (Hguard : (len <=? 0) || (idx >? size (vec w))
                   || (size_add (size (vec w)) len <? size (vec w)) = true).
  { destruct Hpre as [H0 | [Hidx | Hw]].
    - subst len. reflexivity.
    - apply orb_true_iff. left. apply orb_true_iff. right.
      apply Z.gtb_lt. lia.
    - apply orb_true_iff. right. apply Z.ltb_lt.
      now apply size_add_wraps. }
  assert (Hstatic : _vec2_create_hole fuel idx len el_size w = Ret (FALSE, w)).
  { unfold _vec2_create_hole, bind, get_vec. rewrite Hguard. reflexivity. }
  split; [exact Hstatic |].
  unfold _vec2_impl_create_hole, bind, get_vec.
  destruct (negb (_vec2_impl_valid (vec w)) || (len <=? 0) || (el_size =? 0));
    [reflexivity |].
  rewrite Hstatic. reflexivity.
Qed.

(** C7 at a concrete input: a hole past the end of a three-element
    buffer. *)
Lemma create_hole_precondition_failure_witness :
  _vec2_create_hole 8 4 1 1 world_3_of_8 = Ret (FALSE, world_3_of_8) /\
  _vec2_impl_create_hole 8 4 1 1 world_3_of_8 = Ret (FALSE, world_3_of_8).
Proof.
  apply (create_hole_precondition_failure 8 world_3_of_8 4 1 1);
    unfold is_size, SIZE_MOD; simpl; lia.
Defined.

(** C9. [insert] with [len == 0] on a valid buffer, with a non-null value
    pointer and a non-zero element size, returns [TRUE] and leaves the
    world as it was, for every [idx], also past the end. *)
Theorem insert_nothing_is_noop
  (fuel : nat) (w : world) (idx el_size : Z) (val : list byte) :
  _vec2_impl_valid (vec w) = true ->
  el_size <> 0 ->
  _vec2_impl_insert fuel idx (Some val) 0 el_size w = Ret (TRUE, w).
Proof.
  intros Hvalid Hel.
  unfold _vec2_impl_insert, bind, get_vec. rewrite Hvalid.
  apply Z.eqb_neq in Hel. rewrite Hel. reflexivity.
Qed.

(** C9 at a concrete input: index 7 of a three-element buffer, where a hole
    cannot be made. *)
Lemma insert_nothing_is_noop_witness :
  _vec2_impl_insert 8 7 (Some [x01]) 0 1 world_3_of_8
  = Ret (TRUE, world_3_of_8) /\
  _vec2_impl_insert 8 7 (Some [x01]) 1 1 world_3_of_8
  = Ret (FALSE, world_3_of_8).
Proof.
  split.
  - apply (insert_nothing_is_noop 8 world_3_of_8 7 1 [x01]);
      [reflexivity | discriminate].
  - reflexivity.
Defined.

(** ** Stepping through the monad *)

Ltac zprop :=
  repeat first
    [ rewrite Z.gtb_ltb | rewrite Z.geb_leb
    | rewrite orb_true_iff | rewrite orb_false_iff
    | rewrite andb_true_iff | rewrite andb_false_iff
    | rewrite negb_true_iff | rewrite negb_false_iff
    | rewrite Z.ltb_lt | rewrite Z.ltb_ge
    | rewrite Z.leb_le | rewrite Z.leb_gt
    | rewrite Z.eqb_eq | rewrite Z.eqb_neq ].

Ltac zbool := zprop; lia.

(** Settle a test of the code from the hypotheses. *)
Ltac is_true c :=
  let H := fresh in assert (H : c = true) by zbool; rewrite ?H; clear H.
Ltac is_false c :=
  let H := fresh in assert (H : c = false) by zbool; rewrite ?H; clear H.

Ltac proj :=
  cbn [vec heap allocator size capacity _idx _start data base bytes
       with_vec with_heap with_allocator
       set_size set_capacity set_idx set_start set_data
       negb orb andb fst snd] in *.

Lemma bind_get_vec {B} (k : vec2 -> M B) (w : world) :
  bind get_vec k w = k (vec w) w.
Proof. reflexivity. Qed.

Lemma bind_upd_vec {B} (f : vec2 -> vec2) (k : unit -> M B) (w : world) :
  bind (upd_vec f) k w = k tt (with_vec (f (vec w)) w).
Proof. reflexivity. Qed.

Lemma bind_ret {A B} (a : A) (k : A -> M B) (w : world) :
  bind (ret a) k w = k a w.
Proof. reflexivity. Qed.

Lemma bind_Ret {A B} (m : M A) (k : A -> M B) (w w' : world) (a : A) :
  m w = Ret (a, w') -> bind m k w = k a w'.
Proof. intros H. unfold bind. now rewrite H. Qed.

Lemma bind_assoc {A B C} (m : M A) (k : A -> M B) (h : B -> M C) (w : world) :
  bind (bind m k) h w = bind m (fun a => bind (k a) h) w.
Proof. unfold bind. now destruct (m w) as [[a w'] | |]. Qed.

Lemma bind_inv {A B} (m : M A) (k : A -> M B) (w w' : world) (b : B) :
  bind m k w = Ret (b, w') ->
  exists a w1, m w = Ret (a, w1) /\ k a w1 = Ret (b, w').
Proof.
  unfold bind. destruct (m w) as [[a w1] | |]; try discriminate.
  intros H. now exists a, w1.
Qed.

Lemma ret_inv {A} (a b : A) (w w' : world) :
  ret a w = Ret (b, w') -> a = b /\ w = w'.
Proof. unfold ret. intros H. injection H as -> ->. now split. Qed.

Lemma then_true_not_false {A} (m : M A) (w w' : world) :
  bind m (fun _ => ret TRUE) w <> Ret (FALSE, w').
Proof.
  intros H. apply bind_inv in H as (a & w1 & _ & H).
  apply ret_inv in H as [H _]. discriminate.
Qed.

Ltac mrun :=
  proj;
  repeat (first [ rewrite bind_get_vec | rewrite bind_upd_vec
                | rewrite bind_ret | rewrite bind_assoc ]; proj).

(** ** Lists cut at byte offsets *)

Section Lists.

Variable A : Type.
Implicit Types l p x t : list A.

Lemma firstn_exact p t (n : Z) :
  Z.of_nat (length p) = n -> firstn (Z.to_nat n) (p ++ t) = p.
Proof.
  intros <-. rewrite Nat2Z.id, firstn_app, Nat.sub_diag, firstn_all.
  simpl. apply app_nil_r.
Qed.

Lemma skipn_exact p t (n : Z) :
  Z.of_nat (length p) = n -> skipn (Z.to_nat n) (p ++ t) = t.
Proof.
  intros <-. rewrite Nat2Z.id, skipn_app, Nat.sub_diag, skipn_all.
  reflexivity.
Qed.

Lemma split_at l (n : Z) :
  0 <= n <= Z.of_nat (length l) ->
  exists p t, l = p ++ t /\ Z.of_nat (length p) = n /\
              Z.of_nat (length t) = Z.of_nat (length l) - n.
Proof.
  intros Hn. exists (firstn (Z.to_nat n) l), (skipn (Z.to_nat n) l).
  rewrite firstn_skipn, length_firstn, length_skipn. repeat split; lia.
Qed.

End Lists.

Arguments firstn_exact {A} p t n.
Arguments skipn_exact {A} p t n.
Arguments split_at {A} l n.

Lemma slice_length (off n : Z) (l : list byte) :
  0 <= off -> 0 <= n -> off + n <= Z.of_nat (length l) ->
  Z.of_nat (length (slice off n l)) = n.
Proof.
  intros Hoff Hn Hfit. unfold slice.
  rewrite length_firstn, length_skipn. lia.
Qed.

Lemma slice_mid (p x t : list byte) (off n : Z) :
  Z.of_nat (length p) = off -> Z.of_nat (length x) = n ->
  slice off n (p ++ x ++ t) = x.
Proof.
  intros Hp Hx. unfold slice.
  now rewrite (skipn_exact p _ off Hp), (firstn_exact x t n Hx).
Qed.

Lemma slice_end (p x : list byte) (off n : Z) :
  Z.of_nat (length p) = off -> Z.of_nat (length x) = n ->
  slice off n (p ++ x) = x.
Proof.
  intros Hp Hx. rewrite <- (app_nil_r x) at 1. now apply slice_mid.
Qed.

Lemma splice_at (p rest bs : list byte) (off : Z) :
  Z.of_nat (length p) = off ->
  splice off bs (p ++ rest) = p ++ bs ++ skipn (length bs) rest.
Proof.
  intros Hp. unfold splice.
  rewrite (firstn_exact p rest off Hp), skipn_app.
  replace (Z.to_nat off) with (length p) by lia.
  rewrite skipn_all2 by lia.
  now replace (length p + length bs - length p)%nat with (length bs) by lia.
Qed.

Lemma splice_front (rest bs : list byte) :
  splice 0 bs rest = bs ++ skipn (length bs) rest.
Proof. now apply (splice_at [] rest bs 0). Qed.

Lemma slice_front (x t : list byte) (n : Z) :
  Z.of_nat (length x) = n -> slice 0 n (x ++ t) = x.
Proof. intros Hx. now apply (slice_mid [] x t 0 n). Qed.

(** ** The memory primitives inside the block *)

Lemma in_block_iff (b : block) (a n : Z) :
  in_block b a n = true <->
  base b <= a /\ 0 <= n /\ a + n <= base b + Z.of_nat (length (bytes b)).
Proof. unfold in_block. zprop. tauto. Qed.

Lemma load_ok (w : world) (b : block) (a n : Z) :
  heap w = Some b -> in_block b a n = true ->
  load a n w = Ret (slice (a - base b) n (bytes b), w).
Proof. intros Hb Hin. unfold load. now rewrite Hb, Hin. Qed.

Lemma store_ok (w : world) (b : block) (a : Z) (bs : list byte) :
  heap w = Some b -> in_block b a (Z.of_nat (length bs)) = true ->
  store a bs w
  = Ret (tt, with_heap (Some (mkBlock (base b)
                                (splice (a - base b) bs (bytes b)))) w).
Proof. intros Hb Hin. unfold store. now rewrite Hb, Hin. Qed.

Lemma memmove_ok (w : world) (b : block) (dst src n : Z) :
  heap w = Some b -> in_block b src n = true -> in_block b dst n = true ->
  memmove dst src n w
  = Ret (tt, with_heap
               (Some (mkBlock (base b)
                        (splice (dst - base b)
                           (slice (src - base b) n (bytes b)) (bytes b)))) w).
Proof.
  intros Hb Hsrc Hdst. unfold memmove, bind.
  rewrite (load_ok w b src n Hb Hsrc).
  apply store_ok; [exact Hb |].
  apply in_block_iff in Hsrc. rewrite slice_length by lia. exact Hdst.
Qed.

Lemma memcpy_out_ok (w : world) (b : block) (o : list byte) (src n : Z) :
  heap w = Some b -> in_block b src n = true ->
  n <= Z.of_nat (length o) ->
  memcpy_out o src n w
  = Ret (slice (src - base b) n (bytes b) ++ skipn (Z.to_nat n) o, w).
Proof.
  intros Hb Hin Hfit. unfold memcpy_out.
  is_true (n <=? Z.of_nat (length o)).
  unfold bind. now rewrite (load_ok w b src n Hb Hin).
Qed.

(** ** Well-formed worlds *)

Lemma wf_valid (el_size : Z) (w : world) :
  wf el_size w -> _vec2_impl_valid (vec w) = true.
Proof.
  unfold wf, _vec2_impl_valid. intros (_ & Hsz & Hst & Hlive & _). zbool.
Qed.

Lemma wf_capacity_range (el_size : Z) (w : world) :
  wf el_size w -> 0 <= capacity (vec w) < SIZE_MOD.
Proof.
  unfold wf. intros (Hel & Hsz & Hst & Hlive & Hheap).
  destruct (heap w) as [b |].
  - destruct Hheap as (Hcap & Hbase & Hdata & Hlen & Hmax). nia.
  - unfold SIZE_MOD. lia.
Qed.

(** A valid buffer satisfies the invariants of the data model. *)
Lemma wf_invariants (el_size : Z) (w : world) :
  wf el_size w -> invariants (vec w).
Proof.
  unfold wf, invariants, NULL. intros (Hel & Hsz & Hst & Hlive & Hheap).
  destruct (heap w) as [b |].
  - destruct Hheap as (Hcap & Hbase & Hdata & _). nia.
  - lia.
Qed.

(** Offsets of elements inside the capacity stay inside the block and
    inside the machine word. *)
Lemma wf_products (el_size : Z) (w : world) (b : block) (k : Z) :
  wf el_size w -> heap w = Some b -> 0 <= k <= capacity (vec w) ->
  0 <= k * el_size <= Z.of_nat (length (bytes b)) /\ k * el_size < SIZE_MOD.
Proof.
  unfold wf. intros (Hel & Hsz & Hst & Hlive & Hheap) Hb Hk.
  rewrite Hb in Hheap. destruct Hheap as (Hcap & Hbase & Hdata & Hlen & Hmax).
  nia.
Qed.

(** ** Removal *)

(** C5. [remove(idx, len, out)] on a valid buffer, [out] being null or an
    array of at least [len] elements.  The call returns.  It returns
    [FALSE] exactly when [len > size] or [idx > size - len]; then, and when
    [len == 0], the world and [out] are as before.  When it returns [TRUE]
    with [len > 0], the content is the old content without the elements
    [idx .. idx+len-1], [size] went down by [len], [capacity] is the same,
    and a non-null [out] starts with the removed elements. *)
Theorem remove_semantics
  (w : world) (idx len el_size : Z) (out : option (list byte)) :
  wf el_size w ->
  is_size idx -> is_size len ->
  (forall o, out = Some o -> len * el_size <= Z.of_nat (length o)) ->
  exists ok out' w',
    _vec2_impl_remove idx len el_size out w = Ret ((ok, out'), w') /\
    (ok = FALSE <-> len > size (vec w) \/ idx > size (vec w) - len) /\
    (ok = FALSE \/ len = 0 -> w' = w /\ out' = out) /\
    (ok = TRUE -> 0 < len ->
     content el_size w'
     = firstn (Z.to_nat (idx * el_size)) (content el_size w)
       ++ skipn (Z.to_nat ((idx + len) * el_size)) (content el_size w) /\
     size (vec w') = size (vec w) - len /\
     capacity (vec w') = capacity (vec w) /\
     out' = option_map
              (fun o => slice (idx * el_size) (len * el_size)
                          (content el_size w)
                        ++ skipn (Z.to_nat (len * el_size)) o) out).
Proof.
  intros Hwf Hidx Hlen Hout.
  pose proof (wf_valid el_size w Hwf) as Hvalid.
  pose proof (wf_capacity_range el_size w Hwf) as Hcr.
  pose proof Hwf as (Hel & Hsz & Hst & Hlive & Hheap).
  unfold is_size in Hidx, Hlen.
  unfold _vec2_impl_remove, _vec2_remove. mrun. rewrite Hvalid.
  is_false (el_size =? 0). mrun.
  destruct (Z.ltb_spec (size (vec w)) len) as [Hbig | Hfit].
  { (* len > size *)
    is_true (len >? size (vec w)). mrun.
    exists FALSE, out, w.
    repeat split; try reflexivity; try tauto; try discriminate; try lia. }
  is_false (len >? size (vec w)). proj.
  rewrite (size_sub_exact (size (vec w)) len) by lia.
  destruct (Z.ltb_spec (size (vec w) - len) idx) as [Hpast | Hin].
  { proj. exists FALSE, out, w.
    repeat split; try reflexivity; try tauto; try discriminate; try lia. }
  destruct (Z.eqb_spec len 0) as [Hz | Hnz].
  { proj. exists TRUE, out, w.
    repeat split; try reflexivity; try tauto; try discriminate; try lia. }
  proj.
  assert (Hpos : 0 < len) by lia.
  destruct (heap w) as [b |] eqn:Hb; [| lia].
  destruct Hheap as (Hcap & Hbase & Hdata & Hblen & Hmax).
  pose proof (wf_products el_size w b idx Hwf Hb ltac:(lia)) as Hpi.
  pose proof (wf_products el_size w b len Hwf Hb ltac:(lia)) as Hpl.
  pose proof (wf_products el_size w b (idx + len) Hwf Hb ltac:(lia)) as Hpil.
  pose proof (wf_products el_size w b (size (vec w)) Hwf Hb ltac:(lia)) as Hpz.
  pose proof (wf_products el_size w b (_start (vec w))
                Hwf Hb ltac:(lia)) as Hpt.
  pose proof (wf_products el_size w b (_start (vec w) + size (vec w))
                Hwf Hb ltac:(lia)) as Hps.
  pose proof (wf_products el_size w b (_start (vec w) + idx)
                Hwf Hb ltac:(lia)) as Hpti.
  pose proof (wf_products el_size w b (_start (vec w) + idx + len)
                Hwf Hb ltac:(lia)) as Hptil.
  pose proof (wf_products el_size w b (size (vec w) - len - idx)
                Hwf Hb ltac:(lia)) as Hprest.
  (* the block, cut at the element boundaries *)
  destruct (split_at (bytes b) (_start (vec w) * el_size) ltac:(lia))
    as (P & L1 & Hbytes & HP & HL1).
  destruct (split_at L1 (idx * el_size) ltac:(lia)) as (A & L2 & -> & HA & HL2).
  destruct (split_at L2 (len * el_size) ltac:(lia)) as (R & L3 & -> & HR & HL3).
  destruct (split_at L3 ((size (vec w) - len - idx) * el_size) ltac:(lia))
    as (S & T & -> & HS & HT).
  assert (HX : content el_size w = A ++ R ++ S).
  { unfold content. rewrite Hb, Hbytes.
    replace (P ++ A ++ R ++ S ++ T) with (P ++ (A ++ R ++ S) ++ T)
      by (now rewrite <- !app_assoc).
    apply slice_mid; [lia |]. rewrite !length_app. lia. }
  rewrite HX.
  set (out' := option_map (fun o => R ++ skipn (Z.to_nat (len * el_size)) o) out).
  erewrite (bind_Ret _ _ w w out'); cycle 1.
  { subst out'. destruct out as [o |]; [| reflexivity]. cbn [option_map].
    unfold VEC2_GET. rewrite !size_mul_exact by lia.
    rewrite (bind_Ret _ _ w w (R ++ skipn (Z.to_nat (len * el_size)) o));
      [reflexivity |].
    rewrite (memcpy_out_ok w b o _ _ Hb) by (try apply in_block_iff; auto; lia).
    rewrite Hbytes, Hdata.
    replace (P ++ A ++ R ++ S ++ T) with ((P ++ A) ++ R ++ S ++ T)
      by (now rewrite <- !app_assoc).
    rewrite slice_mid; [reflexivity | rewrite length_app; lia | lia]. }
  mrun.
  rewrite (firstn_exact A (R ++ S) (idx * el_size) HA).
  replace (skipn (Z.to_nat ((idx + len) * el_size)) (A ++ R ++ S)) with S
    by (rewrite app_assoc, skipn_exact;
        [reflexivity | rewrite length_app; lia]).
  rewrite (slice_mid A R S (idx * el_size) (len * el_size) HA HR).
  fold out'.
  rewrite !(size_sub_exact (size (vec w)) len) by lia.
  exists TRUE, out'.
  match goal with
  | |- exists w', ?run = _ /\ _ =>
      enough (Hrun : exists w', run = Ret (TRUE, out', w') /\
                       content el_size w' = A ++ S /\
                       size (vec w') = size (vec w) - len /\
                       capacity (vec w') = capacity (vec w))
  end.
  { destruct Hrun as (w' & Hrun & Hcontent & Hsize & Hcapacity).
    exists w'. split; [exact Hrun |].
    split; [split; [discriminate | lia] |].
    split; [intros [Hf | Hl]; [discriminate | lia] |].
    intros _ _. auto. }
  destruct (Z.eqb_spec (size (vec w) - len) 0) as [Hempty | Hleft]; proj.
  { (* everything is removed *)
    eexists. split; [reflexivity |]. proj. repeat split.
    assert (idx = 0) by lia. subst idx.
    assert (HA0 : A = []) by (apply length_zero_iff_nil; lia).
    assert (HS0 : S = []) by (apply length_zero_iff_nil; lia).
    unfold content. proj. rewrite Hb, HA0, HS0, Hempty. reflexivity. }
  destruct (Z.eqb_spec idx 0) as [Hfront | Hinner]; proj.
  { (* at the front: the start moves *)
    mrun. eexists. split; [reflexivity |]. proj. repeat split.
    subst idx.
    assert (HA0 : A = []) by (apply length_zero_iff_nil; lia).
    unfold content. proj. rewrite Hb, Hbytes, Hdata, HA0.
    rewrite size_mul_exact by lia. cbn [app].
    replace (P ++ R ++ S ++ T) with ((P ++ R) ++ S ++ T)
      by (now rewrite <- !app_assoc).
    apply slice_mid; [rewrite length_app |]; lia. }
  destruct (Z.ltb_spec idx (size (vec w) - len)) as [Hmid | Hback]; proj.
  { (* in the middle: the suffix moves back *)
    unfold VEC2_GET. proj.
    rewrite (size_add_exact idx len) by lia.
    rewrite (size_sub_exact (size (vec w) - len) idx) by lia.
    rewrite !size_mul_exact by lia.
    erewrite bind_Ret;
      [| apply (memmove_ok _ b); [exact Hb | apply in_block_iff; lia ..]].
    mrun. eexists. split; [reflexivity |]. proj. repeat split.
    unfold content. proj. rewrite Hbytes, Hdata.
    replace (base b + _start (vec w) * el_size + (idx + len) * el_size - base b)
      with ((_start (vec w) + idx + len) * el_size) by lia.
    replace (base b + _start (vec w) * el_size + idx * el_size - base b)
      with ((_start (vec w) + idx) * el_size) by lia.
    replace (base b + _start (vec w) * el_size - base b)
      with (_start (vec w) * el_size) by lia.
    replace (slice ((_start (vec w) + idx + len) * el_size)
               ((size (vec w) - len - idx) * el_size)
               (P ++ A ++ R ++ S ++ T)) with S.
    2:{ replace (P ++ A ++ R ++ S ++ T) with ((P ++ A ++ R) ++ S ++ T)
          by (now rewrite <- !app_assoc).
        symmetry. apply slice_mid; [rewrite !length_app |]; lia. }
    replace (P ++ A ++ R ++ S ++ T) with ((P ++ A) ++ R ++ S ++ T)
      by (now rewrite <- !app_assoc).
    rewrite splice_at by (rewrite length_app; lia).
    rewrite <- !app_assoc.
    replace (P ++ A ++ S ++ skipn (length S) (R ++ S ++ T))
      with (P ++ (A ++ S) ++ skipn (length S) (R ++ S ++ T))
      by (now rewrite <- !app_assoc).
    apply slice_mid; [| rewrite length_app]; lia. }
  (* at the back: nothing moves *)
  mrun. eexists. split; [reflexivity |]. proj. repeat split.
  assert (HS0 : S = []) by (apply length_zero_iff_nil; nia).
  unfold content. proj. rewrite Hb, Hbytes, Hdata, HS0, app_nil_r.
  cbn [app].
  replace (base b + _start (vec w) * el_size - base b)
    with (_start (vec w) * el_size) by lia.
  replace (size (vec w) - len) with idx by lia.
  apply slice_mid; lia.
Qed.

(** C10. Removing a run that ends at the last live element, some elements
    staying: the call returns [TRUE] and the world differs from the old
    one in [size] alone; [_start], [data], [capacity] and every byte of the
    block are the same. *)
Theorem remove_at_back_moves_nothing
  (w : world) (idx len el_size : Z) (out : option (list byte)) :
  wf el_size w ->
  0 < len < size (vec w) ->
  idx + len = size (vec w) ->
  (forall o, out = Some o -> len * el_size <= Z.of_nat (length o)) ->
  exists out',
    _vec2_impl_remove idx len el_size out w
    = Ret ((TRUE, out'), with_vec (set_size (size (vec w) - len) (vec w)) w).
Proof.
  intros Hwf Hlen Hidx Hout.
  pose proof (wf_valid el_size w Hwf) as Hvalid.
  pose proof (wf_capacity_range el_size w Hwf) as Hcr.
  pose proof Hwf as (Hel & Hsz & Hst & Hlive & Hheap).
  destruct (heap w) as [b |] eqn:Hb; [| lia].
  destruct Hheap as (Hcap & Hbase & Hdata & Hblen & Hmax).
  pose proof (wf_products el_size w b idx Hwf Hb ltac:(lia)) as Hpi.
  pose proof (wf_products el_size w b len Hwf Hb ltac:(lia)) as Hpl.
  pose proof (wf_products el_size w b (_start (vec w) + size (vec w))
                Hwf Hb ltac:(lia)) as Hps.
  unfold _vec2_impl_remove, _vec2_remove. mrun. rewrite Hvalid.
  is_false (el_size =? 0). mrun.
  is_false (len >? size (vec w)).
  rewrite (size_sub_exact (size (vec w)) len) by lia.
  is_false (size (vec w) - len <? idx). is_false (len =? 0). mrun.
  (* the new size is idx, which is not 0 and not above itself: neither
     branch that moves anything is taken *)
  assert (Hstay :
            (size (vec w) - len =? 0) = false /\ (idx =? 0) = false /\
            (idx <? size (vec w) - len) = false) by (repeat split; zbool).
  destruct Hstay as (Hleft & Hfront & Hmid).
  destruct out as [o |]; mrun.
  - unfold VEC2_GET. rewrite !size_mul_exact by lia.
    erewrite bind_Ret;
      [| apply (memcpy_out_ok w b);
         [exact Hb | apply in_block_iff; lia | now apply Hout]].
    mrun. rewrite !(size_sub_exact (size (vec w)) len) by lia.
    rewrite Hleft, Hfront, Hmid. mrun. eexists. reflexivity.
  - rewrite !(size_sub_exact (size (vec w)) len) by lia.
    rewrite Hleft, Hfront, Hmid. mrun. eexists. reflexivity.
Qed.

(** C5 at a concrete input: two elements taken out of [1,2,3,4,5] at
    index 1, copied to the caller. *)
Lemma remove_semantics_witness :
  exists ok out' w',
    _vec2_impl_remove 1 2 1 (Some [x00; x00]) world_12345
    = Ret ((ok, out'), w') /\
    (ok = FALSE <-> 2 > size (vec world_12345)
                    \/ 1 > size (vec world_12345) - 2) /\
    (ok = FALSE \/ 2 = 0 -> w' = world_12345 /\ out' = Some [x00; x00]) /\
    (ok = TRUE -> 0 < 2 ->
     content 1 w'
     = firstn (Z.to_nat (1 * 1)) (content 1 world_12345)
       ++ skipn (Z.to_nat ((1 + 2) * 1)) (content 1 world_12345) /\
     size (vec w') = size (vec world_12345) - 2 /\
     capacity (vec w') = capacity (vec world_12345) /\
     out' = option_map
              (fun o => slice (1 * 1) (2 * 1) (content 1 world_12345)
                        ++ skipn (Z.to_nat (2 * 1)) o) (Some [x00; x00])).
Proof.
  apply (remove_semantics world_12345 1 2 1 (Some [x00; x00])).
  - unfold wf, SIZE_MOD. simpl. lia.
  - unfold is_size, SIZE_MOD. lia.
  - unfold is_size, SIZE_MOD. lia.
  - intros o Ho. injection Ho as <-. simpl. lia.
Defined.

(** C10 at a concrete input: the last two elements of [1,2,3,4,5]
    removed. *)
Lemma remove_at_back_moves_nothing_witness :
  exists out',
    _vec2_impl_remove 3 2 1 None world_12345
    = Ret ((TRUE, out'),
           with_vec (set_size (size (vec world_12345) - 2) (vec world_12345))
             world_12345).
Proof.
  apply (remove_at_back_moves_nothing world_12345 3 2 1 None).
  - unfold wf, SIZE_MOD. simpl. lia.
  - simpl. lia.
  - reflexivity.
  - discriminate.
Defined.

(** ** The sample worlds are reached from the initial one *)

Lemma world_12345_reached :
  run_ops 8 1
    [ Insert 0 (Some [x01]) 1; Insert 1 (Some [x02]) 1;
      Insert 2 (Some [x03]) 1; Insert 3 (Some [x04]) 1;
      Insert 4 (Some [x05]) 1 ]
    (initial_world [AllocAt 1000%positive []])
  = Ret (tt, world_12345).
Proof. vm_compute. reflexivity. Qed.

Lemma world_2_of_64_reached :
  run_ops 8 1 [ Reserve 64; Insert 0 (Some [x01; x02]) 2 ]
    (initial_world [AllocAt 1000%positive []; AllocAt 1000%positive []])
  = Ret (tt, world_2_of_64).
Proof. vm_compute. reflexivity. Qed.

Lemma world_front_slack_reached :
  run_ops 8 1
    [ Insert 0 (Some [x01; x02; x03; x04; x05; x06; x07; x08; x09]) 9;
      Remove 0 2 None ]
    (initial_world [AllocAt 1000%positive []; AllocFail])
  = Ret (tt, world_front_slack).
Proof. vm_compute. reflexivity. Qed.

(** ** Calls that fail *)

Lemma same_buffer_refl (w : world) : same_buffer w w.
Proof. now split. Qed.

Lemma same_buffer_trans (w1 w2 w3 : world) :
  same_buffer w1 w2 -> same_buffer w2 w3 -> same_buffer w1 w3.
Proof. intros [H1 H2] [H3 H4]. split; congruence. Qed.

Lemma realloc_null (p n : Z) (w w' : world) :
  realloc p n w = Ret (NULL, w') -> same_buffer w w'.
Proof.
  unfold realloc, same_buffer.
  assert (Hanswer : forall old,
    match allocator w with
    | AllocAt addr fresh :: rest =>
        Ret (Z.pos addr,
             mkWorld (vec w)
               (Some (mkBlock (Z.pos addr) (resize n old fresh))) rest)
    | AllocFail :: rest => Ret (NULL, with_allocator rest w)
    | [] => Ret (NULL, w)
    end = Ret (NULL, w') -> vec w' = vec w /\ heap w' = heap w).
  { intros old. destruct (allocator w) as [| [| addr fresh] rest].
    - intros H. injection H as <-. now split.
    - intros H. injection H as <-. now split.
    - discriminate. }
  destruct (p =? NULL); [apply Hanswer |].
  destruct (heap w) as [b |]; [| discriminate].
  destruct (p =? base b); [apply Hanswer | discriminate].
Qed.

Lemma reserve_fails_same (additional el_size : Z) (w w' : world) :
  _vec2_reserve additional el_size w = Ret (FALSE, w') -> same_buffer w w'.
Proof.
  unfold _vec2_reserve. mrun.
  destruct (additional >? size_sub (capacity (vec w)) (size (vec w)));
    [| intros H; apply ret_inv in H as [H _]; discriminate].
  destruct (size_add (capacity (vec w)) additional <? capacity (vec w)).
  { intros H. apply ret_inv in H as [_ <-]. apply same_buffer_refl. }
  destruct (el_size =? 0); [discriminate |].
  destruct (negb _).
  { intros H. apply ret_inv in H as [_ <-]. apply same_buffer_refl. }
  intros H. apply bind_inv in H as (new_mem & w1 & Hre & H).
  destruct (Z.eqb_spec new_mem NULL) as [-> | Hne].
  - apply ret_inv in H as [_ <-]. now apply realloc_null in Hre.
  - exfalso. revert H. apply then_true_not_false.
Qed.

Lemma reserve_retry_fails_same (fuel : nat) (len el_size : Z) :
  forall (addition : Z) (w w' : world),
    reserve_retry fuel addition len el_size w = Ret (FALSE, w') ->
    same_buffer w w'.
Proof.
  induction fuel as [| fuel IH]; intros addition w w'; cbn [reserve_retry].
  - discriminate.
  - intros H. apply bind_inv in H as (ok & w1 & Hres & H).
    destruct ok; cbn [negb] in H.
    + apply ret_inv in H as [H _]. discriminate.
    + apply reserve_fails_same in Hres.
      apply (same_buffer_trans w w1 w' Hres).
      destruct ((addition >? len) && (shr1 addition <? len)).
      * now apply IH in H.
      * destruct (shr1 addition <? len).
        -- apply ret_inv in H as [_ <-]. apply same_buffer_refl.
        -- now apply IH in H.
Qed.

Lemma create_hole_fails_same (fuel : nat) (idx len el_size : Z) (w w' : world) :
  _vec2_create_hole fuel idx len el_size w = Ret (FALSE, w') ->
  same_buffer w w'.
Proof.
  unfold _vec2_create_hole. mrun.
  destruct (_ || _).
  { intros H. apply ret_inv in H as [_ <-]. apply same_buffer_refl. }
  intros H. apply bind_inv in H as (reserved & w1 & Hres & H).
  destruct reserved; cbn [negb] in H.
  - exfalso. revert H. mrun. apply then_true_not_false.
  - apply ret_inv in H as [_ <-].
    destruct (size_add (size (vec w)) len >? capacity (vec w)).
    + destruct (grow_addition _ _ _) as [addition |]; [| discriminate].
      now apply reserve_retry_fails_same in Hres.
    + apply ret_inv in Hres as [Hres _]. discriminate.
Qed.

Lemma shrink_fails (el_size : Z) (w w' : world) :
  _vec2_impl_shrink el_size w = Ret (FALSE, w') ->
  same_buffer w w' \/
  (0 < _start (vec w) /\
   vec w' = set_start 0 (set_data (vec2_mem (vec w) el_size) (vec w)) /\
   exists b,
     heap w = Some b /\
     heap w'
     = Some (mkBlock (base b)
               (splice (vec2_mem (vec w) el_size - base b)
                  (slice (data (vec w) - base b)
                     (size_mul el_size (size (vec w))) (bytes b))
                  (bytes b)))).
Proof.
  unfold _vec2_impl_shrink. mrun.
  destruct (_ || _).
  { intros H. apply ret_inv in H as [_ <-]. left. apply same_buffer_refl. }
  destruct (size (vec w) =? 0).
  { intros H. exfalso. revert H. apply then_true_not_false. }
  destruct (_ && _);
    [| intros H; apply ret_inv in H as [H _]; discriminate].
  intros H. apply bind_inv in H as ([] & w1 & Hmove & H).
  revert H. mrun. intros H.
  apply bind_inv in H as (new_mem & w2 & Hre & H).
  destruct (Z.eqb_spec new_mem NULL) as [-> | Hne];
    [| exfalso; revert H; apply then_true_not_false].
  apply ret_inv in H as [_ <-].
  apply realloc_null in Hre as [Hv2 Hh2].
  destruct (Z.gtb_spec (_start (vec w)) 0) as [Hslack | Hnone].
  - right. split; [lia |].
    apply bind_inv in Hmove as ([] & w0 & Hmm & Hupd).
    revert Hupd. unfold upd_vec. intros Hupd. injection Hupd as <-.
    proj.
    unfold memmove in Hmm.
    apply bind_inv in Hmm as (bs & wl & Hload & Hstore).
    unfold load in Hload. unfold store in Hstore.
    destruct (heap w) as [b |] eqn:Hb; [| discriminate].
    destruct (in_block b (data (vec w)) _); [| discriminate].
    injection Hload as <- <-. rewrite Hb in Hstore.
    destruct (in_block b _ _); [| discriminate].
    injection Hstore as <-. proj.
    split; [exact Hv2 |]. exists b. split; [reflexivity | exact Hh2].
  - left. apply ret_inv in Hmove as [_ <-]. now split.
Qed.

(** Moving the live bytes to the base of the block keeps them. *)
Lemma compaction_keeps_content (el_size : Z) (w w' : world) (b : block) :
  wf el_size w ->
  heap w = Some b ->
  vec w' = set_start 0 (set_data (vec2_mem (vec w) el_size) (vec w)) ->
  heap w'
  = Some (mkBlock (base b)
            (splice (vec2_mem (vec w) el_size - base b)
               (slice (data (vec w) - base b)
                  (size_mul el_size (size (vec w))) (bytes b))
               (bytes b))) ->
  content el_size w' = content el_size w /\ wf el_size w'.
Proof.
  intros Hwf Hb Hvec Hheap.
  pose proof Hwf as (Hel & Hsz & Hst & Hlive & Hwfh).
  rewrite Hb in Hwfh. destruct Hwfh as (Hcap & Hbase & Hdata & Hblen & Hmax).
  pose proof (wf_products el_size w b (size (vec w)) Hwf Hb ltac:(lia)) as Hpz.
  pose proof (wf_products el_size w b (_start (vec w))
                Hwf Hb ltac:(lia)) as Hpt.
  pose proof (wf_products el_size w b (_start (vec w) + size (vec w))
                Hwf Hb ltac:(lia)) as Hps.
  destruct (split_at (bytes b) (_start (vec w) * el_size) ltac:(lia))
    as (P & L & Hbytes & HP & HL).
  destruct (split_at L (size (vec w) * el_size) ltac:(lia))
    as (X & T & -> & HX & HT).
  assert (Hmem : vec2_mem (vec w) el_size = base b).
  { unfold vec2_mem. rewrite size_mul_exact by lia. lia. }
  assert (Hcontent : content el_size w = X).
  { unfold content. rewrite Hb, Hbytes, Hdata.
    replace (base b + _start (vec w) * el_size - base b)
      with (_start (vec w) * el_size) by lia.
    now apply slice_mid. }
  assert (Hbytes' :
            splice (vec2_mem (vec w) el_size - base b)
              (slice (data (vec w) - base b)
                 (size_mul el_size (size (vec w))) (bytes b)) (bytes b)
            = X ++ skipn (length X) (bytes b)).
  { rewrite Hmem, Z.sub_diag, size_mul_exact by lia.
    rewrite Hdata, Hbytes.
    replace (base b + _start (vec w) * el_size - base b)
      with (_start (vec w) * el_size) by lia.
    rewrite (slice_mid P X T) by lia.
    apply (splice_at [] (P ++ X ++ T) X 0). reflexivity. }
  rewrite Hbytes' in Hheap.
  split.
  - rewrite Hcontent. unfold content. rewrite Hheap, Hvec, Hmem. proj.
    rewrite Z.sub_diag.
    apply (slice_mid [] X _ 0); [reflexivity | exact HX].
  - unfold wf. rewrite Hheap, Hvec, Hmem. proj.
    repeat split; try lia.
    + rewrite length_app, length_skipn. lia.
    + rewrite length_app, length_skipn. lia.
Qed.

Lemma impl_create_hole_fails_same
  (fuel : nat) (idx len el_size : Z) (w w' : world) :
  _vec2_impl_create_hole fuel idx len el_size w = Ret (FALSE, w') ->
  same_buffer w w'.
Proof.
  unfold _vec2_impl_create_hole. mrun.
  destruct (_ || _).
  { intros H. apply ret_inv in H as [_ <-]. apply same_buffer_refl. }
  intros H. apply bind_inv in H as (ok & w1 & Hhole & H).
  destruct ok; cbn [negb] in H.
  - exfalso. revert H. apply then_true_not_false.
  - apply ret_inv in H as [_ <-]. now apply create_hole_fails_same in Hhole.
Qed.

Lemma impl_insert_fails_same
  (fuel : nat) (idx : Z) (val : option (list byte)) (len el_size : Z)
  (w w' : world) :
  _vec2_impl_insert fuel idx val len el_size w = Ret (FALSE, w') ->
  same_buffer w w'.
Proof.
  unfold _vec2_impl_insert. mrun.
  destruct val as [bs |];
    [| intros H; apply ret_inv in H as [_ <-]; apply same_buffer_refl].
  destruct (_ || _).
  { intros H. apply ret_inv in H as [_ <-]. apply same_buffer_refl. }
  destruct (len >? 0);
    [| intros H; apply ret_inv in H as [H _]; discriminate].
  intros H. apply bind_inv in H as (ok & w1 & Hhole & H).
  destruct ok; cbn [negb] in H.
  - exfalso. revert H. mrun. intros H.
    apply bind_inv in H as ([] & w2 & _ & H).
    revert H. apply then_true_not_false.
  - apply ret_inv in H as [_ <-]. now apply create_hole_fails_same in Hhole.
Qed.

Lemma impl_remove_fails_same
  (idx len el_size : Z) (out out' : option (list byte)) (w w' : world) :
  _vec2_impl_remove idx len el_size out w = Ret ((FALSE, out'), w') ->
  w' = w /\ out' = out.
Proof.
  unfold _vec2_impl_remove, _vec2_remove. mrun.
  destruct (_ || _).
  { intros H. apply ret_inv in H as [H <-]. injection H as <-. now split. }
  mrun.
  destruct (_ || _).
  { intros H. apply ret_inv in H as [H <-]. injection H as <-. now split. }
  destruct (negb (len =? 0));
    [| intros H; apply ret_inv in H as [H _]; discriminate].
  intros H. apply bind_inv in H as (o & w1 & _ & H).
  revert H. mrun. intros H.
  apply bind_inv in H as ([] & w2 & _ & H).
  apply ret_inv in H as [H _]. discriminate.
Qed.

Lemma impl_swap_fails_same
  (fuel : nat) (first second el_size : Z) (w w' : world) :
  _vec2_impl_swap fuel first second el_size w = Ret (FALSE, w') -> w' = w.
Proof.
  unfold _vec2_impl_swap. mrun.
  destruct (_ || _).
  { intros H. now apply ret_inv in H as [_ <-]. }
  intros H. exfalso. revert H. apply then_true_not_false.
Qed.

Lemma impl_sort_fails_same
  (cmpfn : option cmpfn_t) (el_size : Z) (w w' : world) :
  _vec2_impl_sort cmpfn el_size w = Ret (FALSE, w') -> w' = w.
Proof.
  unfold _vec2_impl_sort. mrun.
  destruct cmpfn as [cmp |];
    [| intros H; now apply ret_inv in H as [_ <-]].
  destruct (_ || _).
  { intros H. now apply ret_inv in H as [_ <-]. }
  intros H. exfalso. revert H. apply then_true_not_false.
Qed.

Lemma impl_assign_fails_same
  (idx : Z) (val : option (list byte)) (len el_size : Z) (w w' : world) :
  _vec2_impl_assign idx val len el_size w = Ret (FALSE, w') -> w' = w.
Proof.
  unfold _vec2_impl_assign. mrun.
  destruct val as [bs |];
    [| intros H; now apply ret_inv in H as [_ <-]].
  destruct (_ || _).
  { intros H. now apply ret_inv in H as [_ <-]. }
  intros H. exfalso. revert H. apply then_true_not_false.
Qed.

Lemma impl_reserve_fails_same (additional el_size : Z) (w w' : world) :
  _vec2_impl_reserve additional el_size w = Ret (FALSE, w') ->
  same_buffer w w'.
Proof.
  unfold _vec2_impl_reserve. mrun.
  destruct (_ || _).
  { intros H. apply ret_inv in H as [_ <-]. apply same_buffer_refl. }
  apply reserve_fails_same.
Qed.

(** C2. A call that returns [FALSE] leaves the structure ([size],
    [capacity], [_start], [data]) and the block as they were, with one
    exception: shrink-to-fit on a buffer with front slack, whose
    reallocation fails after the live elements were moved to the base of
    the block.  Then [size] and [capacity] are as before, [_start] is 0
    and [data] is the base of the block, and on a valid buffer the content
    is the same and the buffer is still valid. *)
Theorem failure_keeps_buffer
  (fuel : nat) (el_size : Z) (o : op) (w w' : world) :
  run_op fuel el_size o w = Ret (FALSE, w') ->
  same_buffer w w' \/
  (o = Shrink /\ 0 < _start (vec w) /\
   size (vec w') = size (vec w) /\
   capacity (vec w') = capacity (vec w) /\
   _start (vec w') = 0 /\
   data (vec w') = vec2_mem (vec w) el_size /\
   (wf el_size w -> content el_size w' = content el_size w /\ wf el_size w')).
Proof.
  destruct o as [| additional | | idx len | first second | cmpfn
                 | idx val len | idx len out | idx val len |];
    cbn [run_op]; intros H.
  - exfalso. revert H. unfold _vec2_impl_init. apply then_true_not_false.
  - left. now apply impl_reserve_fails_same in H.
  - apply shrink_fails in H as [H | (Hslack & Hvec & b & Hb & Hheap)];
      [now left | right].
    split; [reflexivity |]. split; [exact Hslack |].
    rewrite Hvec. proj. do 4 (split; [reflexivity |]).
    intros Hwf. now apply (compaction_keeps_content el_size w w' b).
  - left. now apply impl_create_hole_fails_same in H.
  - left. apply impl_swap_fails_same in H as ->. apply same_buffer_refl.
  - left. apply impl_sort_fails_same in H as ->. apply same_buffer_refl.
  - left. apply impl_assign_fails_same in H as ->. apply same_buffer_refl.
  - left. apply bind_inv in H as ([ok out'] & w1 & Hrem & H).
    apply ret_inv in H as [Hok <-]. cbn [fst] in Hok. subst ok.
    apply impl_remove_fails_same in Hrem as [-> _]. apply same_buffer_refl.
  - left. now apply impl_insert_fails_same in H.
  - exfalso. revert H. apply then_true_not_false.
Qed.

(** C2 at a concrete input: the refused shrink-to-fit of
    [world_front_slack]. *)
Lemma failure_keeps_buffer_witness :
  same_buffer world_front_slack world_front_slack_compacted \/
  (Shrink = Shrink /\ 0 < _start (vec world_front_slack) /\
   size (vec world_front_slack_compacted) = size (vec world_front_slack) /\
   capacity (vec world_front_slack_compacted)
   = capacity (vec world_front_slack) /\
   _start (vec world_front_slack_compacted) = 0 /\
   data (vec world_front_slack_compacted)
   = vec2_mem (vec world_front_slack) 1 /\
   (wf 1 world_front_slack ->
    content 1 world_front_slack_compacted = content 1 world_front_slack /\
    wf 1 world_front_slack_compacted)).
Proof.
  apply (failure_keeps_buffer 0 1 Shrink world_front_slack
           world_front_slack_compacted).
  vm_compute. reflexivity.
Defined.

(** C2 as stated does not hold: the refused shrink-to-fit of a valid
    buffer with two slots of front slack returns [FALSE] with [_start] and
    [data] changed. *)
Lemma shrink_failure_moves_start :
  wf 1 world_front_slack /\
  run_op 0 1 Shrink world_front_slack
  = Ret (FALSE, world_front_slack_compacted) /\
  _start (vec world_front_slack) = 2 /\
  _start (vec world_front_slack_compacted) = 0 /\
  data (vec world_front_slack) = 1002 /\
  data (vec world_front_slack_compacted) = 1000 /\
  vec world_front_slack_compacted <> vec world_front_slack.
Proof.
  split; [unfold wf, SIZE_MOD; simpl; lia |].
  split; [vm_compute; reflexivity |].
  repeat (split; [reflexivity |]). discriminate.
Qed.

(** ** Insertion where no suffix moves forward *)

(** With room for [len] more elements, [_vec2_create_hole] opens the gap
    when the hole is at the end or the front slack holds it. *)
Lemma create_hole_opens_gap
  (fuel : nat) (w : world) (idx len el_size : Z) :
  wf el_size w ->
  0 <= idx <= size (vec w) ->
  0 < len ->
  size (vec w) + len <= capacity (vec w) ->
  (size (vec w) = 0 -> _start (vec w) + len <= capacity (vec w)) ->
  idx = size (vec w) \/ len <= _start (vec w) ->
  exists w1,
    _vec2_create_hole fuel idx len el_size w = Ret (TRUE, w1) /\
    size (vec w1) = size (vec w) /\
    capacity (vec w1) = capacity (vec w) /\
    wf el_size (with_vec (set_size (size (vec w) + len) (vec w1)) w1) /\
    gap_at el_size idx len (content el_size w) w1.
Proof.
  intros Hwf Hidx Hlen Hroom Hempty Hpath.
  pose proof (wf_capacity_range el_size w Hwf) as Hcr.
  pose proof Hwf as (Hel & Hsz & Hst & Hlive & Hheap).
  destruct (heap w) as [b |] eqn:Hb; [| lia].
  destruct Hheap as (Hcap & Hbase & Hdata & Hblen & Hmax).
  pose proof (wf_products el_size w b idx Hwf Hb ltac:(lia)) as Hpi.
  pose proof (wf_products el_size w b len Hwf Hb ltac:(lia)) as Hpl.
  pose proof (wf_products el_size w b (size (vec w)) Hwf Hb ltac:(lia)) as Hpz.
  pose proof (wf_products el_size w b (size (vec w) - idx)
                Hwf Hb ltac:(lia)) as Hpr.
  pose proof (wf_products el_size w b (size (vec w) + len)
                Hwf Hb ltac:(lia)) as Hpzl.
  pose proof (wf_products el_size w b (_start (vec w))
                Hwf Hb ltac:(lia)) as Hpt.
  pose proof (wf_products el_size w b (_start (vec w) + size (vec w))
                Hwf Hb ltac:(lia)) as Hps.
  pose proof (wf_products el_size w b (capacity (vec w))
                Hwf Hb ltac:(lia)) as Hpc.
  destruct (split_at (bytes b) (_start (vec w) * el_size) ltac:(lia))
    as (P & L1 & Hbytes & HP & HL1).
  destruct (split_at L1 (idx * el_size) ltac:(nia)) as (A & L2 & -> & HA & HL2).
  destruct (split_at L2 ((size (vec w) - idx) * el_size) ltac:(nia))
    as (S & T & -> & HS & HT).
  assert (HX : content el_size w = A ++ S).
  { unfold content. rewrite Hb, Hbytes, Hdata.
    replace (base b + _start (vec w) * el_size - base b)
      with (_start (vec w) * el_size) by lia.
    replace (P ++ A ++ S ++ T) with (P ++ (A ++ S) ++ T)
      by (now rewrite <- !app_assoc).
    apply slice_mid; [lia |]. rewrite length_app. lia. }
  rewrite HX.
  unfold _vec2_create_hole. mrun.
  is_false (len <=? 0). is_false (idx >? size (vec w)).
  rewrite (size_add_exact (size (vec w)) len) by lia.
  is_false (size (vec w) + len <? size (vec w)).
  is_false (size (vec w) + len >? capacity (vec w)).
  mrun. change (negb TRUE) with false. mrun.
  destruct (Z.eqb_spec (size (vec w)) 0) as [Hnone | Hsome].
  { (* an empty buffer: no placement *)
    is_false (size (vec w) >? 0). mrun.
    assert (idx = 0) by lia. subst idx.
    assert (HA0 : A = []) by (apply length_zero_iff_nil; lia).
    assert (HS0 : S = []) by (apply length_zero_iff_nil; nia).
    subst A S. cbn [app] in *.
    pose proof (wf_products el_size w b (_start (vec w) + len) Hwf Hb
                  ltac:(lia)) as Hptl.
    destruct (split_at T (len * el_size) ltac:(lia)) as (G & T1 & -> & HG & HT1).
    eexists. split; [reflexivity |]. split; [reflexivity |].
    split; [reflexivity |]. split.
    - unfold wf. proj. rewrite Hb. repeat split; lia.
    - exists b, P, [], G, [], T1. cbn [app]. repeat split; auto; lia. }
  is_true (size (vec w) >? 0). mrun.
  destruct (Z.eqb_spec idx 0) as [Hfront | Hinner]; proj.
  - (* at the front with enough slack: the start moves back *)
    assert (Hslack : len <= _start (vec w)) by lia.
    is_true (_start (vec w) >=? len). mrun.
    rewrite size_mul_exact, size_sub_exact by lia.
    assert (HA0 : A = []) by (apply length_zero_iff_nil; lia).
    subst A. cbn [app] in *.
    pose proof (wf_products el_size w b (_start (vec w) - len) Hwf Hb
                  ltac:(lia)) as Hptl.
    destruct (split_at P ((_start (vec w) - len) * el_size) ltac:(lia))
      as (P1 & G & -> & HP1 & HG).
    rewrite length_app in HP.
    eexists. split; [reflexivity |]. split; [reflexivity |].
    split; [reflexivity |]. split.
    + unfold wf. proj. rewrite Hb. repeat split; lia.
    + exists b, P1, [], G, S, T. proj. cbn [app].
      rewrite <- app_assoc in Hbytes. repeat split; auto; lia.
  - destruct (Z.eqb_spec idx (size (vec w))) as [Hend | Hmid]; proj.
    + (* at the end *)
      is_false (idx <? size (vec w)). proj.
      rewrite size_add_exact, size_sub_exact by lia.
      assert (HS0 : S = []) by (apply length_zero_iff_nil; nia).
      subst S. cbn [app] in *. rewrite app_nil_r.
      destruct (Z.ltb_spec (capacity (vec w) - (_start (vec w) + size (vec w)))
                  len) as [Htight | Hloose].
      * (* everything moves to the base of the block *)
        is_true (len >? capacity (vec w) - (_start (vec w) + size (vec w))).
        mrun. unfold VEC2_GET. proj.
        is_false (idx <? size (vec w)). proj.
        rewrite (size_sub_exact (_start (vec w)) (_start (vec w))) by lia.
        rewrite !size_mul_exact by lia.
        erewrite bind_Ret;
          [| apply (memmove_ok _ b); [exact Hb | apply in_block_iff; proj; lia ..]].
        mrun. rewrite Hdata.
        replace (base b + _start (vec w) * el_size - _start (vec w) * el_size
                 + _start (vec w) * el_size - base b)
          with (_start (vec w) * el_size) by lia.
        replace (base b + _start (vec w) * el_size - _start (vec w) * el_size
                 - base b) with 0 by lia.
        rewrite Hbytes, (slice_mid P A T) by lia.
        rewrite splice_front.
        destruct (split_at (skipn (length A) (P ++ A ++ T)) (len * el_size))
          as (G & T1 & HGT & HG & HT1).
        { rewrite length_skipn, !length_app. nia. }
        eexists. split; [reflexivity |]. split; [reflexivity |].
        split; [reflexivity |]. split.
        -- unfold wf. proj.
           assert (Z.of_nat (length (A ++ skipn (length A) (P ++ A ++ T)))
                   = Z.of_nat (length (bytes b))).
           { rewrite Hbytes, length_app, length_skipn, !length_app. lia. }
           repeat split; lia.
        -- exists (mkBlock (base b) (A ++ skipn (length A) (P ++ A ++ T))),
             [], A, G, [], T1. proj. cbn [app].
           rewrite HGT, app_nil_r. repeat split; auto; lia.
      * (* the room behind the last element is enough *)
        is_false (len >? capacity (vec w) - (_start (vec w) + size (vec w))).
        mrun.
        pose proof (wf_products el_size w b
                      (_start (vec w) + size (vec w) + len) Hwf Hb
                      ltac:(lia)) as Hptl.
        destruct (split_at T (len * el_size) ltac:(nia))
          as (G & T1 & -> & HG & HT1).
        eexists. split; [reflexivity |]. split; [reflexivity |].
        split; [reflexivity |]. split.
        -- unfold wf. proj. rewrite Hb. repeat split; lia.
        -- exists b, P, A, G, [], T1. cbn [app]. rewrite app_nil_r.
           repeat split; auto; lia.
    + (* in the interior, with enough slack in front: the prefix moves back *)
      assert (Hslack : len <= _start (vec w)) by lia.
      is_true (idx <? size (vec w)). is_false (len >? _start (vec w)).
      mrun. unfold VEC2_GET. proj.
      rewrite Z.gtb_ltb, Z.ltb_irrefl, andb_false_r.
      rewrite (size_sub_exact (_start (vec w)) len) by lia.
      rewrite !size_mul_exact by lia.
      pose proof (wf_products el_size w b (_start (vec w) - len) Hwf Hb
                    ltac:(lia)) as Hptl.
      pose proof (wf_products el_size w b (_start (vec w) + idx) Hwf Hb
                    ltac:(lia)) as Hpti.
      erewrite bind_Ret;
        [| apply (memmove_ok _ b); [exact Hb | apply in_block_iff; proj; lia ..]].
      mrun. rewrite Hdata.
      replace (base b + _start (vec w) * el_size - len * el_size
               + len * el_size - base b)
        with (_start (vec w) * el_size) by lia.
      replace (base b + _start (vec w) * el_size - len * el_size - base b)
        with ((_start (vec w) - len) * el_size) by lia.
      rewrite Hbytes.
      replace (slice (_start (vec w) * el_size) (idx * el_size)
                 (P ++ A ++ S ++ T)) with A
        by (symmetry; now apply slice_mid).
      destruct (split_at P ((_start (vec w) - len) * el_size) ltac:(lia))
        as (P1 & G0 & -> & HP1 & HG0).
      rewrite length_app in HP.
      rewrite <- app_assoc, splice_at by exact HP1.
      assert (Hskip : skipn (length A) (G0 ++ A ++ S ++ T)
                      = skipn (length A) (G0 ++ A) ++ S ++ T).
      { rewrite (app_assoc G0 A), skipn_app.
        replace (length A - length (G0 ++ A))%nat with 0%nat
          by (rewrite length_app; lia).
        reflexivity. }
      rewrite Hskip.
      eexists. split; [reflexivity |]. split; [reflexivity |].
      split; [reflexivity |]. split.
      * unfold wf. proj.
        assert (Z.of_nat (length (P1 ++ A ++ skipn (length A) (G0 ++ A)
                                     ++ S ++ T))
                = Z.of_nat (length (bytes b))).
        { rewrite Hbytes, !length_app, length_skipn, !length_app. lia. }
        repeat split; lia.
      * exists (mkBlock (base b)
                  (P1 ++ A ++ skipn (length A) (G0 ++ A) ++ S ++ T)),
          P1, A, (skipn (length A) (G0 ++ A)), S, T. proj.
        repeat split; auto; try lia.
        rewrite length_skipn, length_app. lia.
Qed.

(** The live elements are [size] elements long. *)
Lemma content_length (el_size : Z) (w : world) :
  wf el_size w ->
  Z.of_nat (length (content el_size w)) = size (vec w) * el_size.
Proof.
  intros Hwf. pose proof Hwf as (Hel & Hsz & Hst & Hlive & Hheap).
  unfold content. destruct (heap w) as [b |] eqn:Hb.
  - destruct Hheap as (Hcap & Hbase & Hdata & Hblen & Hmax).
    pose proof (wf_products el_size w b (_start (vec w) + size (vec w))
                  Hwf Hb ltac:(lia)) as Hps.
    pose proof (wf_products el_size w b (_start (vec w)) Hwf Hb ltac:(lia))
      as Hpt.
    pose proof (wf_products el_size w b (size (vec w)) Hwf Hb ltac:(lia))
      as Hpz.
    apply slice_length; lia.
  - cbn. nia.
Qed.

(** Where insertion is right: with room for [len] more elements, at the
    end of the buffer or with at least [len] slots of front slack, the call
    returns [TRUE] and the content is the old one with the new elements at
    [idx].  These are the paths of [_vec2_create_hole] that move no suffix
    forward. *)
Theorem insert_without_forward_shift
  (fuel : nat) (w : world) (idx len el_size : Z) (val : list byte) :
  wf el_size w ->
  0 <= idx <= size (vec w) ->
  0 < len ->
  size (vec w) + len <= capacity (vec w) ->
  (size (vec w) = 0 -> _start (vec w) + len <= capacity (vec w)) ->
  idx = size (vec w) \/ len <= _start (vec w) ->
  len * el_size <= Z.of_nat (length val) ->
  exists w',
    _vec2_impl_insert fuel idx (Some val) len el_size w = Ret (TRUE, w') /\
    content el_size w'
    = firstn (Z.to_nat (idx * el_size)) (content el_size w)
      ++ firstn (Z.to_nat (len * el_size)) val
      ++ skipn (Z.to_nat (idx * el_size)) (content el_size w) /\
    size (vec w') = size (vec w) + len /\
    capacity (vec w') = capacity (vec w) /\
    wf el_size w'.
Proof.
  intros Hwf Hidx Hlen Hroom Hempty Hpath Hval.
  pose proof (wf_valid el_size w Hwf) as Hvalid.
  pose proof (wf_capacity_range el_size w Hwf) as Hcr.
  pose proof (content_length el_size w Hwf) as HXlen.
  destruct (create_hole_opens_gap fuel w idx len el_size
              Hwf Hidx Hlen Hroom Hempty Hpath)
    as (w1 & Hhole & Hsize1 & Hcap1 & Hwf1
        & b1 & P & A & G & S & T & Hb1 & Hbytes1 & Hdata1 & HA & HG & HX).
  rewrite HX in *. rewrite length_app in HXlen.
  pose proof Hwf1 as (Hel & _ & Hst1 & Hlive1 & Hheap1).
  proj. rewrite Hb1 in Hheap1.
  destruct Hheap1 as (Hcapp & Hbase1 & Hdata1' & Hblen1 & Hmax1).
  assert (Hlenel : 0 <= len * el_size < SIZE_MOD).
  { rewrite Hbytes1, !length_app in Hmax1. lia. }
  assert (Hidxel : 0 <= idx * el_size < SIZE_MOD).
  { rewrite Hbytes1, !length_app in Hmax1. lia. }
  set (V := firstn (Z.to_nat (len * el_size)) val).
  assert (HV : Z.of_nat (length V) = len * el_size).
  { subst V. rewrite length_firstn. lia. }
  unfold _vec2_impl_insert. mrun. rewrite Hvalid.
  is_false (el_size =? 0). is_true (len >? 0). mrun.
  erewrite bind_Ret by exact Hhole.
  change (negb TRUE) with false. mrun.
  unfold VEC2_GET, memcpy_in.
  rewrite (size_mul_exact idx el_size), (size_mul_exact el_size len) by lia.
  replace (el_size * len) with (len * el_size) by lia.
  is_true (len * el_size <=? Z.of_nat (length val)). fold V.
  erewrite bind_Ret;
    [| apply (store_ok _ b1);
       [exact Hb1
       | apply in_block_iff; rewrite Hbytes1, !length_app; lia]].
  mrun. rewrite Hsize1, (size_add_exact (size (vec w)) len) by lia.
  eexists. split; [reflexivity |]. proj.
  assert (Hnew : splice (data (vec w1) + idx * el_size - base b1) V (bytes b1)
                 = P ++ (A ++ V ++ S) ++ T).
  { rewrite Hbytes1, Hdata1.
    replace (P ++ A ++ G ++ S ++ T) with ((P ++ A) ++ G ++ S ++ T)
      by (now rewrite <- !app_assoc).
    rewrite splice_at by (rewrite length_app; lia).
    replace (length V) with (Z.to_nat (len * el_size)) by lia.
    rewrite (skipn_exact G (S ++ T) _ HG).
    now rewrite <- !app_assoc. }
  rewrite Hnew.
  split; [| split; [reflexivity | split; [exact Hcap1 |]]].
  - unfold content. proj. rewrite Hdata1.
    replace (base b1 + Z.of_nat (length P) - base b1)
      with (Z.of_nat (length P)) by lia.
    rewrite (firstn_exact A S _ HA), (skipn_exact A S _ HA).
    apply slice_mid; [reflexivity |]. rewrite !length_app. lia.
  - unfold wf. proj.
    assert (Z.of_nat (length (P ++ (A ++ V ++ S) ++ T))
            = Z.of_nat (length (bytes b1))).
    { rewrite Hbytes1, !length_app. lia. }
    repeat split; lia.
Qed.

(** ** Insertion with growth *)

Lemma resize_length (n : Z) (old fresh : list byte) :
  0 <= n -> Z.of_nat (length (resize n old fresh)) = n.
Proof.
  intros Hn. unfold resize.
  rewrite length_firstn, !length_app, repeat_length. lia.
Qed.

(** Reallocation keeps what lies inside both the old and the new block. *)
Lemma slice_resize (n off m : Z) (old fresh : list byte) :
  0 <= off -> 0 <= m ->
  off + m <= Z.of_nat (length old) -> off + m <= n ->
  slice off m (resize n old fresh) = slice off m old.
Proof.
  intros Hoff Hm Hold Hn.
  destruct (split_at old off ltac:(lia)) as (P & L & -> & HP & HL).
  destruct (split_at L m ltac:(lia)) as (X & T & -> & HX & HT).
  rewrite (slice_mid P X T off m HP HX).
  unfold resize.
  replace ((P ++ X ++ T) ++ fresh ++ repeat x00 (Z.to_nat n))
    with ((P ++ X) ++ T ++ fresh ++ repeat x00 (Z.to_nat n))
    by (now rewrite <- !app_assoc).
  rewrite firstn_app, firstn_all2 by (rewrite length_app; lia).
  rewrite <- app_assoc. now apply slice_mid.
Qed.

Lemma wf_same_buffer (el_size : Z) (w w' : world) :
  same_buffer w w' -> wf el_size w -> wf el_size w'.
Proof. intros [Hv Hh]. unfold wf. now rewrite Hv, Hh. Qed.

Lemma content_same_buffer (el_size : Z) (w w' : world) :
  same_buffer w w' -> content el_size w' = content el_size w.
Proof. intros [Hv Hh]. unfold content. now rewrite Hv, Hh. Qed.

Lemma realloc_granted (p n r : Z) (w w' : world) :
  realloc p n w = Ret (r, w') -> r <> NULL ->
  exists addr fresh,
    r = Z.pos addr /\ vec w' = vec w /\
    heap w'
    = Some (mkBlock (Z.pos addr)
              (resize n (if p =? NULL then []
                         else match heap w with
                              | Some b => bytes b
                              | None => []
                              end) fresh)).
Proof.
  unfold realloc. intros H Hr.
  destruct (p =? NULL).
  - destruct (allocator w) as [| [| addr fresh] rest];
      injection H as <- <-; try contradiction.
    now exists addr, fresh.
  - destruct (heap w) as [b |]; [| discriminate].
    destruct (p =? base b); [| discriminate].
    destruct (allocator w) as [| [| addr fresh] rest];
      injection H as <- <-; try contradiction.
    now exists addr, fresh.
Qed.

(** What a successful [_vec2_reserve] leaves: a valid buffer with the same
    content and room for [additional] more elements. *)
Lemma reserve_succeeds
  (el_size additional : Z) (w w1 : world) :
  wf el_size w -> is_size additional ->
  _vec2_reserve additional el_size w = Ret (TRUE, w1) ->
  wf el_size w1 /\
  content el_size w1 = content el_size w /\
  size (vec w1) = size (vec w) /\
  _start (vec w1) = _start (vec w) /\
  additional <= capacity (vec w1) - size (vec w1).
Proof.
  intros Hwf Hadd.
  pose proof (wf_capacity_range el_size w Hwf) as Hcr.
  pose proof Hwf as (Hel & Hsz & Hst & Hlive & Hheap).
  unfold is_size in Hadd.
  unfold _vec2_reserve. mrun.
  rewrite (size_sub_exact (capacity (vec w)) (size (vec w))) by lia.
  destruct (Z.ltb_spec (capacity (vec w) - size (vec w)) additional)
    as [Hneed | Hfits].
  2:{ is_false (additional >? capacity (vec w) - size (vec w)).
      intros H. apply ret_inv in H as [_ <-]. repeat split; auto; lia. }
  is_true (additional >? capacity (vec w) - size (vec w)).
  destruct (Z.ltb_spec (size_add (capacity (vec w)) additional)
              (capacity (vec w))) as [Hwrap | Hnowrap].
  { intros H. apply ret_inv in H as [H _]. discriminate. }
  assert (Hsum : capacity (vec w) + additional < SIZE_MOD).
  { destruct (Z.lt_ge_cases (capacity (vec w) + additional) SIZE_MOD)
      as [Hlt | Hge]; [exact Hlt |].
    pose proof (size_add_wraps (capacity (vec w)) additional
                  ltac:(unfold is_size; lia) ltac:(unfold is_size; lia) Hge).
    lia. }
  rewrite (size_add_exact (capacity (vec w)) additional) by lia.
  is_false (el_size =? 0).
  destruct (Z.eqb_spec
              (size_mul (capacity (vec w) + additional) el_size / el_size)
              (capacity (vec w) + additional)) as [Hdiv | Hdiv]; proj.
  2:{ intros H. apply ret_inv in H as [H _]. discriminate. }
  assert (Hprod : (capacity (vec w) + additional) * el_size < SIZE_MOD).
  { destruct (Z.lt_ge_cases ((capacity (vec w) + additional) * el_size)
                SIZE_MOD) as [Hlt | Hge]; [exact Hlt |].
    exfalso. revert Hdiv. apply size_mul_overflow_detected; lia. }
  rewrite size_mul_exact by lia.
  intros H. apply bind_inv in H as (new_mem & w2 & Hre & H).
  destruct (Z.eqb_spec new_mem NULL) as [-> | Hgranted].
  { apply ret_inv in H as [H _]. discriminate. }
  apply (realloc_granted _ _ _ _ _ Hre) in Hgranted
    as (addr & fresh & -> & Hv2 & Hh2).
  revert H. mrun. intros H. apply ret_inv in H as [_ <-]. proj.
  rewrite Hv2.
  set (n := (capacity (vec w) + additional) * el_size) in *.
  assert (Hstart : size_mul el_size (_start (vec w))
                   = _start (vec w) * el_size).
  { rewrite size_mul_exact by nia. lia. }
  rewrite Hstart.
  assert (Hlive_n : (_start (vec w) + size (vec w)) * el_size <= n)
    by (subst n; nia).
  destruct (heap w) as [b |] eqn:Hb.
  - destruct Hheap as (Hcap & Hbase & Hdata & Hblen & Hmax).
    pose proof (wf_products el_size w b (_start (vec w) + size (vec w))
                  Hwf Hb ltac:(lia)) as Hps.
    pose proof (wf_products el_size w b (_start (vec w)) Hwf Hb ltac:(lia))
      as Hpt.
    pose proof (wf_products el_size w b (size (vec w)) Hwf Hb ltac:(lia))
      as Hpz.
    assert (Hmem : vec2_mem (vec w) el_size = base b).
    { unfold vec2_mem. rewrite size_mul_exact by lia. lia. }
    rewrite Hmem in Hh2.
    unfold NULL in Hh2.
    replace (base b =? 0) with false in Hh2 by (symmetry; zbool).
    repeat split; proj; try lia.
    + unfold wf. proj. rewrite Hh2. proj.
      rewrite resize_length by lia. repeat split; lia.
    + unfold content. proj. rewrite Hh2, Hb. proj.
      replace (Z.pos addr + _start (vec w) * el_size - Z.pos addr)
        with (_start (vec w) * el_size) by lia.
      rewrite Hdata.
      replace (base b + _start (vec w) * el_size - base b)
        with (_start (vec w) * el_size) by lia.
      apply slice_resize; lia.
  - destruct Hheap as (Hcap0 & Hnull).
    assert (Hst0 : _start (vec w) = 0) by lia.
    assert (Hsz0 : size (vec w) = 0) by lia.
    repeat split; proj; try lia.
    + unfold wf. proj. rewrite Hh2. proj.
      rewrite resize_length by lia. repeat split; lia.
    + unfold content. proj. rewrite Hh2, Hb, Hsz0. reflexivity.
Qed.

Lemma shr1_range (a : Z) : 0 <= a -> 0 <= shr1 a <= a.
Proof.
  intros Ha. unfold shr1. rewrite Z.shiftr_div_pow2 by lia.
  change (2 ^ 1) with 2. Z.to_euclidean_division_equations; lia.
Qed.

Lemma to_uint_small (z : Z) : 0 <= z < UINT_MOD -> to_uint z = z.
Proof. intros H. unfold to_uint. now apply Z.mod_small. Qed.

Lemma to_uint_range (z : Z) : 0 <= to_uint z < UINT_MOD.
Proof.
  unfold to_uint, UINT_MOD. apply Z.mod_pos_bound. reflexivity.
Qed.

(** When the growth loop ends, it ends with an [unsigned int] that covers
    [len], as long as [len] is one too. *)
Lemma grow_addition_covers (fuel : nat) (len : Z) :
  0 <= len < UINT_MOD ->
  forall addition r,
    0 <= addition < UINT_MOD ->
    grow_addition fuel addition len = Some r ->
    len <= r < UINT_MOD.
Proof.
  intros Hlen. induction fuel as [| fuel IH]; intros addition r Ha;
    cbn [grow_addition].
  - destruct (Z.ltb_spec addition len) as [Hlt | Hge]; [discriminate |].
    intros Hr. injection Hr as <-. lia.
  - destruct (Z.ltb_spec addition len) as [Hlt | Hge].
    + destruct (_ <? addition).
      * intros Hr. injection Hr as <-. rewrite to_uint_small; lia.
      * apply IH. apply to_uint_range.
    + intros Hr. injection Hr as <-. lia.
Qed.

(** The retry loop, when it ends with a reservation that succeeded. *)
Lemma reserve_retry_succeeds (el_size len : Z) (fuel : nat) :
  0 < len < UINT_MOD ->
  forall (addition : Z) (w w1 : world),
    wf el_size w ->
    len <= addition < UINT_MOD ->
    reserve_retry fuel addition len el_size w = Ret (TRUE, w1) ->
    wf el_size w1 /\
    content el_size w1 = content el_size w /\
    size (vec w1) = size (vec w) /\
    _start (vec w1) = _start (vec w) /\
    len <= capacity (vec w1) - size (vec w1).
Proof.
  intros Hlen. induction fuel as [| fuel IH]; intros addition w w1 Hwf Ha;
    cbn [reserve_retry]; [discriminate |].
  intros H. apply bind_inv in H as (ok & w2 & Hres & H).
  destruct ok; cbn [negb] in H.
  - apply ret_inv in H as [_ <-].
    apply reserve_succeeds in Hres as (Hwf1 & Hc & Hs & Ht & Hroom);
      [| exact Hwf | unfold is_size, UINT_MOD, SIZE_MOD in *; lia].
    refine (conj Hwf1 (conj Hc (conj Hs (conj Ht _)))). lia.
  - apply reserve_fails_same in Hres.
    pose proof (wf_same_buffer el_size w w2 Hres Hwf) as Hwf2.
    pose proof (content_same_buffer el_size w w2 Hres) as Hc2.
    destruct Hres as [Hv2 _].
    pose proof (shr1_range addition ltac:(lia)) as Hshr.
    assert (Hnext : forall a, len <= a < UINT_MOD ->
              reserve_retry fuel a len el_size w2 = Ret (TRUE, w1) ->
              wf el_size w1 /\
              content el_size w1 = content el_size w /\
              size (vec w1) = size (vec w) /\
              _start (vec w1) = _start (vec w) /\
              len <= capacity (vec w1) - size (vec w1)).
    { intros a Hrange Hrun.
      apply (IH a w2 w1 Hwf2 Hrange) in Hrun as (Hwf1 & Hc & Hs & Ht & Hr).
      rewrite <- Hc2, <- Hv2. exact (conj Hwf1 (conj Hc (conj Hs (conj Ht Hr)))). }
    destruct ((addition >? len) && (shr1 addition <? len)).
    + apply (Hnext (to_uint len)); [rewrite to_uint_small; lia | exact H].
    + destruct (Z.ltb_spec (shr1 addition) len).
      * apply ret_inv in H as [H _]. discriminate.
      * apply (Hnext (shr1 addition)); [lia | exact H].
Qed.

(** A hole that needed a reservation is the hole made in the world the
    reservation left. *)
Lemma create_hole_after_reservation
  (fuel : nat) (w w' : world) (idx len el_size : Z) :
  wf el_size w ->
  0 < len < UINT_MOD ->
  capacity (vec w) < size (vec w) + len ->
  _vec2_create_hole fuel idx len el_size w = Ret (TRUE, w') ->
  exists w1,
    wf el_size w1 /\
    content el_size w1 = content el_size w /\
    size (vec w1) = size (vec w) /\
    _start (vec w1) = _start (vec w) /\
    size (vec w1) + len <= capacity (vec w1) /\
    _vec2_create_hole fuel idx len el_size w1 = Ret (TRUE, w').
Proof.
  intros Hwf Hlen Hneed.
  pose proof (wf_capacity_range el_size w Hwf) as Hcr.
  pose proof Hwf as (Hel & Hsz & Hst & Hlive & Hheap).
  unfold _vec2_create_hole at 1. mrun.
  destruct ((len <=? 0) || (idx >? size (vec w))
            || (size_add (size (vec w)) len <? size (vec w))) eqn:Hguard.
  { intros H. apply ret_inv in H as [H _]. discriminate. }
  assert (Hsum : size (vec w) + len < SIZE_MOD).
  { destruct (Z.lt_ge_cases (size (vec w) + len) SIZE_MOD) as [Hlt | Hge];
      [exact Hlt |].
    pose proof (size_add_wraps (size (vec w)) len
                  ltac:(unfold is_size; lia)
                  ltac:(unfold is_size, UINT_MOD, SIZE_MOD in *; lia) Hge)
      as Hwrap.
    apply orb_false_iff in Hguard as [_ Hguard].
    apply Z.ltb_ge in Hguard. lia. }
  rewrite (size_add_exact (size (vec w)) len) in * by lia.
  is_true (size (vec w) + len >? capacity (vec w)).
  intros H. apply bind_inv in H as (reserved & w1 & Hres & H).
  destruct reserved; cbn [negb] in H;
    [| apply ret_inv in H as [H _]; discriminate].
  destruct (grow_addition fuel _ len) as [addition |] eqn:Hgrow;
    [| discriminate].
  apply grow_addition_covers in Hgrow; [| lia | apply to_uint_range].
  apply (reserve_retry_succeeds el_size len fuel Hlen addition w w1 Hwf Hgrow)
    in Hres as (Hwf1 & Hc1 & Hs1 & Ht1 & Hroom1).
  exists w1. refine (conj Hwf1 (conj Hc1 (conj Hs1 (conj Ht1 _)))).
  split; [lia |].
  unfold _vec2_create_hole. mrun. rewrite Hs1.
  rewrite (size_add_exact (size (vec w)) len) by lia.
  rewrite Hguard.
  is_false (size (vec w) + len >? capacity (vec w1)).
  mrun. exact H.
Qed.

(** Insertion at the end of the buffer, or with at least [len] slots of
    front slack, is right with and without growth: whenever the call
    returns [TRUE], the content is the old one with the new elements at
    [idx]. *)
Theorem insert_at_end_or_behind_slack
  (fuel : nat) (w w' : world) (idx len el_size : Z) (val : list byte) :
  wf el_size w ->
  0 <= idx <= size (vec w) ->
  0 < len < UINT_MOD ->
  (size (vec w) = 0 -> _start (vec w) = 0) ->
  idx = size (vec w) \/ len <= _start (vec w) ->
  len * el_size <= Z.of_nat (length val) ->
  _vec2_impl_insert fuel idx (Some val) len el_size w = Ret (TRUE, w') ->
  content el_size w'
  = firstn (Z.to_nat (idx * el_size)) (content el_size w)
    ++ firstn (Z.to_nat (len * el_size)) val
    ++ skipn (Z.to_nat (idx * el_size)) (content el_size w) /\
  size (vec w') = size (vec w) + len /\
  wf el_size w'.
Proof.
  intros Hwf Hidx Hlen Hempty Hpath Hval Hrun.
  assert (Hfits : forall u,
             wf el_size u ->
             content el_size u = content el_size w ->
             size (vec u) = size (vec w) ->
             _start (vec u) = _start (vec w) ->
             size (vec u) + len <= capacity (vec u) ->
             _vec2_impl_insert fuel idx (Some val) len el_size u
             = Ret (TRUE, w') ->
             content el_size w'
             = firstn (Z.to_nat (idx * el_size)) (content el_size w)
               ++ firstn (Z.to_nat (len * el_size)) val
               ++ skipn (Z.to_nat (idx * el_size)) (content el_size w) /\
             size (vec w') = size (vec w) + len /\
             wf el_size w').
  { intros u Hwfu Hcu Hsu Htu Hroom Hu.
    destruct (insert_without_forward_shift fuel u idx len el_size val Hwfu)
      as (w'' & Hrun'' & Hc'' & Hs'' & _ & Hwf''); try lia.
    rewrite Hu in Hrun''. injection Hrun'' as <-.
    rewrite Hc'', Hcu, Hs'', Hsu. auto. }
  destruct (Z.le_gt_cases (size (vec w) + len) (capacity (vec w)))
    as [Hroom | Hneed].
  { now apply (Hfits w). }
  pose proof (wf_valid el_size w Hwf) as Hvalid.
  pose proof Hwf as (Hel & _).
  revert Hrun. unfold _vec2_impl_insert. mrun. rewrite Hvalid.
  is_false (el_size =? 0). is_true (len >? 0). mrun.
  intros H. apply bind_inv in H as (ok & w2 & Hhole & H).
  destruct ok; cbn [negb] in H;
    [| apply ret_inv in H as [H _]; discriminate].
  apply create_hole_after_reservation in Hhole
    as (w1 & Hwf1 & Hc1 & Hs1 & Ht1 & Hroom1 & Hhole1); try lia; auto.
  apply (Hfits w1 Hwf1 Hc1 Hs1 Ht1 Hroom1).
  unfold _vec2_impl_insert. mrun. rewrite (wf_valid el_size w1 Hwf1).
  is_false (el_size =? 0). is_true (len >? 0). mrun.
  erewrite bind_Ret by exact Hhole1. exact H.
Qed.

(** ** Insertion in the interior *)

(** C1. One element inserted at index 1 of [1,2,3,4,5] (capacity 8, no
    front slack): the call returns [TRUE], and the content is
    [1,9,2,4,5,0], not [1,9,2,3,4,5].  The second [memmove] of
    [_vec2_create_hole] moves [len - shift_back] elements of the suffix,
    not the [size - idx] it has: element 3 is overwritten and the last
    slot keeps what the block held. *)
Theorem insert_interior_loses_element :
  exists w',
    _vec2_impl_insert 8 1 (Some [x09]) 1 1 world_12345 = Ret (TRUE, w') /\
    content 1 world_12345 = [x01; x02; x03; x04; x05] /\
    content 1 w' = [x01; x09; x02; x04; x05; x00] /\
    content 1 w' <> firstn 1 (content 1 world_12345) ++ [x09]
                    ++ skipn 1 (content 1 world_12345).
Proof.
  eexists. split; [vm_compute; reflexivity |].
  split; [reflexivity |]. split; [reflexivity |].
  vm_compute. discriminate.
Qed.

(** C8. The same insertion followed by the removal of one element at
    index 1: both calls return [TRUE] and [out] receives the inserted
    element, but the content is [1,2,4,5,0], not the original
    [1,2,3,4,5]. *)
Theorem insert_then_remove_not_identity :
  exists w1 w2,
    _vec2_impl_insert 8 1 (Some [x09]) 1 1 world_12345 = Ret (TRUE, w1) /\
    _vec2_impl_remove 1 1 1 (Some [x00]) w1
    = Ret ((TRUE, Some [x09]), w2) /\
    content 1 w2 = [x01; x02; x04; x05; x00] /\
    content 1 w2 <> content 1 world_12345.
Proof.
  do 2 eexists. split; [vm_compute; reflexivity |].
  split; [vm_compute; reflexivity |].
  split; [reflexivity |]. vm_compute. discriminate.
Qed.

(** ** Shrinking *)

Lemma realloc_vec (p n r : Z) (w w' : world) :
  realloc p n w = Ret (r, w') -> vec w' = vec w.
Proof.
  unfold realloc.
  assert (Hanswer : forall old,
    match allocator w with
    | AllocAt addr fresh :: rest =>
        Ret (Z.pos addr,
             mkWorld (vec w)
               (Some (mkBlock (Z.pos addr) (resize n old fresh))) rest)
    | AllocFail :: rest => Ret (NULL, with_allocator rest w)
    | [] => Ret (NULL, w)
    end = Ret (r, w') -> vec w' = vec w).
  { intros old. destruct (allocator w) as [| [| addr fresh] rest].
    - intros H. now injection H as _ <-.
    - intros H. now injection H as _ <-.
    - intros H. now injection H as _ <-. }
  destruct (p =? NULL); [apply Hanswer |].
  destruct (heap w) as [b |]; [| discriminate].
  destruct (p =? base b); [apply Hanswer | discriminate].
Qed.

Lemma memmove_vec (dst src n : Z) (w w' : world) :
  memmove dst src n w = Ret (tt, w') -> vec w' = vec w.
Proof.
  unfold memmove. intros H. apply bind_inv in H as (bs & w1 & Hl & Hs).
  unfold load in Hl. unfold store in Hs.
  destruct (heap w) as [b |]; [| discriminate].
  destruct (in_block b src n); [| discriminate].
  injection Hl as _ <-.
  destruct (heap w) as [b' |]; [| discriminate].
  destruct (in_block b' dst _); [| discriminate].
  now injection Hs as <-.
Qed.

(** What a successful shrink-to-fit of a buffer with spare capacity above
    the minimum records: the size. *)
Lemma shrink_success_capacity (el_size : Z) (w w' : world) :
  0 < size (vec w) < capacity (vec w) ->
  VEC2_INITIAL_CAPACITY < capacity (vec w) ->
  _vec2_impl_shrink el_size w = Ret (TRUE, w') ->
  capacity (vec w') = size (vec w).
Proof.
  intros Hsz Hcap. unfold _vec2_impl_shrink. mrun.
  destruct (_ || _);
    [intros H; apply ret_inv in H as [H _]; discriminate |].
  is_false (size (vec w) =? 0).
  is_true ((size (vec w) <? capacity (vec w))
           && (capacity (vec w) >? VEC2_INITIAL_CAPACITY)).
  intros H. apply bind_inv in H as ([] & w1 & Hmove & H).
  assert (Hsize1 : size (vec w1) = size (vec w)).
  { destruct (_start (vec w) >? 0).
    - apply bind_inv in Hmove as ([] & w0 & Hmm & Hupd).
      apply memmove_vec in Hmm. unfold upd_vec in Hupd.
      injection Hupd as <-. proj. now rewrite Hmm.
    - now apply ret_inv in Hmove as [_ <-]. }
  revert H. mrun. intros H.
  apply bind_inv in H as (new_mem & w2 & Hre & H).
  apply realloc_vec in Hre.
  destruct (new_mem =? NULL);
    [apply ret_inv in H as [H _]; discriminate |].
  revert H. mrun. intros H. apply ret_inv in H as [_ <-]. proj.
  congruence.
Qed.


(** C3. Shrink-to-fit of a buffer with [size = 2] and [capacity = 64]:
    the call returns [TRUE], the content is unchanged and the block is
    reallocated to [VEC2_INITIAL_CAPACITY = 8] elements, but the capacity
    recorded is [size = 2], not [max(size, VEC2_INITIAL_CAPACITY) = 8]. *)
Theorem shrink_records_size_as_capacity :
  exists w' b',
    _vec2_impl_shrink 1 world_2_of_64 = Ret (TRUE, w') /\
    heap w' = Some b' /\
    Z.of_nat (length (bytes b')) = VEC2_INITIAL_CAPACITY /\
    content 1 w' = content 1 world_2_of_64 /\
    capacity (vec w') = 2 /\
    capacity (vec w')
    <> Z.max (size (vec world_2_of_64)) VEC2_INITIAL_CAPACITY.
Proof.
  do 2 eexists. split; [vm_compute; reflexivity |].
  split; [reflexivity |]. split; [reflexivity |].
  split; [reflexivity |]. split; [reflexivity |].
  vm_compute. discriminate.
Qed.

(** ** The two loops of [_vec2_create_hole] *)

(** The growth loop stays where it is when [addition] is a fixed point
    of its step that is below [len]. *)
Lemma grow_addition_stuck (fuel : nat) (addition len : Z) :
  uint_add (uint_shl1 addition) (shr1 addition) = addition ->
  to_uint addition = addition ->
  addition < len ->
  grow_addition fuel addition len = None.
Proof.
  intros Hstep Huint Hlt. induction fuel as [| fuel IH]; cbn [grow_addition].
  - now is_true (addition <? len).
  - is_true (addition <? len). rewrite Hstep, Z.ltb_irrefl, Huint. exact IH.
Qed.

(** It never ends when it starts from [addition == 0], which is what
    [capacity >> 1] is for a capacity of 1. *)
Lemma grow_addition_zero_diverges (fuel : nat) (len : Z) :
  0 < len -> grow_addition fuel 0 len = None.
Proof. intros Hlen. now apply grow_addition_stuck. Qed.

Lemma create_hole_capacity_one_diverges
  (fuel : nat) (w : world) (el_size : Z) :
  size (vec w) = 1 -> capacity (vec w) = 1 ->
  _vec2_create_hole fuel 1 1 el_size w = Diverge.
Proof.
  intros Hsz Hcap. unfold _vec2_create_hole. mrun. rewrite Hsz, Hcap.
  cbn. now rewrite (grow_addition_zero_diverges fuel 1).
Qed.

Lemma realloc_returns (p n : Z) (w : world) : realloc p n w <> Diverge.
Proof.
  unfold realloc.
  destruct (p =? NULL).
  - destruct (allocator w) as [| [| addr fresh] rest]; discriminate.
  - destruct (heap w) as [b |]; [| discriminate].
    destruct (p =? base b); [| discriminate].
    destruct (allocator w) as [| [| addr fresh] rest]; discriminate.
Qed.

Lemma reserve_returns (additional el_size : Z) (w : world) :
  _vec2_reserve additional el_size w <> Diverge.
Proof.
  unfold _vec2_reserve. mrun.
  destruct (additional >? _); [| discriminate].
  destruct (_ <? capacity (vec w)); [discriminate |].
  destruct (el_size =? 0); [discriminate |].
  destruct (negb _); [discriminate |].
  unfold bind.
  destruct (realloc _ _ w) as [[new_mem w1] | |] eqn:Hre;
    [| discriminate | now apply realloc_returns in Hre].
  destruct (new_mem =? NULL); discriminate.
Qed.

(** The retry loop ends: it halves [addition] until it falls below [len],
    so [k + 2] rounds are enough for an [addition] below [2^k]. *)
Lemma reserve_retry_returns (len el_size : Z) :
  0 < len ->
  forall (k : nat) (addition : Z) (w : world),
    0 <= addition < 2 ^ Z.of_nat k -> addition < UINT_MOD ->
    reserve_retry (S (S k)) addition len el_size w <> Diverge.
Proof.
  intros Hlen.
  assert (Hlast : forall fuel w,
            reserve_retry (S fuel) len len el_size w <> Diverge).
  { intros fuel w. cbn [reserve_retry]. unfold bind.
    destruct (_vec2_reserve len el_size w) as [[ok w1] | |] eqn:Hres;
      [| discriminate | now apply reserve_returns in Hres].
    destruct ok; [discriminate |].
    pose proof (shr1_range len ltac:(lia)) as Hshr.
    assert (Hhalf : shr1 len < len).
    { unfold shr1 in *. rewrite Z.shiftr_div_pow2 in * by lia.
      change (2 ^ 1) with 2 in *. Z.to_euclidean_division_equations; lia. }
    is_false (len >? len). cbn [andb].
    is_true (shr1 len <? len). discriminate. }
  induction k as [| k IH]; intros addition w Ha Huint.
  - (* addition = 0 *)
    change (2 ^ Z.of_nat 0) with 1 in Ha.
    assert (addition = 0) by lia. subst addition.
    cbn [reserve_retry]. unfold bind.
    destruct (_vec2_reserve 0 el_size w) as [[ok w1] | |] eqn:Hres;
      [| discriminate | now apply reserve_returns in Hres].
    destruct ok; [discriminate |].
    is_false (0 >? len). cbn [andb]. change (shr1 0) with 0.
    is_true (0 <? len). discriminate.
  - remember (S (S k)) as fuel eqn:Hfuel.
    cbn [reserve_retry]. unfold bind.
    destruct (_vec2_reserve addition el_size w) as [[ok w1] | |] eqn:Hres;
      [| discriminate | now apply reserve_returns in Hres].
    destruct ok; [discriminate |].
    pose proof (shr1_range addition ltac:(lia)) as Hshr.
    destruct ((addition >? len) && (shr1 addition <? len)) eqn:Hcut.
    + apply andb_true_iff in Hcut as [Hgt _].
      rewrite Z.gtb_ltb in Hgt. apply Z.ltb_lt in Hgt.
      subst fuel.
      rewrite to_uint_small by lia. apply Hlast.
    + destruct (shr1 addition <? len); [discriminate |].
      subst fuel. apply IH; [| lia].
      unfold shr1 in *. rewrite Z.shiftr_div_pow2 in * by lia.
      change (2 ^ 1) with 2 in *.
      rewrite Nat2Z.inj_succ, Z.pow_succ_r in Ha by lia.
      Z.to_euclidean_division_equations; lia.
Qed.

(** Thirty-four rounds are enough for any [unsigned int]. *)
Lemma reserve_retry_bounded (addition len el_size : Z) (w : world) :
  0 < len -> 0 <= addition < UINT_MOD ->
  reserve_retry 34 addition len el_size w <> Diverge.
Proof.
  intros Hlen Ha.
  apply (reserve_retry_returns len el_size Hlen 32 addition w); [| lia].
  change (2 ^ Z.of_nat 32) with UINT_MOD. exact Ha.
Qed.

(** ** The invariants along a sequence of calls *)

(** C4. Six calls from the initial buffer, each of which returns: nine
    elements inserted, seven removed at the back, shrink-to-fit, the two
    remaining elements removed at the front one by one, two elements
    inserted.  The first removal at the front advances [_start] to 1, the
    second empties the buffer and leaves [_start] as it is, and the
    insertion into the empty buffer does no placement: the buffer ends
    with [_start = 1], [size = 2], [capacity = 2], so [start + size <=
    capacity] is broken. *)
Theorem refill_breaks_live_range :
  exists w5 w6,
    run_ops 8 1 (firstn 5 refill_calls)
      (initial_world [AllocAt 1000%positive []; AllocAt 2000%positive []])
    = Ret (tt, w5) /\
    invariants (vec w5) /\
    run_op 8 1 (Insert 0 (Some [x01; x02]) 2) w5 = Ret (TRUE, w6) /\
    run_ops 8 1 refill_calls
      (initial_world [AllocAt 1000%positive []; AllocAt 2000%positive []])
    = Ret (tt, w6) /\
    vec w6 = mkVec2 2 2 0 1 2001 /\
    ~ invariants (vec w6).
Proof.
  do 2 eexists. split; [vm_compute; reflexivity |].
  split.
  { unfold invariants. cbn. split; [lia |].
    split; [split; discriminate | lia]. }
  split; [vm_compute; reflexivity |].
  split; [vm_compute; reflexivity |].
  split; [reflexivity |].
  unfold invariants. cbn. lia.
Qed.

(** Without shrink-to-fit the block has exactly [capacity] elements, and
    the same refill writes past its end: three calls leave [_start = 1] in
    an empty buffer of capacity 8, and the insertion of eight elements
    copies them to offsets 1 to 8 of a block of eight. *)
Lemma refill_writes_past_block :
  exists w3,
    run_ops 8 1 (firstn 3 refill_full_calls)
      (initial_world [AllocAt 1000%positive []])
    = Ret (tt, w3) /\
    vec w3 = mkVec2 0 8 0 1 1001 /\
    wf 1 w3 /\
    run_op 8 1 (Insert 0 (Some (repeat x01 8)) 8) w3 = Undef.
Proof.
  eexists. split; [vm_compute; reflexivity |].
  split; [reflexivity |].
  split; [unfold wf, SIZE_MOD; cbn; lia |].
  vm_compute. reflexivity.
Qed.

(** * Further properties *)

(** ** What a shorter or advanced live range holds *)

Lemma content_split (el_size : Z) (w : world) (b : block) :
  wf el_size w -> heap w = Some b ->
  exists P T,
    bytes b = P ++ content el_size w ++ T /\
    Z.of_nat (length P) = _start (vec w) * el_size /\
    Z.of_nat (length (content el_size w)) = size (vec w) * el_size.
Proof.
  intros Hwf Hb.
  pose proof Hwf as (Hel & Hsz & Hst & Hlive & Hheap).
  rewrite Hb in Hheap. destruct Hheap as (Hcap & Hbase & Hdata & Hblen & Hmax).
  pose proof (wf_products el_size w b (size (vec w)) Hwf Hb ltac:(lia)) as Hpz.
  pose proof (wf_products el_size w b (_start (vec w)) Hwf Hb ltac:(lia))
    as Hpt.
  pose proof (wf_products el_size w b (_start (vec w) + size (vec w))
                Hwf Hb ltac:(lia)) as Hps.
  destruct (split_at (bytes b) (_start (vec w) * el_size) ltac:(lia))
    as (P & L & Hbytes & HP & HL).
  destruct (split_at L (size (vec w) * el_size) ltac:(lia))
    as (X & T & -> & HX & HT).
  assert (Hcontent : content el_size w = X).
  { unfold content. rewrite Hb, Hbytes, Hdata.
    replace (base b + _start (vec w) * el_size - base b)
      with (_start (vec w) * el_size) by lia.
    now apply slice_mid. }
  exists P, T. rewrite Hcontent. auto.
Qed.

(** Bytes [off .. off+n) of the live range, read through [data]. *)
Lemma slice_of_content (el_size off n : Z) (w : world) (b : block) :
  wf el_size w -> heap w = Some b ->
  0 <= off -> 0 <= n -> off + n <= size (vec w) * el_size ->
  slice (data (vec w) + off - base b) n (bytes b)
  = slice off n (content el_size w).
Proof.
  intros Hwf Hb Hoff Hn Hfit.
  destruct (content_split el_size w b Hwf Hb) as (P & T & Hbytes & HP & HX).
  pose proof Hwf as (_ & _ & _ & _ & Hheap).
  rewrite Hb in Hheap. destruct Hheap as (_ & _ & Hdata & _).
  rewrite Hbytes, Hdata.
  destruct (split_at (content el_size w) off ltac:(lia))
    as (A & L & HAL & HA & HL).
  destruct (split_at L n ltac:(lia)) as (R & S & -> & HR & HS).
  rewrite HAL.
  rewrite (slice_mid A R S off n HA HR).
  replace (P ++ (A ++ R ++ S) ++ T) with ((P ++ A) ++ R ++ S ++ T)
    by (now rewrite <- !app_assoc).
  apply slice_mid; [rewrite length_app; lia | exact HR].
Qed.

Lemma slice_all_prefix (n : Z) (l : list byte) :
  slice 0 n l = firstn (Z.to_nat n) l.
Proof. reflexivity. Qed.

Lemma slice_to_end (off n : Z) (l : list byte) :
  0 <= off -> off + n = Z.of_nat (length l) ->
  slice off n l = skipn (Z.to_nat off) l.
Proof.
  intros Hoff Hn. unfold slice.
  apply firstn_all2. rewrite length_skipn. lia.
Qed.

(** ** Removal at either end *)

(** A run that ends at the last live element, the whole buffer included:
    only [size] changes. *)
Lemma remove_at_end_run
  (w : world) (idx len el_size : Z) (out : option (list byte)) :
  wf el_size w ->
  0 < len <= size (vec w) ->
  idx + len = size (vec w) ->
  (forall o, out = Some o -> len * el_size <= Z.of_nat (length o)) ->
  _vec2_impl_remove idx len el_size out w
  = Ret ((TRUE, removed_to el_size idx len (content el_size w) out),
         with_vec (set_size idx (vec w)) w).
Proof.
  intros Hwf Hlen Hidx Hout.
  pose proof (wf_valid el_size w Hwf) as Hvalid.
  pose proof (wf_capacity_range el_size w Hwf) as Hcr.
  pose proof Hwf as (Hel & Hsz & Hst & Hlive & Hheap).
  destruct (heap w) as [b |] eqn:Hb; [| lia].
  destruct Hheap as (Hcap & Hbase & Hdata & Hblen & Hmax).
  pose proof (wf_products el_size w b idx Hwf Hb ltac:(lia)) as Hpi.
  pose proof (wf_products el_size w b len Hwf Hb ltac:(lia)) as Hpl.
  pose proof (wf_products el_size w b (size (vec w)) Hwf Hb ltac:(lia))
    as Hpz.
  pose proof (wf_products el_size w b (_start (vec w) + size (vec w))
                Hwf Hb ltac:(lia)) as Hps.
  unfold _vec2_impl_remove, _vec2_remove. mrun. rewrite Hvalid.
  is_false (el_size =? 0). mrun.
  is_false (len >? size (vec w)).
  rewrite (size_sub_exact (size (vec w)) len) by lia.
  is_false (size (vec w) - len <? idx). is_false (len =? 0). mrun.
  replace (size (vec w) - len) with idx by lia.
  destruct out as [o |]; mrun.
  - unfold VEC2_GET. rewrite !size_mul_exact by lia.
    erewrite bind_Ret;
      [| apply (memcpy_out_ok w b);
         [exact Hb | apply in_block_iff; lia | now apply Hout]].
    mrun. replace (size (vec w) - len) with idx by lia.
    rewrite (size_sub_exact (size (vec w)) len) by lia.
    replace (size (vec w) - len) with idx by lia.
    rewrite Z.ltb_irrefl.
    rewrite (slice_of_content el_size (idx * el_size) (len * el_size) w b)
      by (auto; lia).
    unfold removed_to. cbn [option_map].
    now destruct (idx =? 0).
  - rewrite (size_sub_exact (size (vec w)) len) by lia.
    replace (size (vec w) - len) with idx by lia.
    rewrite Z.ltb_irrefl. now destruct (idx =? 0).
Qed.

Lemma remove_at_front_run
  (w : world) (len el_size : Z) (out : option (list byte)) :
  wf el_size w ->
  0 < len <= size (vec w) ->
  (forall o, out = Some o -> len * el_size <= Z.of_nat (length o)) ->
  _vec2_impl_remove 0 len el_size out w
  = Ret ((TRUE, removed_to el_size 0 len (content el_size w) out),
         with_vec (front_advanced el_size len (vec w)) w).
Proof.
  intros Hwf Hlen Hout.
  pose proof (wf_valid el_size w Hwf) as Hvalid.
  pose proof (wf_capacity_range el_size w Hwf) as Hcr.
  pose proof Hwf as (Hel & Hsz & Hst & Hlive & Hheap).
  destruct (heap w) as [b |] eqn:Hb; [| lia].
  destruct Hheap as (Hcap & Hbase & Hdata & Hblen & Hmax).
  pose proof (wf_products el_size w b len Hwf Hb ltac:(lia)) as Hpl.
  pose proof (wf_products el_size w b (size (vec w)) Hwf Hb ltac:(lia))
    as Hpz.
  pose proof (wf_products el_size w b (_start (vec w) + size (vec w))
                Hwf Hb ltac:(lia)) as Hps.
  pose proof (wf_products el_size w b (_start (vec w) + len) Hwf Hb
                ltac:(lia)) as Hptl.
  assert (Hcopy :
            (match out with
             | Some o =>
                 o' <- memcpy_out o (VEC2_GET (vec w) el_size 0)
                         (size_mul len el_size) ;;
                 ret (Some o')
             | None => ret None
             end) w
            = Ret (removed_to el_size 0 len (content el_size w) out, w)).
  { destruct out as [o |]; [| reflexivity].
    unfold VEC2_GET. rewrite !size_mul_exact by lia.
    erewrite bind_Ret;
      [| apply (memcpy_out_ok w b);
         [exact Hb | apply in_block_iff; lia | now apply Hout]].
    rewrite (slice_of_content el_size (0 * el_size) (len * el_size) w b)
      by (auto; nia).
    reflexivity. }
  unfold _vec2_impl_remove, _vec2_remove. mrun. rewrite Hvalid.
  is_false (el_size =? 0). mrun.
  is_false (len >? size (vec w)).
  rewrite (size_sub_exact (size (vec w)) len) by lia.
  is_false (size (vec w) - len <? 0). is_false (len =? 0). mrun.
  rewrite (bind_Ret _ _ w w _ Hcopy). mrun.
  rewrite (size_sub_exact (size (vec w)) len) by lia.
  unfold front_advanced.
  destruct (Z.ltb_spec len (size (vec w))) as [Hsome | Hall].
  - is_false (size (vec w) - len =? 0). change (0 =? 0) with true. mrun.
    rewrite size_mul_exact, size_add_exact by lia. reflexivity.
  - is_true (size (vec w) - len =? 0). mrun.
    now replace (size (vec w) - len) with 0 by lia.
Qed.

Lemma remove_rejects
  (w : world) (idx len el_size : Z) (out : option (list byte)) :
  wf el_size w ->
  len > size (vec w) \/
  (0 <= len <= size (vec w) /\ idx > size (vec w) - len) ->
  _vec2_impl_remove idx len el_size out w = Ret ((FALSE, out), w).
Proof.
  intros Hwf Hbad.
  pose proof (wf_valid el_size w Hwf) as Hvalid.
  pose proof (wf_capacity_range el_size w Hwf) as Hcr.
  pose proof Hwf as (Hel & Hsz & Hst & Hlive & _).
  unfold _vec2_impl_remove, _vec2_remove. mrun. rewrite Hvalid.
  is_false (el_size =? 0). mrun.
  destruct Hbad as [Hbig | [Hfit Hpast]].
  - now is_true (len >? size (vec w)).
  - rewrite (size_sub_exact (size (vec w)) len) by lia.
    is_true (size (vec w) - len <? idx). now rewrite orb_true_r.
Qed.

Lemma remove_nothing
  (w : world) (idx el_size : Z) (out : option (list byte)) :
  wf el_size w -> idx <= size (vec w) ->
  _vec2_impl_remove idx 0 el_size out w = Ret ((TRUE, out), w).
Proof.
  intros Hwf Hidx.
  pose proof (wf_valid el_size w Hwf) as Hvalid.
  pose proof (wf_capacity_range el_size w Hwf) as Hcr.
  pose proof Hwf as (Hel & Hsz & Hst & Hlive & _).
  unfold _vec2_impl_remove, _vec2_remove. mrun. rewrite Hvalid.
  is_false (el_size =? 0). mrun.
  is_false (0 >? size (vec w)).
  rewrite (size_sub_exact (size (vec w)) 0) by lia.
  now is_false (size (vec w) - 0 <? idx).
Qed.

Lemma content_truncated (el_size n : Z) (w : world) :
  wf el_size w -> 0 <= n <= size (vec w) ->
  content el_size (with_vec (set_size n (vec w)) w)
  = firstn (Z.to_nat (n * el_size)) (content el_size w).
Proof.
  intros Hwf Hn. unfold content at 1. proj.
  pose proof Hwf as (Hel & _).
  destruct (heap w) as [b |] eqn:Hb.
  - replace (data (vec w) - base b) with (data (vec w) + 0 - base b) by lia.
    rewrite (slice_of_content el_size 0 (n * el_size) w b) by (auto; nia).
    reflexivity.
  - unfold content. rewrite Hb. now rewrite firstn_nil.
Qed.

Lemma content_advanced (el_size len : Z) (w : world) :
  wf el_size w -> 0 < len <= size (vec w) ->
  content el_size (with_vec (front_advanced el_size len (vec w)) w)
  = skipn (Z.to_nat (len * el_size)) (content el_size w).
Proof.
  intros Hwf Hlen.
  pose proof (content_length el_size w Hwf) as HX.
  pose proof Hwf as (Hel & _).
  unfold front_advanced.
  destruct (Z.ltb_spec len (size (vec w))) as [Hsome | Hall].
  - unfold content at 1. proj.
    destruct (heap w) as [b |] eqn:Hb.
    + rewrite (slice_of_content el_size (len * el_size)
                 ((size (vec w) - len) * el_size) w b) by (auto; nia).
      apply slice_to_end; nia.
    + unfold content. rewrite Hb. now rewrite skipn_nil.
  - rewrite (content_truncated el_size 0 w Hwf) by lia.
    rewrite skipn_all2 by nia. reflexivity.
Qed.

Lemma wf_truncated (el_size n : Z) (w : world) :
  wf el_size w -> 0 <= n <= size (vec w) ->
  wf el_size (with_vec (set_size n (vec w)) w).
Proof.
  unfold wf. proj. intros (Hel & Hsz & Hst & Hlive & Hheap) Hn.
  repeat split; try lia. exact Hheap.
Qed.

Lemma wf_advanced (el_size len : Z) (w : world) :
  wf el_size w -> 0 < len <= size (vec w) ->
  wf el_size (with_vec (front_advanced el_size len (vec w)) w).
Proof.
  intros Hwf Hlen. unfold front_advanced.
  destruct (Z.ltb_spec len (size (vec w))) as [Hsome | Hall].
  - destruct Hwf as (Hel & Hsz & Hst & Hlive & Hheap).
    unfold wf. proj. repeat split; try lia.
    destruct (heap w) as [b |]; [| lia].
    destruct Hheap as (Hcap & Hbase & Hdata & Hblen & Hmax).
    repeat split; lia.
  - apply wf_truncated; [exact Hwf | lia].
Qed.

(** X1. [vec2_pop_multi(len, out)] on a valid buffer returns.  It returns
    [FALSE] exactly when [len > size], although the index it passes,
    [size - len], has wrapped around then; the buffer and [out] are
    untouched in that case and when [len == 0].  Otherwise it returns
    [TRUE], only [size] changes (no byte of the block moves, the whole
    buffer may go), the first [size - len] elements stay and a non-null
    [out] starts with the last [len]. *)
Theorem pop_multi_takes_the_back
  (w : world) (len el_size : Z) (out : option (list byte)) :
  wf el_size w ->
  is_size len ->
  (forall o, out = Some o -> len * el_size <= Z.of_nat (length o)) ->
  exists ok out' w',
    vec2_pop_multi len el_size out w = Ret ((ok, out'), w') /\
    (ok = FALSE <-> len > size (vec w)) /\
    (ok = FALSE \/ len = 0 -> w' = w /\ out' = out) /\
    (ok = TRUE -> 0 < len ->
     w' = with_vec (set_size (size (vec w) - len) (vec w)) w /\
     content el_size w'
     = firstn (Z.to_nat ((size (vec w) - len) * el_size))
         (content el_size w) /\
     out' = option_map
              (fun o => skipn (Z.to_nat ((size (vec w) - len) * el_size))
                          (content el_size w)
                        ++ skipn (Z.to_nat (len * el_size)) o) out).
Proof.
  intros Hwf Hlen Hout. unfold is_size in Hlen.
  pose proof (wf_capacity_range el_size w Hwf) as Hcr.
  pose proof (content_length el_size w Hwf) as HX.
  pose proof Hwf as (Hel & Hsz & Hst & Hlive & _).
  unfold vec2_pop_multi, vec2_remove. mrun.
  destruct (Z.ltb_spec (size (vec w)) len) as [Hbig | Hfit].
  - rewrite remove_rejects by (auto; lia).
    exists FALSE, out, w.
    repeat split; try reflexivity; try tauto; try discriminate; try lia.
  - rewrite (size_sub_exact (size (vec w)) len) by lia.
    destruct (Z.eqb_spec len 0) as [-> | Hnz].
    + rewrite remove_nothing by (auto; lia).
      exists TRUE, out, w.
      repeat split; try reflexivity; try tauto; try discriminate; try lia.
    + rewrite remove_at_end_run by (auto; lia).
      do 3 eexists. split; [reflexivity |].
      split; [split; [discriminate | lia] |].
      split; [intros [H | H]; [discriminate | lia] |].
      intros _ _. split; [reflexivity |].
      split; [apply content_truncated; [exact Hwf | lia] |].
      unfold removed_to. destruct out as [o |]; [| reflexivity].
      cbn [option_map]. rewrite slice_to_end by nia. reflexivity.
Qed.

(** X2. [vec2_shift_multi(len, out)] on a valid buffer returns, [FALSE]
    exactly when [len > size]; the buffer and [out] are untouched then and
    when [len == 0].  Otherwise it returns [TRUE] without moving or
    reallocating anything: the block is byte for byte the same, [_start]
    and [data] advance by [len] elements (and stay where they are when the
    buffer is emptied), the content loses its first [len] elements, which
    a non-null [out] receives, and the buffer is still valid. *)
Theorem shift_multi_advances_the_start
  (w : world) (len el_size : Z) (out : option (list byte)) :
  wf el_size w ->
  is_size len ->
  (forall o, out = Some o -> len * el_size <= Z.of_nat (length o)) ->
  exists ok out' w',
    vec2_shift_multi len el_size out w = Ret ((ok, out'), w') /\
    (ok = FALSE <-> len > size (vec w)) /\
    (ok = FALSE \/ len = 0 -> w' = w /\ out' = out) /\
    (ok = TRUE -> 0 < len ->
     heap w' = heap w /\ allocator w' = allocator w /\
     vec w' = front_advanced el_size len (vec w) /\
     content el_size w'
     = skipn (Z.to_nat (len * el_size)) (content el_size w) /\
     out' = option_map
              (fun o => firstn (Z.to_nat (len * el_size)) (content el_size w)
                        ++ skipn (Z.to_nat (len * el_size)) o) out /\
     wf el_size w').
Proof.
  intros Hwf Hlen Hout. unfold is_size in Hlen.
  pose proof Hwf as (Hel & Hsz & Hst & Hlive & _).
  unfold vec2_shift_multi, vec2_remove.
  destruct (Z.ltb_spec (size (vec w)) len) as [Hbig | Hfit].
  - rewrite remove_rejects by (auto; lia).
    exists FALSE, out, w.
    repeat split; try reflexivity; try tauto; try discriminate; try lia.
  - destruct (Z.eqb_spec len 0) as [-> | Hnz].
    + rewrite remove_nothing by (auto; lia).
      exists TRUE, out, w.
      repeat split; try reflexivity; try tauto; try discriminate; try lia.
    + rewrite remove_at_front_run by (auto; lia).
      do 3 eexists. split; [reflexivity |].
      split; [split; [discriminate | lia] |].
      split; [intros [H | H]; [discriminate | lia] |].
      intros _ _. do 3 (split; [reflexivity |]).
      split; [apply content_advanced; [exact Hwf | lia] |].
      split; [| apply wf_advanced; [exact Hwf | lia]].
      unfold removed_to. destruct out as [o |]; reflexivity.
Qed.

(** ** Validity is kept by removal *)

Lemma splice_length (off : Z) (bs l : list byte) :
  0 <= off -> off + Z.of_nat (length bs) <= Z.of_nat (length l) ->
  length (splice off bs l) = length l.
Proof.
  intros Hoff Hfit. unfold splice.
  rewrite !length_app, length_firstn, length_skipn. lia.
Qed.

(** X3. Whatever [_vec2_impl_remove] returns on a valid buffer, the buffer
    is valid afterwards: the counters agree with each other and with the
    block, whose address and length are the same.  The call always
    returns. *)
Theorem remove_keeps_buffer_valid
  (w : world) (idx len el_size : Z) (out : option (list byte)) :
  wf el_size w ->
  is_size idx -> is_size len ->
  (forall o, out = Some o -> len * el_size <= Z.of_nat (length o)) ->
  exists r w',
    _vec2_impl_remove idx len el_size out w = Ret (r, w') /\
    wf el_size w' /\
    capacity (vec w') = capacity (vec w) /\
    allocator w' = allocator w /\
    option_map base (heap w') = option_map base (heap w) /\
    option_map (fun b => length (bytes b)) (heap w')
    = option_map (fun b => length (bytes b)) (heap w).
Proof.
  intros Hwf Hidx Hlen Hout. unfold is_size in Hidx, Hlen.
  pose proof (wf_valid el_size w Hwf) as Hvalid.
  pose proof (wf_capacity_range el_size w Hwf) as Hcr.
  pose proof Hwf as (Hel & Hsz & Hst & Hlive & Hheap).
  destruct (Z.ltb_spec (size (vec w)) len) as [Hbig | Hfit].
  { rewrite remove_rejects by (auto; lia). exists (FALSE, out), w. auto 10. }
  destruct (Z.ltb_spec (size (vec w) - len) idx) as [Hpast | Hin].
  { rewrite remove_rejects by (auto; lia). exists (FALSE, out), w. auto 10. }
  destruct (Z.eqb_spec len 0) as [-> | Hnz].
  { rewrite remove_nothing by (auto; lia). exists (TRUE, out), w. auto 10. }
  destruct (Z.eqb_spec idx 0) as [-> | Hinner].
  { rewrite remove_at_front_run by (auto; lia).
    do 2 eexists. split; [reflexivity |].
    split; [apply wf_advanced; [exact Hwf | lia] |].
    unfold front_advanced. destruct (len <? size (vec w)); auto 10. }
  destruct (Z.eqb_spec (idx + len) (size (vec w))) as [Hend | Hmid].
  { rewrite remove_at_end_run by (auto; lia).
    do 2 eexists. split; [reflexivity |].
    split; [apply wf_truncated; [exact Hwf | lia] |]. auto 10. }
  (* in the interior: the suffix moves back inside the block *)
  destruct (heap w) as [b |] eqn:Hb; [| lia].
  destruct Hheap as (Hcap & Hbase & Hdata & Hblen & Hmax).
  pose proof (wf_products el_size w b idx Hwf Hb ltac:(lia)) as Hpi.
  pose proof (wf_products el_size w b len Hwf Hb ltac:(lia)) as Hpl.
  pose proof (wf_products el_size w b (idx + len) Hwf Hb ltac:(lia)) as Hpil.
  pose proof (wf_products el_size w b (size (vec w)) Hwf Hb ltac:(lia))
    as Hpz.
  pose proof (wf_products el_size w b (_start (vec w)) Hwf Hb ltac:(lia))
    as Hpt.
  pose proof (wf_products el_size w b (_start (vec w) + size (vec w))
                Hwf Hb ltac:(lia)) as Hps.
  pose proof (wf_products el_size w b (size (vec w) - len - idx)
                Hwf Hb ltac:(lia)) as Hprest.
  assert (Hcopy :
            exists out',
              (match out with
               | Some o =>
                   o' <- memcpy_out o (VEC2_GET (vec w) el_size idx)
                           (size_mul len el_size) ;;
                   ret (Some o')
               | None => ret None
               end) w = Ret (out', w)).
  { destruct out as [o |]; [| now exists None].
    unfold VEC2_GET. rewrite !size_mul_exact by lia.
    erewrite bind_Ret;
      [| apply (memcpy_out_ok w b);
         [exact Hb | apply in_block_iff; nia | now apply Hout]].
    eexists. reflexivity. }
  destruct Hcopy as (out' & Hcopy).
  unfold _vec2_impl_remove, _vec2_remove. mrun. rewrite Hvalid.
  is_false (el_size =? 0). mrun.
  is_false (len >? size (vec w)).
  rewrite (size_sub_exact (size (vec w)) len) by lia.
  is_false (size (vec w) - len <? idx). is_false (len =? 0). mrun.
  rewrite (bind_Ret _ _ w w _ Hcopy). mrun.
  rewrite (size_sub_exact (size (vec w)) len) by lia.
  is_false (size (vec w) - len =? 0). is_false (idx =? 0).
  is_true (idx <? size (vec w) - len). mrun.
  unfold VEC2_GET. proj.
  rewrite (size_add_exact idx len) by lia.
  rewrite (size_sub_exact (size (vec w) - len) idx) by lia.
  rewrite !size_mul_exact by lia.
  erewrite bind_Ret;
    [| apply (memmove_ok _ b); [exact Hb | apply in_block_iff; nia ..]].
  mrun. do 2 eexists. split; [reflexivity |]. proj.
  assert (Hsame : length (splice (data (vec w) + idx * el_size - base b)
                            (slice (data (vec w) + (idx + len) * el_size
                                    - base b)
                               ((size (vec w) - len - idx) * el_size)
                               (bytes b)) (bytes b))
                  = length (bytes b)).
  { apply splice_length; [nia |]. rewrite slice_length by nia. nia. }
  split.
  - unfold wf. proj. rewrite Hsame. repeat split; lia.
  - cbn [option_map]. proj. rewrite Hsame. auto.
Qed.

(** ** The accessors *)

(** X4. On a valid buffer [vec2_get(idx)] is [NULL] exactly when
    [idx >= size]; otherwise it is an address at which [el_size] bytes lie
    inside the block, and they are element [idx] of the content. *)
Theorem get_reads_the_element (w : world) (el_size idx : Z) :
  wf el_size w ->
  0 <= idx ->
  (vec2_get (vec w) el_size idx = NULL <-> size (vec w) <= idx) /\
  (idx < size (vec w) ->
   load (vec2_get (vec w) el_size idx) el_size w
   = Ret (slice (idx * el_size) el_size (content el_size w), w)).
Proof.
  intros Hwf Hidx.
  pose proof (wf_valid el_size w Hwf) as Hvalid.
  pose proof Hwf as (Hel & Hsz & Hst & Hlive & Hheap).
  unfold vec2_get. rewrite Hvalid. cbn [andb].
  destruct (Z.ltb_spec idx (size (vec w))) as [Hin | Hout].
  - destruct (heap w) as [b |] eqn:Hb; [| lia].
    destruct Hheap as (Hcap & Hbase & Hdata & Hblen & Hmax).
    pose proof (wf_products el_size w b (_start (vec w) + idx + 1)
                  Hwf Hb ltac:(lia)) as Hp1.
    pose proof (wf_products el_size w b (_start (vec w) + idx)
                  Hwf Hb ltac:(lia)) as Hp0.
    split.
    + unfold NULL. split; [nia | lia].
    + intros _. rewrite (load_ok w b) by (auto; apply in_block_iff; nia).
      rewrite (slice_of_content el_size (idx * el_size) el_size w b)
        by (auto; nia).
      reflexivity.
  - split; [tauto | lia].
Qed.

(** X5. On a valid buffer [vec2_first] and [vec2_last] are [NULL] exactly
    when the buffer is empty; otherwise [el_size] bytes can be read at
    each, and they are the first and the last element of the content. *)
Theorem first_and_last_read_the_ends (w : world) (el_size : Z) :
  wf el_size w ->
  (vec2_first (vec w) el_size = NULL <-> size (vec w) = 0) /\
  (vec2_last (vec w) el_size = NULL <-> size (vec w) = 0) /\
  (0 < size (vec w) ->
   load (vec2_first (vec w) el_size) el_size w
   = Ret (firstn (Z.to_nat el_size) (content el_size w), w) /\
   load (vec2_last (vec w) el_size) el_size w
   = Ret (skipn (Z.to_nat ((size (vec w) - 1) * el_size))
            (content el_size w), w)).
Proof.
  intros Hwf.
  pose proof (wf_valid el_size w Hwf) as Hvalid.
  pose proof (wf_capacity_range el_size w Hwf) as Hcr.
  pose proof (content_length el_size w Hwf) as HX.
  pose proof Hwf as (Hel & Hsz & Hst & Hlive & Hheap).
  unfold vec2_first, vec2_last, vec2_get. rewrite Hvalid. cbn [andb].
  destruct (Z.ltb_spec 0 (size (vec w))) as [Hsome | Hnone].
  - is_true (size (vec w) >? 0).
    rewrite (size_sub_exact (size (vec w)) 1) by lia.
    destruct (heap w) as [b |] eqn:Hb; [| lia].
    destruct Hheap as (Hcap & Hbase & Hdata & Hblen & Hmax).
    pose proof (wf_products el_size w b (_start (vec w) + size (vec w))
                  Hwf Hb ltac:(lia)) as Hps.
    pose proof (wf_products el_size w b (_start (vec w) + size (vec w) - 1)
                  Hwf Hb ltac:(lia)) as Hp1.
    pose proof (wf_products el_size w b (_start (vec w))
                  Hwf Hb ltac:(lia)) as Hpt.
    pose proof (wf_products el_size w b (_start (vec w) + 1)
                  Hwf Hb ltac:(lia)) as Hpt1.
    split; [unfold NULL; split; [nia | lia] |].
    split; [unfold NULL; split; [nia | lia] |].
    intros _. split.
    + rewrite (load_ok w b) by (auto; apply in_block_iff; nia).
      rewrite (slice_of_content el_size (0 * el_size) el_size w b)
        by (auto; nia).
      reflexivity.
    + rewrite (load_ok w b) by (auto; apply in_block_iff; nia).
      rewrite (slice_of_content el_size ((size (vec w) - 1) * el_size)
                 el_size w b) by (auto; nia).
      rewrite slice_to_end by nia. reflexivity.
  - is_false (size (vec w) >? 0).
    split; [split; [lia | reflexivity] |].
    split; [split; [lia | reflexivity] |]. lia.
Qed.

(** ** Assignment *)

Lemma memcpy_in_ok (w : world) (b : block) (dst n : Z) (val : list byte) :
  heap w = Some b -> in_block b dst n = true ->
  n <= Z.of_nat (length val) ->
  memcpy_in dst val n w
  = Ret (tt, with_heap
               (Some (mkBlock (base b)
                        (splice (dst - base b) (firstn (Z.to_nat n) val)
                           (bytes b)))) w).
Proof.
  intros Hb Hin Hfit. unfold memcpy_in.
  is_true (n <=? Z.of_nat (length val)).
  apply store_ok; [exact Hb |].
  apply in_block_iff in Hin.
  replace (Z.of_nat (length (firstn (Z.to_nat n) val))) with n
    by (rewrite length_firstn; lia).
  now apply in_block_iff.
Qed.

(** The live range after [n] bytes at byte offset [off] of it were
    overwritten with [bs]. *)
Lemma content_overwritten
  (el_size off : Z) (bs : list byte) (w : world) (b : block) :
  wf el_size w -> heap w = Some b ->
  0 <= off ->
  off + Z.of_nat (length bs) <= size (vec w) * el_size ->
  let w' := with_heap
              (Some (mkBlock (base b)
                       (splice (data (vec w) + off - base b) bs (bytes b))))
              w in
  content el_size w'
  = firstn (Z.to_nat off) (content el_size w) ++ bs
    ++ skipn (Z.to_nat (off + Z.of_nat (length bs))) (content el_size w) /\
  wf el_size w'.
Proof.
  intros Hwf Hb Hoff Hfit w'.
  destruct (content_split el_size w b Hwf Hb) as (P & T & Hbytes & HP & HX).
  pose proof Hwf as (Hel & Hsz & Hst & Hlive & Hheap).
  rewrite Hb in Hheap. destruct Hheap as (Hcap & Hbase & Hdata & Hblen & Hmax).
  destruct (split_at (content el_size w) off ltac:(lia))
    as (A & L & HAL & HA & HL).
  destruct (split_at L (Z.of_nat (length bs)) ltac:(lia))
    as (R & S & -> & HR & HS).
  assert (Hnew : splice (data (vec w) + off - base b) bs (bytes b)
                 = P ++ (A ++ bs ++ S) ++ T).
  { rewrite Hbytes, HAL, Hdata.
    replace (P ++ (A ++ R ++ S) ++ T) with ((P ++ A) ++ R ++ S ++ T)
      by (now rewrite <- !app_assoc).
    rewrite splice_at by (rewrite length_app; lia).
    replace (length bs) with (Z.to_nat (Z.of_nat (length R))) by lia.
    rewrite (skipn_exact R (S ++ T) _ eq_refl).
    now rewrite <- !app_assoc. }
  subst w'. split.
  - unfold content at 1. proj. rewrite Hnew, Hdata, HAL.
    replace (base b + _start (vec w) * el_size - base b)
      with (_start (vec w) * el_size) by lia.
    rewrite slice_mid; [| exact HP | rewrite HAL, !length_app in HX;
                                      rewrite !length_app; lia].
    rewrite (firstn_exact A (R ++ S) off HA).
    replace (A ++ R ++ S) with ((A ++ R) ++ S) by (now rewrite <- app_assoc).
    rewrite skipn_exact by (rewrite length_app; lia). reflexivity.
  - unfold wf. proj. rewrite Hnew.
    assert (Z.of_nat (length (P ++ (A ++ bs ++ S) ++ T))
            = Z.of_nat (length (bytes b))).
    { rewrite Hbytes, HAL, !length_app. lia. }
    repeat split; lia.
Qed.

(** X6. [_vec2_impl_assign(idx, val, len)] on a valid buffer, [val] being
    an array of at least [len] elements, returns.  It returns [FALSE]
    exactly when [idx >= size] or [len > size - idx], so also for
    [len == 0] at [idx == size], and then nothing changes.  Otherwise it
    returns [TRUE]: the structure is untouched, the elements
    [idx .. idx+len-1] of the content are the first [len] of [val], the
    others are as before, and the buffer is valid. *)
Theorem assign_overwrites_in_place
  (w : world) (idx len el_size : Z) (val : list byte) :
  wf el_size w ->
  is_size idx -> is_size len ->
  len * el_size <= Z.of_nat (length val) ->
  exists ok w',
    _vec2_impl_assign idx (Some val) len el_size w = Ret (ok, w') /\
    (ok = FALSE <-> idx >= size (vec w) \/ len > size (vec w) - idx) /\
    (ok = FALSE -> w' = w) /\
    (ok = TRUE ->
     vec w' = vec w /\ allocator w' = allocator w /\
     content el_size w'
     = firstn (Z.to_nat (idx * el_size)) (content el_size w)
       ++ firstn (Z.to_nat (len * el_size)) val
       ++ skipn (Z.to_nat ((idx + len) * el_size)) (content el_size w) /\
     wf el_size w').
Proof.
  intros Hwf Hidx Hlen Hval. unfold is_size in Hidx, Hlen.
  pose proof (wf_valid el_size w Hwf) as Hvalid.
  pose proof (wf_capacity_range el_size w Hwf) as Hcr.
  pose proof Hwf as (Hel & Hsz & Hst & Hlive & Hheap).
  unfold _vec2_impl_assign. mrun. rewrite Hvalid.
  is_false (el_size =? 0). mrun.
  destruct (Z.leb_spec (size (vec w)) idx) as [Hpast | Hin].
  { is_true (idx >=? size (vec w)). mrun.
    exists FALSE, w.
    repeat split; try reflexivity; try tauto; try discriminate; try lia. }
  is_false (idx >=? size (vec w)). mrun.
  rewrite (size_sub_exact (size (vec w)) idx) by lia.
  destruct (Z.ltb_spec (size (vec w) - idx) len) as [Hlong | Hfit].
  { exists FALSE, w.
    repeat split; try reflexivity; try tauto; try discriminate; try lia. }
  destruct (heap w) as [b |] eqn:Hb; [| lia].
  destruct Hheap as (Hcap & Hbase & Hdata & Hblen & Hmax).
  pose proof (wf_products el_size w b idx Hwf Hb ltac:(lia)) as Hpi.
  pose proof (wf_products el_size w b len Hwf Hb ltac:(lia)) as Hpl.
  pose proof (wf_products el_size w b (idx + len) Hwf Hb ltac:(lia)) as Hpil.
  pose proof (wf_products el_size w b (_start (vec w) + idx + len)
                Hwf Hb ltac:(lia)) as Hptil.
  pose proof (wf_products el_size w b (_start (vec w) + idx)
                Hwf Hb ltac:(lia)) as Hpti.
  pose proof (wf_products el_size w b (size (vec w)) Hwf Hb ltac:(lia))
    as Hpz.
  unfold VEC2_GET. rewrite !size_mul_exact by lia.
  erewrite bind_Ret;
    [| apply (memcpy_in_ok w b);
       [exact Hb | apply in_block_iff; lia | exact Hval]].
  mrun. do 2 eexists. split; [reflexivity |].
  split; [split; [discriminate | lia] |].
  split; [discriminate |]. intros _.
  do 2 (split; [reflexivity |]).
  set (V := firstn (Z.to_nat (len * el_size)) val).
  assert (HV : Z.of_nat (length V) = len * el_size)
    by (subst V; rewrite length_firstn; lia).
  destruct (content_overwritten el_size (idx * el_size) V w b Hwf Hb)
    as [Hc Hwf']; [lia | nia |].
  rewrite Hc. split; [| exact Hwf'].
  now replace (idx * el_size + Z.of_nat (length V))
    with ((idx + len) * el_size) by lia.
Qed.

(** X7. On a valid buffer the macro [vec2_assign(idx, val)] does what
    [_vec2_impl_assign] does for one element, and records [idx] in
    [_idx[0]] whether it succeeds or fails. *)
Theorem assign_macro_agrees
  (w : world) (idx el_size : Z) (val : list byte) :
  wf el_size w ->
  is_size idx ->
  Z.of_nat (length val) = el_size ->
  vec2_assign idx val el_size w
  = (ok <- _vec2_impl_assign idx (Some val) 1 el_size ;;
     upd_vec (set_idx idx) ;;;
     ret ok) w.
Proof.
  intros Hwf Hidx Hval. unfold is_size in Hidx.
  pose proof (wf_valid el_size w Hwf) as Hvalid.
  pose proof (wf_capacity_range el_size w Hwf) as Hcr.
  pose proof Hwf as (Hel & Hsz & Hst & Hlive & Hheap).
  unfold vec2_assign, _vec2_impl_assign. mrun. rewrite Hvalid. mrun.
  is_false (el_size =? 0). mrun.
  destruct (Z.ltb_spec idx (size (vec w))) as [Hin | Hpast].
  - is_false (idx >=? size (vec w)).
    rewrite (size_sub_exact (size (vec w)) idx) by lia.
    is_false (size (vec w) - idx <? 1). mrun.
    destruct (heap w) as [b |] eqn:Hb; [| lia].
    destruct Hheap as (Hcap & Hbase & Hdata & Hblen & Hmax).
    pose proof (wf_products el_size w b idx Hwf Hb ltac:(lia)) as Hpi.
    pose proof (wf_products el_size w b 1 Hwf Hb ltac:(lia)) as Hp1.
    pose proof (wf_products el_size w b (_start (vec w) + idx + 1)
                  Hwf Hb ltac:(lia)) as Hpt1.
    pose proof (wf_products el_size w b (_start (vec w) + idx)
                  Hwf Hb ltac:(lia)) as Hpt.
    unfold VEC2_GET, memcpy_in. rewrite !size_mul_exact by lia.
    replace (1 * el_size) with el_size by lia.
    is_true (el_size <=? Z.of_nat (length val)).
    rewrite firstn_all2 by lia.
    assert (Hin_block : in_block b (data (vec w) + idx * el_size)
                          (Z.of_nat (length val)) = true)
      by (apply in_block_iff; nia).
    erewrite (bind_Ret (store _ val));
      [| apply (store_ok _ b); [exact Hb | exact Hin_block]].
    symmetry.
    erewrite (bind_Ret (store _ val));
      [| apply (store_ok _ b); [exact Hb | exact Hin_block]].
    mrun. reflexivity.
  - is_true (idx >=? size (vec w)). mrun. reflexivity.
Qed.

(** ** The hole and what the macros make of it *)

Lemma create_hole_true_guard
  (fuel : nat) (idx len el_size : Z) (w w1 : world) :
  _vec2_create_hole fuel idx len el_size w = Ret (TRUE, w1) ->
  0 < len /\ idx <= size (vec w).
Proof.
  unfold _vec2_create_hole. mrun.
  destruct (Z.leb_spec len 0) as [Hlen | Hlen]; cbn [orb].
  { intros H. apply ret_inv in H as [H _]. discriminate. }
  destruct (Z.ltb_spec (size (vec w)) idx) as [Hidx | Hidx].
  { is_true (idx >? size (vec w)). cbn [orb].
    intros H. apply ret_inv in H as [H _]. discriminate. }
  intros _. lia.
Qed.

Lemma bind_Undef {A B} (m : M A) (k : A -> M B) (w : world) :
  m w = Undef -> bind m k w = Undef.
Proof. intros H. unfold bind. now rewrite H. Qed.

Lemma bind_Diverge {A B} (m : M A) (k : A -> M B) (w : world) :
  m w = Diverge -> bind m k w = Diverge.
Proof. intros H. unfold bind. now rewrite H. Qed.

(** X8. On a valid buffer the macro [vec2_insert(idx, val)] does what
    [_vec2_impl_insert] does for one element, and on success records
    [idx] in [_idx[0]]; the two agree also when the call does not
    return. *)
Theorem insert_macro_agrees
  (fuel : nat) (w : world) (idx el_size : Z) (val : list byte) :
  wf el_size w ->
  is_size idx -> is_size el_size ->
  Z.of_nat (length val) = el_size ->
  vec2_insert fuel idx val el_size w
  = (ok <- _vec2_impl_insert fuel idx (Some val) 1 el_size ;;
     (if ok then upd_vec (set_idx idx) else ret tt) ;;;
     ret ok) w.
Proof.
  intros Hwf Hidx Hels Hval. unfold is_size in Hidx, Hels.
  pose proof (wf_valid el_size w Hwf) as Hvalid.
  pose proof (wf_capacity_range el_size w Hwf) as Hcr.
  pose proof Hwf as (Hel & Hsz & Hst & Hlive & Hheap).
  assert (Hoff : idx <= size (vec w) -> 0 <= idx * el_size < SIZE_MOD).
  { intros Hin. destruct (heap w) as [b |] eqn:Hb.
    - pose proof (wf_products el_size w b idx Hwf Hb ltac:(lia)). lia.
    - assert (idx = 0) by lia. subst idx. unfold SIZE_MOD. lia. }
  unfold vec2_insert, _vec2_impl_insert, _vec2_impl_create_hole.
  mrun. rewrite Hvalid. is_false (el_size =? 0).
  change (1 <=? 0) with false. change (1 >? 0) with true. mrun.
  destruct (_vec2_create_hole fuel idx 1 el_size w) as [[ok w1] | |] eqn:Hhole;
    [| now rewrite !(bind_Undef _ _ _ Hhole)
     | now rewrite !(bind_Diverge _ _ _ Hhole)].
  rewrite !(bind_Ret _ _ _ _ _ Hhole).
  destruct ok; cbn [negb]; unfold TRUE, FALSE; mrun; [| reflexivity].
  apply create_hole_true_guard in Hhole as [_ Hin].
  unfold VEC2_GET, memcpy_in.
  rewrite (size_mul_exact idx el_size), (size_mul_exact el_size 1) by lia.
  replace (el_size * 1) with el_size by lia.
  is_true (el_size <=? Z.of_nat (length val)).
  rewrite firstn_all2 by lia.
  unfold bind, store, upd_vec, ret. proj.
  destruct (heap w1) as [b1 |]; [| reflexivity].
  destruct (in_block b1 _ _); reflexivity.
Qed.

Lemma keeps_counters_refl (w : world) : keeps_counters w w.
Proof. unfold keeps_counters. repeat split; lia. Qed.

Lemma keeps_counters_trans (w1 w2 w3 : world) :
  keeps_counters w1 w2 -> keeps_counters w2 w3 -> keeps_counters w1 w3.
Proof.
  unfold keeps_counters. intros (H1 & H2 & H3) (H4 & H5 & H6).
  repeat split; try congruence; lia.
Qed.

Lemma reserve_keeps_counters (additional el_size : Z) (ok : bool)
  (w w' : world) :
  _vec2_reserve additional el_size w = Ret (ok, w') -> keeps_counters w w'.
Proof.
  unfold _vec2_reserve. mrun.
  destruct (additional >? _);
    [| intros H; apply ret_inv in H as [_ <-]; apply keeps_counters_refl].
  destruct (Z.ltb_spec (size_add (capacity (vec w)) additional)
              (capacity (vec w))) as [Hwrap | Hgrow].
  { intros H. apply ret_inv in H as [_ <-]. apply keeps_counters_refl. }
  destruct (el_size =? 0); [discriminate |].
  destruct (negb _).
  { intros H. apply ret_inv in H as [_ <-]. apply keeps_counters_refl. }
  intros H. apply bind_inv in H as (new_mem & w1 & Hre & H).
  apply realloc_vec in Hre.
  destruct (new_mem =? NULL).
  - apply ret_inv in H as [_ <-]. unfold keeps_counters. rewrite Hre.
    repeat split; lia.
  - revert H. mrun. intros H. apply ret_inv in H as [_ <-].
    unfold keeps_counters. proj. rewrite Hre. repeat split; lia.
Qed.

Lemma reserve_retry_keeps_counters (fuel : nat) (len el_size : Z) :
  forall (addition : Z) (ok : bool) (w w' : world),
    reserve_retry fuel addition len el_size w = Ret (ok, w') ->
    keeps_counters w w'.
Proof.
  induction fuel as [| fuel IH]; intros addition ok w w';
    cbn [reserve_retry]; [discriminate |].
  intros H. apply bind_inv in H as (got & w1 & Hres & H).
  apply reserve_keeps_counters in Hres.
  apply (keeps_counters_trans w w1 w' Hres).
  destruct got.
  - apply ret_inv in H as [_ <-]. apply keeps_counters_refl.
  - destruct (_ && _); [now apply IH in H |].
    destruct (_ <? len); [| now apply IH in H].
    apply ret_inv in H as [_ <-]. apply keeps_counters_refl.
Qed.

Lemma create_hole_keeps_counters
  (fuel : nat) (idx len el_size : Z) (ok : bool) (w w' : world) :
  _vec2_create_hole fuel idx len el_size w = Ret (ok, w') ->
  keeps_counters w w'.
Proof.
  unfold _vec2_create_hole. mrun.
  destruct (_ || _).
  { intros H. apply ret_inv in H as [_ <-]. apply keeps_counters_refl. }
  intros H. apply bind_inv in H as (reserved & w1 & Hres & H).
  assert (Hkeep1 : keeps_counters w w1).
  { destruct (_ >? capacity (vec w)).
    - destruct (grow_addition _ _ _) as [addition |]; [| discriminate].
      now apply reserve_retry_keeps_counters in Hres.
    - apply ret_inv in Hres as [_ <-]. apply keeps_counters_refl. }
  apply (keeps_counters_trans w w1 w' Hkeep1).
  destruct reserved; cbn [negb] in H;
    [| apply ret_inv in H as [_ <-]; apply keeps_counters_refl].
  revert H. mrun.
  destruct (size (vec w1) >? 0); mrun;
    [| intros H; apply ret_inv in H as [_ <-]; apply keeps_counters_refl].
  destruct ((idx =? 0) && (_start (vec w1) >=? len)); mrun.
  { intros H. apply ret_inv in H as [_ <-].
    unfold keeps_counters. proj. repeat split; lia. }
  destruct ((idx <? size (vec w1)) || _); mrun;
    [| intros H; apply ret_inv in H as [_ <-]; apply keeps_counters_refl].
  intros H. apply bind_inv in H as ([] & w2 & Hmove & H).
  apply memmove_vec in Hmove.
  assert (Hkeep2 : keeps_counters w1 w2).
  { unfold keeps_counters. rewrite Hmove. proj. repeat split; lia. }
  apply (keeps_counters_trans w1 w2 w' Hkeep2).
  revert H. mrun.
  destruct (_ && _).
  - intros H. apply bind_inv in H as ([] & w3 & Hmove3 & H).
    apply memmove_vec in Hmove3. apply ret_inv in H as [_ <-].
    unfold keeps_counters. rewrite Hmove3. repeat split; lia.
  - mrun. intros H. apply ret_inv in H as [_ <-]. apply keeps_counters_refl.
Qed.

(** X9. [_vec2_impl_create_hole] never changes [size] and never lowers
    [capacity], whatever it returns.  When it returns [TRUE] the hole has
    a positive length at an index within the buffer, and [_idx[0]] holds
    that index; when it returns [FALSE] the structure and the block are
    untouched, [_idx[0]] included. *)
Theorem create_hole_leaves_size
  (fuel : nat) (idx len el_size : Z) (ok : bool) (w w' : world) :
  _vec2_impl_create_hole fuel idx len el_size w = Ret (ok, w') ->
  size (vec w') = size (vec w) /\
  capacity (vec w) <= capacity (vec w') /\
  (ok = TRUE -> _idx (vec w') = idx /\ 0 < len /\ idx <= size (vec w)) /\
  (ok = FALSE -> same_buffer w w').
Proof.
  intros Hrun.
  assert (Hfalse : ok = FALSE -> same_buffer w w').
  { intros ->. now apply impl_create_hole_fails_same in Hrun. }
  revert Hrun. unfold _vec2_impl_create_hole. mrun.
  destruct (_ || _).
  { intros H. apply ret_inv in H as [<- <-].
    split; [reflexivity |]. split; [lia |].
    split; [intros Ht; discriminate Ht | exact Hfalse]. }
  intros H. apply bind_inv in H as (got & w1 & Hhole & H).
  pose proof (create_hole_keeps_counters _ _ _ _ _ _ _ Hhole)
    as (Hsize & _ & Hcap).
  destruct got; cbn [negb] in H.
  - apply create_hole_true_guard in Hhole as [Hlen Hidx].
    revert H. mrun. intros H. apply ret_inv in H as [<- <-]. proj.
    split; [exact Hsize |]. split; [exact Hcap |].
    split; [auto | exact Hfalse].
  - apply ret_inv in H as [<- <-].
    split; [exact Hsize |]. split; [exact Hcap |].
    split; [intros Ht; discriminate Ht | exact Hfalse].
Qed.

(** ** Reserving *)

Ltac returns := do 2 eexists; reflexivity.

Lemma realloc_at_base_returns (n : Z) (w : world) (b : block) :
  heap w = Some b ->
  exists r w', realloc (base b) n w = Ret (r, w').
Proof.
  intros Hb. unfold realloc. rewrite Hb, Z.eqb_refl.
  destruct (base b =? NULL);
    destruct (allocator w) as [| [| addr fresh] rest]; returns.
Qed.

Lemma realloc_null_returns (n : Z) (w : world) :
  exists r w', realloc NULL n w = Ret (r, w').
Proof.
  unfold realloc. cbn.
  destruct (allocator w) as [| [| addr fresh] rest]; returns.
Qed.

(** The base of the block, as [vec2_mem] computes it. *)
Lemma wf_mem (el_size : Z) (w : world) :
  wf el_size w ->
  vec2_mem (vec w) el_size
  = match heap w with Some b => base b | None => NULL end.
Proof.
  intros Hwf. pose proof Hwf as (Hel & Hsz & Hst & Hlive & Hheap).
  unfold vec2_mem. destruct (heap w) as [b |] eqn:Hb.
  - destruct Hheap as (Hcap & Hbase & Hdata & Hblen & Hmax).
    pose proof (wf_products el_size w b (_start (vec w)) Hwf Hb ltac:(lia)).
    rewrite size_mul_exact by lia. lia.
  - destruct Hheap as [Hcap Hdata].
    replace (_start (vec w)) with 0 by lia.
    rewrite Hdata. reflexivity.
Qed.

Lemma reserve_returns_on_valid (additional el_size : Z) (w : world) :
  wf el_size w ->
  exists ok w', _vec2_reserve additional el_size w = Ret (ok, w').
Proof.
  intros Hwf. pose proof Hwf as (Hel & _).
  unfold _vec2_reserve. mrun.
  destruct (additional >? _); [| returns].
  destruct (_ <? capacity (vec w)); [returns |].
  is_false (el_size =? 0). mrun.
  match goal with |- context [negb ?c] => destruct (negb c) end; [returns |].
  rewrite (wf_mem el_size w Hwf).
  assert (Hre : exists r w1,
             realloc (match heap w with Some b => base b | None => NULL end)
               (size_mul (size_add (capacity (vec w)) additional) el_size) w
             = Ret (r, w1)).
  { destruct (heap w) as [b |] eqn:Hb.
    - now apply realloc_at_base_returns.
    - apply realloc_null_returns. }
  destruct Hre as (r & w1 & Hre).
  rewrite (bind_Ret _ _ _ _ _ Hre).
  destruct (r =? NULL); mrun; returns.
Qed.

Lemma reserve_capacity (additional el_size : Z) (w w' : world) :
  _vec2_reserve additional el_size w = Ret (TRUE, w') ->
  capacity (vec w')
  = if additional >? size_sub (capacity (vec w)) (size (vec w))
    then size_add (capacity (vec w)) additional
    else capacity (vec w).
Proof.
  unfold _vec2_reserve. mrun.
  destruct (additional >? _);
    [| intros H; now apply ret_inv in H as [_ <-]].
  destruct (_ <? capacity (vec w));
    [intros H; apply ret_inv in H as [H _]; discriminate |].
  destruct (el_size =? 0); [discriminate |].
  destruct (negb _);
    [intros H; apply ret_inv in H as [H _]; discriminate |].
  intros H. apply bind_inv in H as (new_mem & w1 & Hre & H).
  destruct (new_mem =? NULL);
    [apply ret_inv in H as [H _]; discriminate |].
  revert H. mrun. intros H. now apply ret_inv in H as [_ <-].
Qed.

(** X10. [vec2_reserve(additional)] on a valid buffer returns.  When the
    spare capacity already covers [additional] it returns [TRUE] with
    nothing changed and the allocator not asked.  When it returns [FALSE]
    the structure and the block are untouched.  When it returns [TRUE]
    after growing, [capacity] went up by exactly [additional] (not to
    [size + additional]), the content, [size] and [_start] are the same,
    and the buffer is valid. *)
Theorem reserve_grows_by_additional
  (w : world) (additional el_size : Z) :
  wf el_size w ->
  is_size additional ->
  exists ok w',
    vec2_reserve additional el_size w = Ret (ok, w') /\
    (additional <= capacity (vec w) - size (vec w) ->
     ok = TRUE /\ w' = w) /\
    (ok = FALSE -> same_buffer w w') /\
    (ok = TRUE ->
     wf el_size w' /\
     content el_size w' = content el_size w /\
     size (vec w') = size (vec w) /\
     _start (vec w') = _start (vec w) /\
     capacity (vec w')
     = (if additional <=? capacity (vec w) - size (vec w)
        then capacity (vec w)
        else capacity (vec w) + additional)).
Proof.
  intros Hwf Hadd.
  pose proof (wf_valid el_size w Hwf) as Hvalid.
  pose proof (wf_capacity_range el_size w Hwf) as Hcr.
  pose proof Hwf as (Hel & Hsz & Hst & Hlive & _).
  destruct (reserve_returns_on_valid additional el_size w Hwf)
    as (ok & w' & Hrun).
  unfold vec2_reserve, _vec2_impl_reserve. mrun. rewrite Hvalid.
  is_false (el_size =? 0). mrun.
  exists ok, w'. split; [exact Hrun |].
  split; [| split].
  - intros Hfits. revert Hrun. unfold _vec2_reserve. mrun.
    rewrite (size_sub_exact (capacity (vec w)) (size (vec w))) by lia.
    is_false (additional >? capacity (vec w) - size (vec w)).
    intros H. now apply ret_inv in H as [<- <-].
  - intros ->. now apply reserve_fails_same in Hrun.
  - intros ->.
    pose proof (reserve_capacity _ _ _ _ Hrun) as Hcap'.
    pose proof (reserve_keeps_counters _ _ _ _ _ Hrun) as (_ & _ & Hmono).
    destruct (reserve_succeeds el_size additional w w' Hwf Hadd Hrun)
      as (Hwf' & Hc & Hs & Ht & Hroom).
    refine (conj Hwf' (conj Hc (conj Hs (conj Ht _)))).
    rewrite Hcap'.
    rewrite (size_sub_exact (capacity (vec w)) (size (vec w))) by lia.
    rewrite Z.gtb_ltb.
    destruct (Z.ltb_spec (capacity (vec w) - size (vec w)) additional)
      as [Hneed | Hfits].
    + is_false (additional <=? capacity (vec w) - size (vec w)).
      rewrite Hcap' in Hmono.
      rewrite (size_sub_exact (capacity (vec w)) (size (vec w))) in Hmono
        by lia.
      replace (additional >? capacity (vec w) - size (vec w)) with true
        in Hmono by (symmetry; zbool).
      unfold is_size in Hadd.
      destruct (Z.lt_ge_cases (capacity (vec w) + additional) SIZE_MOD)
        as [Hlt | Hge].
      * apply size_add_exact; lia.
      * pose proof (size_add_wraps (capacity (vec w)) additional
                      ltac:(unfold is_size; lia) ltac:(unfold is_size; lia)
                      Hge). lia.
    + now is_true (additional <=? capacity (vec w) - size (vec w)).
Qed.

(** ** Clearing and shrinking *)

Lemma clear_run (el_size : Z) (w : world) :
  wf el_size w ->
  _vec2_clear el_size w = Ret (tt, mkWorld vec2_zero None (allocator w)).
Proof.
  intros Hwf. pose proof Hwf as (Hel & Hsz & Hst & Hlive & Hheap).
  unfold _vec2_clear. mrun. rewrite (wf_mem el_size w Hwf).
  destruct (heap w) as [b |] eqn:Hb.
  - destruct Hheap as (Hcap & Hbase & Hdata & Hblen & Hmax).
    pose proof (wf_products el_size w b (_start (vec w)) Hwf Hb ltac:(lia)).
    replace (data (vec w) =? NULL) with false
      by (symmetry; unfold NULL; zbool).
    mrun. unfold bind, free. rewrite Hb, Z.eqb_refl. reflexivity.
  - destruct Hheap as [Hcap Hdata]. rewrite Hdata.
    change (NULL =? NULL) with true. mrun.
    unfold upd_vec, with_vec. now rewrite Hb.
Qed.

Lemma wf_cleared (el_size : Z) (replies : list alloc_reply) :
  0 < el_size -> wf el_size (mkWorld vec2_zero None replies).
Proof. intros Hel. unfold wf. cbn. repeat split; lia. Qed.

(** X11. [vec2_clear] on a valid buffer frees the block and leaves the
    zeroed structure of a fresh vector, with no allocation; clearing
    again changes nothing more. *)
Theorem clear_resets_and_is_idempotent (w : world) (el_size : Z) :
  wf el_size w ->
  vec2_clear el_size w = Ret (tt, initial_world (allocator w)) /\
  (vec2_clear el_size ;;; vec2_clear el_size) w
  = Ret (tt, initial_world (allocator w)).
Proof.
  intros Hwf. pose proof Hwf as (Hel & _).
  assert (Hone : forall u, wf el_size u ->
            vec2_clear el_size u = Ret (tt, initial_world (allocator u))).
  { intros u Hu. unfold vec2_clear, _vec2_impl_clear. mrun.
    rewrite (wf_valid el_size u Hu). now apply clear_run. }
  split; [now apply Hone |].
  rewrite (bind_Ret _ _ _ _ _ (Hone w Hwf)).
  apply (Hone (initial_world (allocator w))).
  now apply wf_cleared.
Qed.

(** X12. Shrink-to-fit of an empty valid buffer returns [TRUE] and does
    what clearing does: the block is freed and the structure zeroed, so
    the front slack a removal may have left is gone too. *)
Theorem shrink_of_empty_releases (w : world) (el_size : Z) :
  wf el_size w ->
  size (vec w) = 0 ->
  vec2_shrink_to_fit el_size w = Ret (TRUE, initial_world (allocator w)).
Proof.
  intros Hwf Hempty. pose proof Hwf as (Hel & _).
  unfold vec2_shrink_to_fit, _vec2_impl_shrink. mrun.
  rewrite (wf_valid el_size w Hwf). is_false (el_size =? 0). mrun.
  rewrite Hempty. change (0 =? 0) with true. mrun.
  now rewrite (bind_Ret _ _ _ _ _ (clear_run el_size w Hwf)).
Qed.

(** The reallocation that ends a shrink-to-fit, from a valid buffer with
    no front slack. *)
Lemma shrink_realloc (el_size n : Z) (w1 : world) :
  wf el_size w1 ->
  _start (vec w1) = 0 -> 0 < size (vec w1) ->
  size (vec w1) * el_size <= n < SIZE_MOD ->
  exists ok w',
    (new_mem <- realloc (data (vec w1)) n ;;
     if new_mem =? NULL then ret FALSE else
     upd_vec (fun v => set_capacity (size v) (set_data new_mem v)) ;;;
     ret TRUE) w1 = Ret (ok, w') /\
    (ok = FALSE -> same_buffer w1 w') /\
    (ok = TRUE ->
     wf el_size w' /\
     content el_size w' = content el_size w1 /\
     size (vec w') = size (vec w1) /\
     _start (vec w') = 0 /\
     capacity (vec w') = size (vec w1) /\
     exists b', heap w' = Some b' /\ Z.of_nat (length (bytes b')) = n).
Proof.
  intros Hwf Hst0 Hsz Hn.
  pose proof Hwf as (Hel & _ & _ & Hlive & Hheap).
  destruct (heap w1) as [b |] eqn:Hb; [| lia].
  destruct Hheap as (Hcap & Hbase & Hdata & Hblen & Hmax).
  pose proof (wf_products el_size w1 b (size (vec w1)) Hwf Hb ltac:(lia))
    as Hpz.
  assert (Hdata0 : data (vec w1) = base b) by (rewrite Hdata, Hst0; lia).
  rewrite Hdata0.
  destruct (realloc_at_base_returns n w1 b Hb) as (r & w2 & Hre).
  rewrite (bind_Ret _ _ _ _ _ Hre).
  destruct (Z.eqb_spec r NULL) as [-> | Hgranted].
  - exists FALSE, w2. split; [reflexivity |].
    split; [intros _; now apply realloc_null in Hre |].
    intros Ht. discriminate Ht.
  - destruct (realloc_granted _ _ _ _ _ Hre Hgranted)
      as (addr & fresh & -> & Hv2 & Hh2).
    rewrite Hb in Hh2.
    replace (base b =? NULL) with false in Hh2
      by (symmetry; unfold NULL; zbool).
    mrun. do 2 eexists. split; [reflexivity |].
    split; [intros Hf; discriminate Hf |]. intros _. proj.
    rewrite Hv2, Hh2.
    assert (Hlen : Z.of_nat (length (resize n (bytes b) fresh)) = n)
      by (apply resize_length; lia).
    split; [| split; [| split; [reflexivity | split; [exact Hst0 |
            split; [reflexivity |
                    eexists; split; [reflexivity | exact Hlen]]]]]].
    + unfold wf. proj. rewrite Hh2. proj. rewrite Hlen, Hst0.
      repeat split; lia.
    + unfold content. rewrite Hb. proj. rewrite Hh2. proj.
      rewrite Hdata0, !Z.sub_diag.
      apply slice_resize; lia.
Qed.

(** X13. Shrink-to-fit of a non-empty valid buffer returns, and whatever
    it returns the content and [size] are the same and the buffer is
    valid.  With [size == capacity] or [capacity <= 8] it returns [TRUE]
    and changes nothing.  Otherwise, when it returns [TRUE], the front
    slack is gone ([_start == 0]), the block holds [max(size, 8)] elements
    and [capacity] is [size]. *)
Theorem shrink_keeps_content (w : world) (el_size : Z) :
  wf el_size w ->
  0 < size (vec w) ->
  exists ok w',
    vec2_shrink_to_fit el_size w = Ret (ok, w') /\
    wf el_size w' /\
    content el_size w' = content el_size w /\
    size (vec w') = size (vec w) /\
    (size (vec w) = capacity (vec w)
     \/ capacity (vec w) <= VEC2_INITIAL_CAPACITY ->
     ok = TRUE /\ w' = w) /\
    (ok = TRUE ->
     size (vec w) < capacity (vec w) ->
     VEC2_INITIAL_CAPACITY < capacity (vec w) ->
     _start (vec w') = 0 /\
     capacity (vec w') = size (vec w) /\
     exists b',
       heap w' = Some b' /\
       Z.of_nat (length (bytes b'))
       = Z.max (size (vec w)) VEC2_INITIAL_CAPACITY * el_size).
Proof.
  intros Hwf Hsome.
  pose proof (wf_valid el_size w Hwf) as Hvalid.
  pose proof (wf_capacity_range el_size w Hwf) as Hcr.
  pose proof Hwf as (Hel & Hsz & Hst & Hlive & Hheap).
  unfold vec2_shrink_to_fit, _vec2_impl_shrink. mrun. rewrite Hvalid.
  is_false (el_size =? 0). is_false (size (vec w) =? 0). mrun.
  unfold VEC2_INITIAL_CAPACITY in *.
  destruct (Z.ltb_spec (size (vec w)) (capacity (vec w))) as [Hspare | Hfull];
    [| mrun; exists TRUE, w; split; [reflexivity |];
       repeat split; auto; lia].
  destruct (Z.ltb_spec 8 (capacity (vec w))) as [Hbig | Hsmall];
    [| is_false (capacity (vec w) >? 8); mrun; exists TRUE, w;
       split; [reflexivity |]; repeat split; auto; lia].
  is_true (capacity (vec w) >? 8). mrun.
  destruct (heap w) as [b |] eqn:Hb; [| lia].
  destruct Hheap as (Hcap & Hbase & Hdata & Hblen & Hmax).
  pose proof (wf_products el_size w b (size (vec w)) Hwf Hb ltac:(lia))
    as Hpz.
  pose proof (wf_products el_size w b (_start (vec w)) Hwf Hb ltac:(lia))
    as Hpt.
  pose proof (wf_products el_size w b (_start (vec w) + size (vec w))
                Hwf Hb ltac:(lia)) as Hps.
  pose proof (wf_products el_size w b 8 Hwf Hb ltac:(lia)) as Hp8.
  set (new_capacity := if size (vec w) >? 8 then size (vec w) else 8).
  assert (Hnew : new_capacity = Z.max (size (vec w)) 8).
  { subst new_capacity. destruct (Z.gtb_spec (size (vec w)) 8); lia. }
  assert (Hn : size (vec w) * el_size <= new_capacity * el_size < SIZE_MOD)
    by (rewrite Hnew; nia).
  rewrite (size_mul_exact new_capacity el_size) by nia.
  (* the world the reallocation starts from *)
  assert (Hcompact :
            exists w1,
              (if _start (vec w) >? 0
               then
                 memmove (vec2_mem (vec w) el_size) (data (vec w))
                   (size_mul el_size (size (vec w))) ;;;
                 upd_vec (fun v => set_start 0
                                     (set_data (vec2_mem (vec w) el_size) v))
               else ret tt) w = Ret (tt, w1) /\
              wf el_size w1 /\ content el_size w1 = content el_size w /\
              size (vec w1) = size (vec w) /\ _start (vec w1) = 0).
  { destruct (Z.gtb_spec (_start (vec w)) 0) as [Hslack | Hnone].
    - pose proof (wf_mem el_size w Hwf) as Hmem. rewrite Hb in Hmem.
      erewrite bind_Ret;
        [| apply (memmove_ok _ b);
           [exact Hb
           | apply in_block_iff; rewrite size_mul_exact by nia; nia
           | apply in_block_iff; rewrite Hmem, size_mul_exact by nia; nia]].
      eexists. split; [reflexivity |].
      match goal with
      | |- wf _ ?u /\ _ =>
          destruct (compaction_keeps_content el_size w u b Hwf Hb)
            as [Hc Hw]; [reflexivity | reflexivity |]
      end.
      split; [exact Hw |]. split; [exact Hc |]. split; reflexivity.
    - exists w. split; [reflexivity |].
      split; [exact Hwf |]. split; [reflexivity |].
      split; [reflexivity | lia]. }
  destruct Hcompact as (w1 & Hmove & Hwf1 & Hc1 & Hs1 & Ht1).
  rewrite (bind_Ret _ _ _ _ _ Hmove). mrun.
  destruct (shrink_realloc el_size (new_capacity * el_size) w1 Hwf1 Ht1)
    as (ok & w' & Hrun & Hfalse & Htrue); [lia | rewrite Hs1; exact Hn |].
  exists ok, w'. split; [exact Hrun |].
  destruct ok.
  - destruct (Htrue eq_refl)
      as (Hwf' & Hc' & Hs' & Ht' & Hcap' & b' & Hb' & Hl').
    split; [exact Hwf' |]. split; [congruence |]. split; [congruence |].
    split; [lia |]. intros _ _ _.
    split; [exact Ht' |]. split; [congruence |].
    exists b'. split; [exact Hb' |]. now rewrite Hl', Hnew.
  - pose proof (Hfalse eq_refl) as Hsame.
    split; [now apply (wf_same_buffer el_size w1 w') |].
    split; [rewrite (content_same_buffer el_size w1 w' Hsame); exact Hc1 |].
    destruct Hsame as [Hv _].
    split; [rewrite Hv; exact Hs1 |].
    split; [lia |]. intros Ht. discriminate Ht.
Qed.

(** ** Exchanging two elements *)

Lemma skipn_same (x y t : list byte) :
  length x = length y -> skipn (length x) (y ++ t) = t.
Proof.
  intros H. rewrite H, skipn_app, Nat.sub_diag, skipn_all. reflexivity.
Qed.

(** One pass exchanges two runs of [n] bytes that do not overlap, in
    whichever order they are named. *)
Lemma swap_pass_run (w : world) (b : block) (P A M B T : list byte) (n : Z) :
  heap w = Some b ->
  bytes b = P ++ A ++ M ++ B ++ T ->
  Z.of_nat (length A) = n -> Z.of_nat (length B) = n ->
  let lo := base b + Z.of_nat (length P) in
  let hi := lo + n + Z.of_nat (length M) in
  let w' := with_heap (Some (mkBlock (base b) (P ++ B ++ M ++ A ++ T))) w in
  swap_pass lo hi n w = Ret (tt, w') /\ swap_pass hi lo n w = Ret (tt, w').
Proof.
  intros Hb Hbytes HA HB lo hi w'.
  assert (Hlo : lo - base b = Z.of_nat (length P)) by (subst lo; lia).
  assert (Hhi : hi - base b = Z.of_nat (length (P ++ A ++ M)))
    by (subst hi lo; rewrite !length_app; lia).
  assert (Hin_lo : forall l, length l = length (bytes b) ->
                             in_block (mkBlock (base b) l) lo n = true).
  { intros l Hl. apply in_block_iff. cbn. rewrite Hl, Hbytes, !length_app.
    subst lo. lia. }
  assert (Hin_hi : forall l, length l = length (bytes b) ->
                             in_block (mkBlock (base b) l) hi n = true).
  { intros l Hl. apply in_block_iff. cbn. rewrite Hl, Hbytes, !length_app.
    subst hi lo. lia. }
  assert (Hapart : (0 <? n) && (Z.abs (lo - hi) <? n) = false).
  { subst hi. destruct (Z.ltb_spec 0 n); [| reflexivity]. cbn. zbool. }
  assert (Hapart' : (0 <? n) && (Z.abs (hi - lo) <? n) = false).
  { subst hi. destruct (Z.ltb_spec 0 n); [| reflexivity]. cbn. zbool. }
  assert (Hb0 : b = mkBlock (base b) (bytes b)) by now destruct b.
  assert (Hload_lo : slice (lo - base b) n (bytes b) = A).
  { rewrite Hlo, Hbytes. now apply slice_mid. }
  assert (Hload_hi : slice (hi - base b) n (bytes b) = B).
  { rewrite Hhi, Hbytes.
    replace (P ++ A ++ M ++ B ++ T) with ((P ++ A ++ M) ++ B ++ T)
      by (now rewrite <- !app_assoc).
    now apply slice_mid. }
  split; unfold swap_pass, memcpy.
  - rewrite Hapart.
    rewrite (bind_Ret _ _ _ _ _ (load_ok w b lo n Hb
                                   ltac:(rewrite Hb0; now apply Hin_lo))).
    rewrite Hload_lo.
    rewrite (bind_Ret _ _ _ _ _ (memmove_ok w b lo hi n Hb
                                   ltac:(rewrite Hb0; now apply Hin_hi)
                                   ltac:(rewrite Hb0; now apply Hin_lo))).
    rewrite Hload_hi, Hlo, Hbytes, splice_at by reflexivity.
    rewrite (skipn_same B A) by lia.
    erewrite store_ok;
      [| reflexivity
       | rewrite HA; apply Hin_hi; rewrite Hbytes, !length_app; lia].
    proj. rewrite Hhi.
    replace (P ++ B ++ M ++ B ++ T) with ((P ++ B ++ M) ++ B ++ T)
      by (now rewrite <- !app_assoc).
    rewrite splice_at by (rewrite !length_app; lia).
    rewrite (skipn_same A B) by lia.
    subst w'. unfold with_heap. proj. now rewrite <- !app_assoc.
  - rewrite Hapart'.
    rewrite (bind_Ret _ _ _ _ _ (load_ok w b hi n Hb
                                   ltac:(rewrite Hb0; now apply Hin_hi))).
    rewrite Hload_hi.
    rewrite (bind_Ret _ _ _ _ _ (memmove_ok w b hi lo n Hb
                                   ltac:(rewrite Hb0; now apply Hin_lo)
                                   ltac:(rewrite Hb0; now apply Hin_hi))).
    rewrite Hload_lo, Hhi, Hbytes.
    replace (P ++ A ++ M ++ B ++ T) with ((P ++ A ++ M) ++ B ++ T)
      by (now rewrite <- !app_assoc).
    rewrite splice_at by reflexivity.
    rewrite (skipn_same A B) by lia.
    erewrite store_ok;
      [| reflexivity
       | rewrite HB; apply Hin_lo; rewrite Hbytes, !length_app; lia].
    proj. rewrite Hlo, <- !app_assoc, splice_at by reflexivity.
    rewrite (skipn_same B A) by lia.
    subst w'. unfold with_heap. proj. reflexivity.
Qed.

Lemma swap_loop_done (fuel : nat) (first second left_bytes : Z) :
  left_bytes < VEC2_SWAP_SIZE ->
  swap_loop fuel first second left_bytes = ret left_bytes.
Proof.
  intros H. destruct fuel; simpl; now is_false (left_bytes >=? VEC2_SWAP_SIZE).
Qed.

(** Where two elements of the live range sit in the block. *)
Lemma elements_in_block
  (el_size i j : Z) (w : world) (P A M B T : list byte) :
  wf el_size w ->
  0 <= i < j ->
  content el_size w = P ++ A ++ M ++ B ++ T ->
  Z.of_nat (length P) = i * el_size ->
  Z.of_nat (length A) = el_size ->
  Z.of_nat (length M) = (j - i - 1) * el_size ->
  Z.of_nat (length B) = el_size ->
  exists b P0 T0,
    heap w = Some b /\
    bytes b = (P0 ++ P) ++ A ++ M ++ B ++ T ++ T0 /\
    Z.of_nat (length P0) = _start (vec w) * el_size /\
    VEC2_GET (vec w) el_size i = base b + Z.of_nat (length (P0 ++ P)) /\
    VEC2_GET (vec w) el_size j
    = base b + Z.of_nat (length (P0 ++ P)) + el_size + Z.of_nat (length M) /\
    j < size (vec w).
Proof.
  intros Hwf Hij Hcontent HP HA HM HB.
  pose proof Hwf as (Hel & Hsz & Hst & Hlive & Hheap).
  destruct (heap w) as [b |] eqn:Hb.
  - destruct (content_split el_size w b Hwf Hb)
      as (P0 & T0 & Hbytes & HP0 & HX).
    destruct Hheap as (Hcap & Hbase & Hdata & Hblen & Hmax).
    rewrite Hcontent, !length_app in HX.
    assert (Hj : j < size (vec w)) by nia.
    pose proof (wf_products el_size w b i Hwf Hb ltac:(lia)) as Hpi.
    pose proof (wf_products el_size w b j Hwf Hb ltac:(lia)) as Hpj.
    exists b, P0, T0. split; [reflexivity |].
    split; [rewrite Hbytes, Hcontent; now rewrite <- !app_assoc |].
    split; [exact HP0 |].
    unfold VEC2_GET. rewrite !size_mul_exact by lia.
    rewrite length_app. repeat split; lia.
  - unfold content in Hcontent. rewrite Hb in Hcontent.
    destruct P; [destruct A; [cbn in HA; lia | discriminate] | discriminate].
Qed.

(** The world after two elements were exchanged. *)
Lemma exchanged_world
  (el_size : Z) (w : world) (b : block) (P0 P A M B T T0 : list byte) :
  wf el_size w ->
  heap w = Some b ->
  bytes b = (P0 ++ P) ++ A ++ M ++ B ++ T ++ T0 ->
  Z.of_nat (length P0) = _start (vec w) * el_size ->
  Z.of_nat (length A) = Z.of_nat (length B) ->
  Z.of_nat (length (P ++ A ++ M ++ B ++ T)) = size (vec w) * el_size ->
  let w' := with_heap
              (Some (mkBlock (base b)
                       ((P0 ++ P) ++ B ++ M ++ A ++ T ++ T0))) w in
  wf el_size w' /\ content el_size w' = P ++ B ++ M ++ A ++ T.
Proof.
  intros Hwf Hb Hbytes HP0 HAB HX w'.
  pose proof Hwf as (Hel & Hsz & Hst & Hlive & Hheap).
  rewrite Hb in Hheap. destruct Hheap as (Hcap & Hbase & Hdata & Hblen & Hmax).
  assert (Hlen : length ((P0 ++ P) ++ B ++ M ++ A ++ T ++ T0)
                 = length (bytes b)).
  { rewrite Hbytes, !length_app. lia. }
  split.
  - subst w'. unfold wf. proj. rewrite Hlen. auto 10.
  - subst w'. unfold content. proj. rewrite Hdata.
    replace (base b + _start (vec w) * el_size - base b)
      with (_start (vec w) * el_size) by lia.
    replace ((P0 ++ P) ++ B ++ M ++ A ++ T ++ T0)
      with (P0 ++ (P ++ B ++ M ++ A ++ T) ++ T0)
      by (now rewrite <- !app_assoc).
    apply slice_mid; [exact HP0 |].
    rewrite <- HX, !length_app. lia.
Qed.

(** X14. Elements of at most [VEC2_SWAP_SIZE] bytes are exchanged: with
    the live range read as [P ++ A ++ M ++ B ++ T], where [A] is element
    [i] and [B] element [j], the call returns [TRUE] for either order of
    the two indices and the live range is [P ++ B ++ M ++ A ++ T]; no
    field of the vector changes. *)
Theorem swap_exchanges_small_elements
  (fuel : nat) (w : world) (el_size i j : Z) (P A M B T : list byte) :
  wf el_size w ->
  el_size <= VEC2_SWAP_SIZE ->
  0 <= i < j ->
  content el_size w = P ++ A ++ M ++ B ++ T ->
  Z.of_nat (length P) = i * el_size ->
  Z.of_nat (length A) = el_size ->
  Z.of_nat (length M) = (j - i - 1) * el_size ->
  Z.of_nat (length B) = el_size ->
  exists w',
    _vec2_impl_swap (S fuel) i j el_size w = Ret (TRUE, w') /\
    _vec2_impl_swap (S fuel) j i el_size w = Ret (TRUE, w') /\
    vec w' = vec w /\
    wf el_size w' /\
    content el_size w' = P ++ B ++ M ++ A ++ T.
Proof.
  intros Hwf Hsmall Hij Hcontent HP HA HM HB.
  destruct (elements_in_block el_size i j w P A M B T Hwf Hij Hcontent
              HP HA HM HB)
    as (b & P0 & T0 & Hb & Hbytes & HP0 & Hgi & Hgj & Hj).
  pose proof (wf_valid el_size w Hwf) as Hvalid.
  pose proof Hwf as (Hel & _).
  pose proof (swap_pass_run w b (P0 ++ P) A M B (T ++ T0) el_size Hb Hbytes
                HA HB) as Hpasses.
  cbv zeta in Hpasses. destruct Hpasses as [Hfwd Hbwd].
  rewrite <- Hgj in Hfwd, Hbwd. rewrite <- Hgi in Hfwd, Hbwd.
  destruct (exchanged_world el_size w b P0 P A M B T T0 Hwf Hb Hbytes HP0
              ltac:(lia)) as [Hwf' Hc'].
  { rewrite <- Hcontent. apply content_length; assumption. }
  eexists. 
  unfold VEC2_SWAP_SIZE in *.
  assert (Hcall : forall a c, (a = i /\ c = j) \/ (a = j /\ c = i) ->
            _vec2_impl_swap (S fuel) a c el_size w
            = Ret (TRUE,
                   with_heap
                     (Some (mkBlock (base b)
                              ((P0 ++ P) ++ B ++ M ++ A ++ T ++ T0))) w)).
  { intros a c Hac. unfold _vec2_impl_swap. mrun. rewrite Hvalid.
    is_false (a >=? size (vec w)). is_false (c >=? size (vec w)).
    is_false (el_size =? 0). is_false (a =? c). proj.
    assert (Hpass : swap_pass (VEC2_GET (vec w) el_size a)
                      (VEC2_GET (vec w) el_size c) el_size w
                    = Ret (tt,
                           with_heap
                             (Some (mkBlock (base b)
                                      ((P0 ++ P) ++ B ++ M ++ A ++ T ++ T0)))
                             w))
      by (destruct Hac as [[-> ->] | [-> ->]]; assumption).
    destruct (Z.eq_dec el_size 24) as [H24 | H24].
    - simpl swap_loop. unfold VEC2_SWAP_SIZE.
      is_true (el_size >=? 24). rewrite !bind_assoc.
      rewrite H24 in Hpass |- *.
      rewrite (bind_Ret _ _ _ _ _ Hpass).
      rewrite (size_sub_exact 24 24) by (unfold SIZE_MOD; lia).
      rewrite swap_loop_done by (unfold VEC2_SWAP_SIZE; lia).
      mrun. reflexivity.
    - rewrite swap_loop_done by (unfold VEC2_SWAP_SIZE; lia).
      mrun. is_false (el_size =? 0). proj.
      rewrite (bind_Ret _ _ _ _ _ Hpass). reflexivity. }
  split; [apply Hcall; lia |]. split; [apply Hcall; lia |].
  split; [reflexivity |]. split; assumption.
Qed.

(** Two runs of [n] bytes of the block that do not overlap, the lower one
    at [lo]. *)
Lemma block_runs (b : block) (lo hi n : Z) :
  0 <= n -> base b <= lo -> lo + n <= hi ->
  hi + n <= base b + Z.of_nat (length (bytes b)) ->
  exists P A M B T,
    bytes b = P ++ A ++ M ++ B ++ T /\
    Z.of_nat (length A) = n /\ Z.of_nat (length B) = n /\
    lo = base b + Z.of_nat (length P) /\
    hi = lo + n + Z.of_nat (length M).
Proof.
  intros Hn Hlo Hhi Hend.
  destruct (split_at (bytes b) (lo - base b) ltac:(lia))
    as (P & L1 & H1 & HP & HL1).
  destruct (split_at L1 n ltac:(lia)) as (A & L2 & -> & HA & HL2).
  destruct (split_at L2 (hi - lo - n) ltac:(lia)) as (M & L3 & -> & HM & HL3).
  destruct (split_at L3 n ltac:(lia)) as (B & T & -> & HB & HT).
  exists P, A, M, B, T. repeat split; auto; lia.
Qed.

Lemma with_heap_same (w : world) (b : block) (l : list byte) :
  heap w = Some b -> bytes b = l ->
  with_heap (Some (mkBlock (base b) l))
    (with_heap (Some (mkBlock (base b) l)) w) = w /\
  forall l', with_heap (Some (mkBlock (base b) l))
               (with_heap (Some (mkBlock (base b) l')) w) = w.
Proof.
  destruct w as [v h a], b as [ba by']. cbn. intros -> <-. split; reflexivity.
Qed.

(** Two passes over the same two runs put the block back as it was. *)
Lemma swap_pass_twice (w : world) (b : block) (first second n : Z) :
  heap w = Some b ->
  0 <= n -> base b <= first -> base b <= second ->
  first + n <= second \/ second + n <= first ->
  first + n <= base b + Z.of_nat (length (bytes b)) ->
  second + n <= base b + Z.of_nat (length (bytes b)) ->
  (swap_pass first second n ;;; swap_pass first second n) w = Ret (tt, w).
Proof.
  intros Hb Hn Hf Hs Hapart Hfe Hse.
  destruct Hapart as [Hlt | Hgt].
  - destruct (block_runs b first second n Hn Hf Hlt Hse)
      as (P & A & M & B & T & Hbytes & HA & HB & Hlo & Hhi).
    pose proof (swap_pass_run w b P A M B T n Hb Hbytes HA HB) as H1.
    cbv zeta in H1. rewrite <- Hlo, <- Hhi in H1. destruct H1 as [H1 _].
    rewrite (bind_Ret _ _ _ _ _ H1).
    pose proof (swap_pass_run
                  (with_heap (Some (mkBlock (base b) (P ++ B ++ M ++ A ++ T)))
                     w)
                  (mkBlock (base b) (P ++ B ++ M ++ A ++ T))
                  P B M A T n eq_refl eq_refl HB HA) as H2.
    cbv zeta in H2. proj. rewrite <- Hlo, <- Hhi in H2. destruct H2 as [H2 _].
    rewrite H2. rewrite <- Hbytes.
    now rewrite (proj2 (with_heap_same w b (bytes b) Hb eq_refl)).
  - destruct (block_runs b second first n Hn Hs Hgt Hfe)
      as (P & A & M & B & T & Hbytes & HA & HB & Hlo & Hhi).
    pose proof (swap_pass_run w b P A M B T n Hb Hbytes HA HB) as H1.
    cbv zeta in H1. rewrite <- Hlo, <- Hhi in H1. destruct H1 as [_ H1].
    rewrite (bind_Ret _ _ _ _ _ H1).
    pose proof (swap_pass_run
                  (with_heap (Some (mkBlock (base b) (P ++ B ++ M ++ A ++ T)))
                     w)
                  (mkBlock (base b) (P ++ B ++ M ++ A ++ T))
                  P B M A T n eq_refl eq_refl HB HA) as H2.
    cbv zeta in H2. proj. rewrite <- Hlo, <- Hhi in H2. destruct H2 as [_ H2].
    rewrite H2. rewrite <- Hbytes.
    now rewrite (proj2 (with_heap_same w b (bytes b) Hb eq_refl)).
Qed.

(** The loop never moves on to the next chunk of the elements: every pass
    exchanges their first [VEC2_SWAP_SIZE] bytes, so an even number of
    passes does nothing. *)
Lemma swap_loop_even_passes
  (w : world) (b : block) (first second : Z) (k : nat) :
  heap w = Some b ->
  base b <= first -> base b <= second ->
  first + VEC2_SWAP_SIZE <= second \/ second + VEC2_SWAP_SIZE <= first ->
  first + VEC2_SWAP_SIZE <= base b + Z.of_nat (length (bytes b)) ->
  second + VEC2_SWAP_SIZE <= base b + Z.of_nat (length (bytes b)) ->
  2 * VEC2_SWAP_SIZE * Z.of_nat k < SIZE_MOD ->
  forall fuel, (2 * k <= fuel)%nat ->
  swap_loop fuel first second (2 * VEC2_SWAP_SIZE * Z.of_nat k) w
  = Ret (0, w).
Proof.
  intros Hb Hf Hs Hapart Hfe Hse. unfold VEC2_SWAP_SIZE in *.
  induction k as [| k IH]; intros Hmax fuel Hfuel.
  - rewrite swap_loop_done by (unfold VEC2_SWAP_SIZE; lia). reflexivity.
  - destruct fuel as [| [| fuel]]; [lia | lia |].
    cbn [swap_loop]. unfold VEC2_SWAP_SIZE.
    is_true (2 * 24 * Z.of_nat (S k) >=? 24).
    rewrite (size_sub_exact (2 * 24 * Z.of_nat (S k)) 24) by lia.
    is_true (2 * 24 * Z.of_nat (S k) - 24 >=? 24).
    rewrite (size_sub_exact (2 * 24 * Z.of_nat (S k) - 24) 24) by lia.
    replace (2 * 24 * Z.of_nat (S k) - 24 - 24) with (2 * 24 * Z.of_nat k)
      by lia.
    rewrite <- bind_assoc.
    rewrite (bind_Ret _ _ _ _ _
               (swap_pass_twice w b first second 24 Hb ltac:(lia) Hf Hs
                  Hapart Hfe Hse)).
    apply IH; lia.
Qed.

(** X15. Elements whose size is a multiple of [2 * VEC2_SWAP_SIZE] are
    not exchanged: the call on two distinct elements of the vector
    returns [TRUE] and leaves the vector and the block exactly as they
    were. *)
Theorem swap_of_even_chunks_changes_nothing
  (fuel k : nat) (w : world) (el_size first second : Z) :
  wf el_size w ->
  el_size = 2 * VEC2_SWAP_SIZE * Z.of_nat k ->
  (2 * k <= fuel)%nat ->
  0 <= first < size (vec w) -> 0 <= second < size (vec w) ->
  first <> second ->
  _vec2_impl_swap fuel first second el_size w = Ret (TRUE, w).
Proof.
  intros Hwf Hel2 Hfuel Hfirst Hsecond Hdiff.
  pose proof (wf_valid el_size w Hwf) as Hvalid.
  pose proof Hwf as (Hel & Hsz & Hst & Hlive & Hheap).
  destruct (heap w) as [b |] eqn:Hb; [| lia].
  destruct Hheap as (Hcap & Hbase & Hdata & Hblen & Hmax).
  pose proof (wf_products el_size w b 1 Hwf Hb ltac:(lia)) as Hp1.
  pose proof (wf_products el_size w b first Hwf Hb ltac:(lia)) as Hpf.
  pose proof (wf_products el_size w b second Hwf Hb ltac:(lia)) as Hps.
  pose proof (wf_products el_size w b (first + 1) Hwf Hb ltac:(lia)) as Hpf1.
  pose proof (wf_products el_size w b (second + 1) Hwf Hb ltac:(lia)) as Hps1.
  pose proof (wf_products el_size w b (_start (vec w)) Hwf Hb ltac:(lia))
    as Hpt.
  pose proof (wf_products el_size w b (_start (vec w) + first + 1)
                Hwf Hb ltac:(lia)) as Hptf.
  pose proof (wf_products el_size w b (_start (vec w) + second + 1)
                Hwf Hb ltac:(lia)) as Hpts.
  unfold VEC2_SWAP_SIZE in *.
  unfold _vec2_impl_swap. mrun. rewrite Hvalid.
  is_false (first >=? size (vec w)). is_false (second >=? size (vec w)).
  is_false (el_size =? 0). is_false (first =? second). proj.
  unfold VEC2_GET. rewrite !size_mul_exact by lia.
  assert (Hloop : swap_loop fuel (data (vec w) + first * el_size)
                    (data (vec w) + second * el_size)
                    (2 * 24 * Z.of_nat k) w = Ret (0, w)).
  { assert (Hbig : 24 <= el_size) by lia.
    assert (Hapart : (first + 1) * el_size <= second * el_size \/
                     (second + 1) * el_size <= first * el_size).
    { destruct (Z.lt_ge_cases first second);
        [left | right]; apply Z.mul_le_mono_nonneg_r; lia. }
    rewrite !Z.mul_add_distr_r, ?Z.mul_1_l in *.
    apply (swap_loop_even_passes w b); unfold VEC2_SWAP_SIZE;
      [exact Hb | lia | lia | lia | lia | lia | lia | exact Hfuel]. }
  rewrite <- Hel2 in Hloop. rewrite bind_assoc.
  rewrite (bind_Ret _ _ _ _ _ Hloop). reflexivity.
Qed.

(** ** Appending, and the round trips with removal *)

(** X16. [vec2_push_multi(val, len)] appends: whenever it returns [TRUE],
    with or without growth of the block, the content is the old content
    followed by the [len] new elements, [size] is [len] more and the
    buffer is valid.  (A buffer emptied by removal may have kept a stale
    [_start]; it is left out here.) *)
Theorem push_multi_appends
  (fuel : nat) (w w' : world) (len el_size : Z) (val : list byte) :
  wf el_size w ->
  0 < len < UINT_MOD ->
  (size (vec w) = 0 -> _start (vec w) = 0) ->
  len * el_size <= Z.of_nat (length val) ->
  vec2_push_multi fuel (Some val) len el_size w = Ret (TRUE, w') ->
  content el_size w'
  = content el_size w ++ firstn (Z.to_nat (len * el_size)) val /\
  size (vec w') = size (vec w) + len /\
  wf el_size w'.
Proof.
  intros Hwf Hlen Hfresh Hval Hrun.
  pose proof Hwf as (Hel & Hsz & _).
  pose proof (content_length el_size w Hwf) as HX.
  unfold vec2_push_multi, vec2_insert_multi in Hrun.
  rewrite bind_get_vec in Hrun.
  destruct (insert_at_end_or_behind_slack fuel w w' (size (vec w)) len
              el_size val Hwf ltac:(lia) Hlen Hfresh ltac:(auto) Hval Hrun)
    as (Hc & Hs & Hwf').
  split; [| split; assumption].
  rewrite Hc, firstn_all2, skipn_all2, app_nil_r by lia. reflexivity.
Qed.

(** X17. Pushing and popping again is the identity on the content:
    after a [vec2_push_multi(val, len)] that returned [TRUE],
    [vec2_pop_multi(len, out)] returns [TRUE], hands back the elements
    pushed and leaves the content and [size] of before the push. *)
Theorem push_then_pop_round_trip
  (fuel : nat) (w w1 : world) (len el_size : Z) (val out : list byte) :
  wf el_size w ->
  0 < len < UINT_MOD ->
  (size (vec w) = 0 -> _start (vec w) = 0) ->
  Z.of_nat (length val) = len * el_size ->
  len * el_size <= Z.of_nat (length out) ->
  vec2_push_multi fuel (Some val) len el_size w = Ret (TRUE, w1) ->
  exists w2,
    vec2_pop_multi len el_size (Some out) w1
    = Ret ((TRUE, Some (val ++ skipn (Z.to_nat (len * el_size)) out)), w2) /\
    content el_size w2 = content el_size w /\
    size (vec w2) = size (vec w) /\
    wf el_size w2.
Proof.
  intros Hwf Hlen Hfresh Hval Hout Hrun.
  pose proof Hwf as (Hel & Hsz & _).
  pose proof (content_length el_size w Hwf) as HX.
  unfold vec2_push_multi, vec2_insert_multi in Hrun.
  rewrite bind_get_vec in Hrun.
  destruct (insert_at_end_or_behind_slack fuel w w1 (size (vec w)) len
              el_size val Hwf ltac:(lia) Hlen Hfresh ltac:(auto)
              ltac:(lia) Hrun)
    as (Hc & Hs & Hwf1).
  rewrite firstn_all2, skipn_all2, app_nil_r in Hc by lia.
  rewrite firstn_all2 in Hc by lia.
  pose proof (wf_capacity_range el_size w1 Hwf1) as Hcr.
  pose proof Hwf1 as (_ & Hsz1 & Hst1 & Hlive1 & _).
  unfold vec2_pop_multi, vec2_remove. rewrite bind_get_vec.
  rewrite (size_sub_exact (size (vec w1)) len) by lia.
  rewrite (remove_at_end_run w1 (size (vec w1) - len) len el_size (Some out)
             Hwf1 ltac:(lia) ltac:(lia))
    by (intros o [= <-]; exact Hout).
  eexists. split; [| split; [| split]].
  - unfold removed_to. cbn [option_map]. rewrite Hc, Hs.
    replace (size (vec w) + len - len) with (size (vec w)) by lia.
    rewrite (slice_end (content el_size w) val) by lia.
    reflexivity.
  - rewrite content_truncated by (auto; lia).
    rewrite Hc.
    rewrite firstn_app, firstn_all2 by lia.
    replace (Z.to_nat (size (vec w) * el_size)
             - length (content el_size w))%nat with 0%nat by lia.
    cbn. apply app_nil_r.
  - proj. lia.
  - apply wf_truncated; [exact Hwf1 | lia].
Qed.

(** X18. Taking [len] elements off the front and putting them back is
    the identity on the content: on a valid buffer of more than [len]
    elements [vec2_shift_multi(len, out)] returns [TRUE], and
    [vec2_unshift_multi] of what [out] received returns [TRUE] too,
    without growing the block, and restores content, [size] and
    [capacity]. *)
Theorem shift_then_unshift_round_trip
  (fuel : nat) (w : world) (len el_size : Z) (out : list byte) :
  wf el_size w ->
  0 < len < size (vec w) ->
  len * el_size <= Z.of_nat (length out) ->
  exists out' w1 w2,
    vec2_shift_multi len el_size (Some out) w
    = Ret ((TRUE, Some out'), w1) /\
    vec2_unshift_multi fuel (Some out') len el_size w1 = Ret (TRUE, w2) /\
    content el_size w2 = content el_size w /\
    size (vec w2) = size (vec w) /\
    capacity (vec w2) = capacity (vec w) /\
    wf el_size w2.
Proof.
  intros Hwf Hlen Hout.
  pose proof Hwf as (Hel & Hsz & Hst & Hlive & _).
  pose proof (content_length el_size w Hwf) as HX.
  pose proof (wf_advanced el_size len w Hwf ltac:(lia)) as Hwf1.
  pose proof (content_advanced el_size len w Hwf ltac:(lia)) as Hc1.
  set (w1 := with_vec (front_advanced el_size len (vec w)) w) in *.
  assert (Hv1 : size (vec w1) = size (vec w) - len /\
                capacity (vec w1) = capacity (vec w) /\
                _start (vec w1) = _start (vec w) + len).
  { subst w1. unfold front_advanced. is_true (len <? size (vec w)).
    proj. auto. }
  destruct Hv1 as (Hs1 & Hcap1 & Hst1).
  set (out' := slice (0 * el_size) (len * el_size) (content el_size w)
               ++ skipn (Z.to_nat (len * el_size)) out).
  assert (Hhead : firstn (Z.to_nat (len * el_size)) out'
                  = firstn (Z.to_nat (len * el_size)) (content el_size w)).
  { subst out'. change (0 * el_size) with 0. rewrite slice_all_prefix.
    rewrite firstn_app, firstn_firstn, Nat.min_id, length_firstn.
    replace (Z.to_nat (len * el_size)
             - Nat.min (Z.to_nat (len * el_size))
                 (length (content el_size w)))%nat with 0%nat by nia.
    cbn. apply app_nil_r. }
  assert (Hfit : len * el_size <= Z.of_nat (length out')).
  { subst out'. rewrite length_app, Nat2Z.inj_add, slice_length by nia. lia. }
  destruct (insert_without_forward_shift fuel w1 0 len el_size out' Hwf1)
    as (w2 & Hins & Hc2 & Hs2 & Hcap2 & Hwf2); try lia.
  exists out', w1, w2.
  split; [unfold vec2_shift_multi, vec2_remove;
          rewrite remove_at_front_run by
            (auto; try lia; intros o [= <-]; exact Hout);
          reflexivity |].
  split; [exact Hins |].
  split; [| split; [lia | split; [lia | exact Hwf2]]].
  rewrite Hc2, Hhead, Hc1. change (0 * el_size) with 0.
  cbn [Z.to_nat firstn skipn app].
  apply firstn_skipn.
Qed.

(** ** The growth loop *)

(** X19. Insertion that needs more room than a buffer of capacity one
    has never returns: the growth loop of [_vec2_create_hole] starts from
    [capacity >> 1], which is zero, and [(0 << 1) + (0 >> 1)] is zero
    again.  The call does not end for any number of rounds. *)
Theorem insert_into_capacity_one_never_returns
  (fuel : nat) (w : world) (idx len el_size : Z) (val : list byte) :
  wf el_size w ->
  capacity (vec w) = 1 ->
  0 <= idx <= size (vec w) ->
  0 < len ->
  1 < size (vec w) + len < SIZE_MOD ->
  vec2_insert_multi fuel idx (Some val) len el_size w = Diverge.
Proof.
  intros Hwf Hcap Hidx Hlen Hroom.
  pose proof (wf_valid el_size w Hwf) as Hvalid.
  pose proof Hwf as (Hel & Hsz & _).
  unfold vec2_insert_multi, _vec2_impl_insert. mrun. rewrite Hvalid.
  is_false (el_size =? 0). is_true (len >? 0). mrun.
  unfold _vec2_create_hole. mrun.
  is_false (len <=? 0). is_false (idx >? size (vec w)).
  rewrite (size_add_exact (size (vec w)) len) by lia.
  is_false (size (vec w) + len <? size (vec w)).
  is_true (size (vec w) + len >? capacity (vec w)).
  rewrite Hcap. cbn [negb orb]. change (1 =? 0) with false. cbn [negb].
  change (to_uint (shr1 1)) with 0.
  rewrite (grow_addition_zero_diverges fuel len Hlen).
  reflexivity.
Qed.

(** From one up, the growth loop at least doubles [addition] each round,
    so it reaches a [len] of at most [2^30] within thirty rounds. *)
Lemma grow_addition_returns (len : Z) :
  0 < len <= 2 ^ 30 ->
  forall (k fuel : nat) (addition : Z),
    (k <= fuel)%nat ->
    1 <= addition < UINT_MOD ->
    len <= addition * 2 ^ Z.of_nat k ->
    exists r, grow_addition fuel addition len = Some r.
Proof.
  intros Hlen.
  assert (Hdone : forall fuel addition,
            len <= addition -> grow_addition fuel addition len = Some addition).
  { intros fuel addition H.
    destruct fuel; simpl; now is_false (addition <? len). }
  induction k as [| k IH]; intros fuel addition Hfuel Ha Hreach.
  - exists addition. apply Hdone. change (2 ^ Z.of_nat 0) with 1 in Hreach. lia.
  - destruct (Z.ltb_spec addition len) as [Hless | Hcover];
      [| exists addition; now apply Hdone].
    destruct fuel as [| fuel]; [lia |].
    cbn [grow_addition]. is_true (addition <? len).
    assert (Hnext : uint_add (uint_shl1 addition) (shr1 addition)
                    = 2 * addition + addition / 2).
    { unfold uint_add, uint_shl1, shr1, to_uint, UINT_MOD.
      rewrite Z.shiftl_mul_pow2, Z.shiftr_div_pow2 by lia.
      change (2 ^ 1) with 2. change (2 ^ 30) with 1073741824 in Hlen.
      rewrite (Z.mod_small (addition * 2)) by lia.
      rewrite Z.mod_small by (Z.to_euclidean_division_equations; lia).
      lia. }
    rewrite Hnext.
    change (2 ^ 30) with 1073741824 in Hlen. unfold UINT_MOD in *.
    assert (Hhalf : 0 <= addition / 2 <= addition)
      by (Z.to_euclidean_division_equations; lia).
    is_false (2 * addition + addition / 2 <? addition).
    rewrite to_uint_small by (unfold UINT_MOD; lia).
    apply IH; [lia | lia |].
    rewrite Nat2Z.inj_succ, Z.pow_succ_r in Hreach by lia. nia.
Qed.

Lemma bind_returns {A B} (m : M A) (k : A -> M B) (w : world) :
  m w <> Diverge -> (forall a w', k a w' <> Diverge) ->
  bind m k w <> Diverge.
Proof.
  intros Hm Hk. unfold bind.
  destruct (m w) as [[a w'] | |]; [apply Hk | discriminate | now elim Hm].
Qed.

Lemma store_returns (a : Z) (bs : list byte) (w : world) :
  store a bs w <> Diverge.
Proof.
  unfold store. destruct (heap w) as [b |]; [| discriminate].
  destruct (in_block b a _); discriminate.
Qed.

Lemma memmove_returns (dst src n : Z) (w : world) :
  memmove dst src n w <> Diverge.
Proof.
  unfold memmove. apply bind_returns; [| intros; apply store_returns].
  unfold load. destruct (heap w) as [b |]; [| discriminate].
  destruct (in_block b src n); discriminate.
Qed.

Lemma memcpy_in_returns (dst n : Z) (val : list byte) (w : world) :
  memcpy_in dst val n w <> Diverge.
Proof.
  unfold memcpy_in. destruct (n <=? _); [apply store_returns | discriminate].
Qed.

(** What follows the two loops of [_vec2_create_hole] is straight-line
    code. *)
Ltac straight_line :=
  repeat first
    [ discriminate
    | apply memmove_returns
    | apply store_returns
    | apply memcpy_in_returns
    | apply bind_returns; [| intros ? ?]
    | match goal with
      | |- (if ?c then _ else _) _ <> Diverge => destruct c
      | |- (let _ := _ in _) _ <> Diverge => cbv zeta
      end ].

Lemma create_hole_returns
  (fuel : nat) (w : world) (idx len el_size : Z) :
  wf el_size w ->
  capacity (vec w) <> 1 -> capacity (vec w) < UINT_MOD ->
  len <= 2 ^ 30 ->
  (34 <= fuel)%nat ->
  _vec2_create_hole fuel idx len el_size w <> Diverge.
Proof.
  intros Hwf Hone Hcap Hlen Hfuel.
  pose proof (wf_capacity_range el_size w Hwf) as Hcr.
  unfold _vec2_create_hole. rewrite bind_get_vec.
  destruct (Z.leb_spec len 0) as [Hnone | Hsome]; cbn [orb];
    [discriminate |].
  destruct (_ || _); [discriminate |].
  apply bind_returns; [| intros; straight_line].
  destruct (_ >? capacity (vec w)); [| discriminate].
  set (addition := to_uint _).
  assert (Ha : 1 <= addition < UINT_MOD).
  { subst addition. unfold VEC2_INITIAL_CAPACITY.
    destruct (Z.eqb_spec (capacity (vec w)) 0) as [-> | Hnz]; cbn [negb].
    - unfold to_uint, UINT_MOD. cbn. lia.
    - pose proof (shr1_range (capacity (vec w)) ltac:(lia)) as Hshr.
      rewrite to_uint_small by lia.
      unfold shr1 in *. rewrite Z.shiftr_div_pow2 in * by lia.
      change (2 ^ 1) with 2 in *.
      Z.to_euclidean_division_equations; lia. }
  destruct (grow_addition_returns len ltac:(lia) 30 fuel addition
              ltac:(lia) Ha) as (r & Hr).
  { change (2 ^ Z.of_nat 30) with (2 ^ 30). nia. }
  rewrite Hr.
  pose proof (grow_addition_covers fuel len ltac:(unfold UINT_MOD;
                change (2 ^ 30) with 1073741824 in Hlen; lia)
                addition r ltac:(lia) Hr) as Hcover.
  destruct fuel as [| [| k]]; [lia | lia |].
  apply (reserve_retry_returns len el_size Hsome k r w); [| lia].
  split; [lia |].
  apply Z.lt_le_trans with (2 ^ 32); [change (2 ^ 32) with UINT_MOD; lia |].
  apply Z.pow_le_mono_r; lia.
Qed.


(** ** How much the buffer grows *)

(** A reservation the allocator grants. *)
Lemma reserve_granted
  (additional el_size : Z) (w : world) (addr : positive)
  (fresh : list byte) (rest : list alloc_reply) :
  wf el_size w ->
  capacity (vec w) - size (vec w) < additional ->
  (capacity (vec w) + additional) * el_size < SIZE_MOD ->
  allocator w = AllocAt addr fresh :: rest ->
  exists w1,
    _vec2_reserve additional el_size w = Ret (TRUE, w1) /\
    capacity (vec w1) = capacity (vec w) + additional /\
    allocator w1 = rest.
Proof.
  intros Hwf Hneed Hfits Hgrant.
  pose proof (wf_capacity_range el_size w Hwf) as Hcr.
  pose proof Hwf as (Hel & Hsz & Hst & Hlive & Hheap).
  unfold _vec2_reserve. mrun.
  rewrite (size_sub_exact (capacity (vec w)) (size (vec w))) by lia.
  is_true (additional >? capacity (vec w) - size (vec w)).
  rewrite (size_add_exact (capacity (vec w)) additional) by nia.
  is_false (capacity (vec w) + additional <? capacity (vec w)).
  is_false (el_size =? 0).
  rewrite (size_mul_exact (capacity (vec w) + additional) el_size) by nia.
  rewrite Z.div_mul, Z.eqb_refl by lia. cbn [negb].
  rewrite (wf_mem el_size w Hwf).
  assert (Hre : realloc (match heap w with
                         | Some b => base b
                         | None => NULL
                         end)
                  ((capacity (vec w) + additional) * el_size) w
                = Ret (Z.pos addr,
                       mkWorld (vec w)
                         (Some (mkBlock (Z.pos addr)
                                  (resize
                                     ((capacity (vec w) + additional)
                                      * el_size)
                                     match heap w with
                                     | Some b => bytes b
                                     | None => []
                                     end fresh))) rest)).
  { unfold realloc. rewrite Hgrant.
    destruct (heap w) as [b |] eqn:Hb.
    - destruct Hheap as (_ & Hbase & _).
      replace (base b =? NULL) with false by (symmetry; unfold NULL; zbool).
      now rewrite Z.eqb_refl.
    - reflexivity. }
  rewrite (bind_Ret _ _ _ _ _ Hre).
  change (Z.pos addr =? NULL) with false. mrun.
  eexists. split; [reflexivity |]. split; reflexivity.
Qed.

(** With room for the new elements the hole is made in the buffer as it
    is, and with a reservation granted at once it is made in the grown
    buffer. *)
Lemma create_hole_after_grant
  (fuel : nat) (w w1 : world) (idx len addition el_size : Z) :
  0 < len -> idx <= size (vec w) ->
  0 <= size (vec w) -> size (vec w) + len < SIZE_MOD ->
  capacity (vec w) < size (vec w) + len ->
  addition = to_uint (if negb (capacity (vec w) =? 0)
                      then shr1 (capacity (vec w))
                      else VEC2_INITIAL_CAPACITY) ->
  len <= addition ->
  _vec2_reserve addition el_size w = Ret (TRUE, w1) ->
  size (vec w1) = size (vec w) ->
  size (vec w1) + len <= capacity (vec w1) ->
  _vec2_create_hole (S fuel) idx len el_size w
  = _vec2_create_hole (S fuel) idx len el_size w1.
Proof.
  intros Hlen Hidx Hsz Hmax Hneed Ha Hcover Hres Hs1 Hroom.
  unfold _vec2_create_hole. rewrite !bind_get_vec. rewrite Hs1.
  rewrite (size_add_exact (size (vec w)) len) by lia.
  is_false (len <=? 0). is_false (idx >? size (vec w)).
  is_false (size (vec w) + len <? size (vec w)). cbn [orb].
  is_true (size (vec w) + len >? capacity (vec w)).
  is_false (size (vec w) + len >? capacity (vec w1)).
  rewrite <- Ha.
  assert (Hgrow : grow_addition (S fuel) addition len = Some addition)
    by (simpl; now is_false (addition <? len)).
  rewrite Hgrow.
  assert (Hretry : reserve_retry (S fuel) addition len el_size w
                   = Ret (TRUE, w1)).
  { cbn [reserve_retry]. now rewrite (bind_Ret _ _ _ _ _ Hres). }
  rewrite (bind_Ret _ _ _ _ _ Hretry). now rewrite bind_ret.
Qed.

(** X21. A push that outgrows the buffer adds half the capacity: when
    [size + len] exceeds the capacity, [len] is at most [capacity >> 1]
    (at most [VEC2_INITIAL_CAPACITY] for a buffer never allocated) and
    the allocator grants the request, [vec2_push_multi] returns [TRUE],
    the capacity has grown by [capacity >> 1] (to
    [VEC2_INITIAL_CAPACITY] from zero), and the new elements follow the
    old content. *)
Theorem push_grows_by_half
  (fuel : nat) (w : world) (len el_size : Z) (val : list byte)
  (addr : positive) (fresh : list byte) (rest : list alloc_reply) :
  wf el_size w ->
  (size (vec w) = 0 -> _start (vec w) = 0) ->
  capacity (vec w) < UINT_MOD ->
  0 < len <= first_addition (vec w) ->
  capacity (vec w) < size (vec w) + len ->
  (capacity (vec w) + first_addition (vec w)) * el_size < SIZE_MOD ->
  allocator w = AllocAt addr fresh :: rest ->
  len * el_size <= Z.of_nat (length val) ->
  exists w',
    vec2_push_multi (S fuel) (Some val) len el_size w = Ret (TRUE, w') /\
    capacity (vec w') = capacity (vec w) + first_addition (vec w) /\
    size (vec w') = size (vec w) + len /\
    content el_size w'
    = content el_size w ++ firstn (Z.to_nat (len * el_size)) val /\
    wf el_size w'.
Proof.
  intros Hwf Hfresh Hcap Hlen Hneed Hfits Hgrant Hval.
  set (addition := first_addition (vec w)) in *.
  pose proof (wf_valid el_size w Hwf) as Hvalid.
  pose proof (wf_capacity_range el_size w Hwf) as Hcr.
  pose proof (content_length el_size w Hwf) as HX.
  pose proof Hwf as (Hel & Hsz & Hst & Hlive & _).
  assert (Ha : addition = to_uint (if negb (capacity (vec w) =? 0)
                                   then shr1 (capacity (vec w))
                                   else VEC2_INITIAL_CAPACITY)).
  { subst addition. unfold first_addition, VEC2_INITIAL_CAPACITY.
    pose proof (shr1_range (capacity (vec w)) ltac:(lia)) as Hshr.
    destruct (capacity (vec w) =? 0); cbn [negb];
      rewrite to_uint_small; try reflexivity; unfold UINT_MOD in *; lia. }
  assert (Hapos : 0 < addition <= capacity (vec w) + 8).
  { pose proof (shr1_range (capacity (vec w)) ltac:(lia)) as Hshr.
    subst addition. unfold first_addition, VEC2_INITIAL_CAPACITY in *.
    destruct (capacity (vec w) =? 0); lia. }
  assert (Hsum : capacity (vec w) + addition
                 <= (capacity (vec w) + addition) * el_size).
  { rewrite <- (Z.mul_1_r (capacity (vec w) + addition)) at 1.
    apply Z.mul_le_mono_nonneg_l; lia. }
  destruct (reserve_granted addition el_size w addr fresh rest Hwf
              ltac:(lia) Hfits Hgrant) as (w1 & Hres & Hcap1 & _).
  destruct (reserve_succeeds el_size addition w w1 Hwf
              ltac:(unfold is_size, SIZE_MOD in *; lia) Hres)
    as (Hwf1 & Hc1 & Hs1 & Ht1 & Hroom1).
  pose proof (wf_valid el_size w1 Hwf1) as Hvalid1.
  destruct (insert_without_forward_shift (S fuel) w1 (size (vec w1)) len
              el_size val Hwf1)
    as (w' & Hins & Hc' & Hs' & Hcap' & Hwf'); try lia.
  exists w'. split; [| split; [lia | split; [lia | split; [| exact Hwf']]]].
  - unfold vec2_push_multi, vec2_insert_multi. rewrite bind_get_vec.
    rewrite <- Hins, <- Hs1.
    unfold _vec2_impl_insert. rewrite !bind_get_vec.
    rewrite Hvalid, Hvalid1.
    is_false (el_size =? 0). is_true (len >? 0). cbn [negb orb].
    unfold bind at 1 3.
    rewrite (create_hole_after_grant fuel w w1 (size (vec w1)) len addition
               el_size); auto; lia.
  - rewrite Hc', Hc1, Hs1.
    rewrite firstn_all2, skipn_all2, app_nil_r by lia. reflexivity.
Qed.

(** ** Sorting *)

Section Chunks.

Variable el : nat.

Lemma chunks_concat (n : nat) :
  forall l : list byte, length l = (n * el)%nat -> concat (chunks n el l) = l.
Proof.
  induction n as [| n IH]; intros l Hl; cbn [chunks concat].
  - destruct l; [reflexivity | discriminate].
  - rewrite IH by (rewrite length_skipn; lia). apply firstn_skipn.
Qed.

Lemma chunks_uniform (n : nat) :
  forall l : list byte,
    length l = (n * el)%nat ->
    Forall (fun c => length c = el) (chunks n el l).
Proof.
  induction n as [| n IH]; intros l Hl; cbn [chunks]; constructor.
  - rewrite length_firstn. lia.
  - apply IH. rewrite length_skipn. lia.
Qed.

Lemma concat_uniform_length (L : list (list byte)) :
  Forall (fun c => length c = el) L ->
  length (concat L) = (length L * el)%nat.
Proof.
  induction 1 as [| c L Hc _ IH]; [reflexivity |].
  cbn [concat length]. rewrite length_app, IH, Hc. lia.
Qed.

Lemma chunks_of_concat (L : list (list byte)) :
  Forall (fun c => length c = el) L ->
  chunks (length L) el (concat L) = L.
Proof.
  induction 1 as [| c L Hc _ IH]; [reflexivity |].
  cbn [concat length chunks].
  rewrite firstn_app, skipn_app, Hc, Nat.sub_diag, firstn_all2, skipn_all2
    by lia.
  cbn [firstn skipn]. rewrite app_nil_r. cbn [app]. now rewrite IH.
Qed.

End Chunks.

Lemma insert_sorted_permutation (cmp : cmpfn_t) (x : list byte)
  (l : list (list byte)) :
  Permutation (insert_sorted cmp x l) (x :: l).
Proof.
  induction l as [| y t IH]; cbn [insert_sorted]; [reflexivity |].
  destruct (cmp x y <=? 0); [reflexivity |].
  rewrite IH. apply perm_swap.
Qed.

Lemma insertion_sort_permutation (cmp : cmpfn_t) (l : list (list byte)) :
  Permutation (fold_right (insert_sorted cmp) [] l) l.
Proof.
  induction l as [| x t IH]; cbn [fold_right]; [reflexivity |].
  rewrite insert_sorted_permutation. now constructor.
Qed.

(** X22. [_vec2_impl_sort] refuses a null comparison function and
    leaves everything as it is.  With one, on a valid buffer, it returns
    [TRUE], changes no field of the vector and not the allocator, keeps
    the buffer valid, and the elements afterwards are the elements of
    before in some order; an empty vector is left untouched, [qsort] not
    called. *)
Theorem sort_permutes_the_elements
  (w : world) (el_size : Z) (cmp : cmpfn_t) :
  wf el_size w ->
  _vec2_impl_sort None el_size w = Ret (FALSE, w) /\
  exists w',
    _vec2_impl_sort (Some cmp) el_size w = Ret (TRUE, w') /\
    vec w' = vec w /\ allocator w' = allocator w /\
    wf el_size w' /\
    (size (vec w) = 0 -> w' = w) /\
    Permutation
      (chunks (Z.to_nat (size (vec w))) (Z.to_nat el_size)
         (content el_size w'))
      (chunks (Z.to_nat (size (vec w))) (Z.to_nat el_size)
         (content el_size w)).
Proof.
  intros Hwf. split; [reflexivity |].
  pose proof (wf_valid el_size w Hwf) as Hvalid.
  pose proof (content_length el_size w Hwf) as HX.
  pose proof Hwf as (Hel & Hsz & Hst & Hlive & Hheap).
  unfold _vec2_impl_sort. mrun. rewrite Hvalid. is_false (el_size =? 0).
  proj.
  destruct (Z.eqb_spec (size (vec w)) 0) as [Hempty | Hsome]; cbn [negb].
  { mrun. exists w. repeat split; auto. }
  destruct (heap w) as [b |] eqn:Hb; [| lia].
  destruct Hheap as (Hcap & Hbase & Hdata & Hblen & Hmax).
  pose proof (wf_products el_size w b (size (vec w)) Hwf Hb ltac:(lia)) as Hpz.
  pose proof (wf_products el_size w b (_start (vec w)) Hwf Hb ltac:(lia))
    as Hpt.
  pose proof (wf_products el_size w b (_start (vec w) + size (vec w))
                Hwf Hb ltac:(lia)) as Hps.
  set (n := Z.to_nat (size (vec w))). set (el := Z.to_nat el_size).
  assert (Hlen : length (content el_size w) = (n * el)%nat)
    by (subst n el; nia).
  set (sorted := fold_right (insert_sorted cmp) []
                   (chunks n el (content el_size w))).
  assert (Hperm : Permutation sorted (chunks n el (content el_size w)))
    by apply insertion_sort_permutation.
  assert (Huni : Forall (fun c => length c = el) sorted).
  { eapply Permutation_Forall; [symmetry; exact Hperm |].
    now apply chunks_uniform. }
  assert (Hcount : length sorted = n).
  { rewrite (Permutation_length Hperm).
    clear -Hlen. revert Hlen. generalize (content el_size w).
    induction n as [| n IH]; intros l Hl; cbn [chunks length];
      [reflexivity |].
    rewrite IH; [reflexivity | rewrite length_skipn; lia]. }
  assert (Hbytes : length (concat sorted) = (n * el)%nat)
    by (rewrite (concat_uniform_length el sorted Huni), Hcount; reflexivity).
  unfold qsort, VEC2_GET.
  rewrite (size_mul_exact 0 el_size), (size_mul_exact (size (vec w)) el_size)
    by lia.
  change (0 * el_size) with 0.
  rewrite bind_assoc.
  erewrite bind_Ret;
    [| apply (load_ok w b); [exact Hb | apply in_block_iff; lia]].
  rewrite (slice_of_content el_size 0 (size (vec w) * el_size) w b)
    by (auto; lia).
  rewrite slice_all_prefix,
    (firstn_all2 (n := Z.to_nat (size (vec w) * el_size)))
    by lia.
  fold n el sorted.
  rewrite (firstn_all2 (n := length (content el_size w))) by lia.
  destruct (content_overwritten el_size 0 (concat sorted) w b Hwf Hb
              ltac:(lia) ltac:(lia)) as [Hc' Hwf'].
  erewrite bind_Ret;
    [| apply (store_ok w b); [exact Hb | apply in_block_iff; lia]].
  mrun. eexists. split; [reflexivity |].
  split; [reflexivity |]. split; [reflexivity |].
  split; [exact Hwf' |]. split; [intros; lia |].
  rewrite Hc'. cbn [Z.to_nat firstn app].
  rewrite skipn_all2, app_nil_r by lia.
  rewrite <- Hcount at 1. rewrite (chunks_of_concat el sorted Huni).
  exact Hperm.
Qed.

(** ** The further properties at concrete inputs *)

(** X1 at a concrete input: the last two elements of [1,2,3,4,5] popped
    into an array of the caller. *)
Lemma pop_multi_takes_the_back_witness :
  exists ok out' w',
    vec2_pop_multi 2 1 (Some [x00; x00]) world_12345 = Ret ((ok, out'), w') /\
    (ok = FALSE <-> 2 > size (vec world_12345)) /\
    (ok = FALSE \/ 2 = 0 -> w' = world_12345 /\ out' = (Some [x00; x00])) /\
    (ok = TRUE -> 0 < 2 ->
     w' = with_vec (set_size (size (vec world_12345) - 2) (vec world_12345))
            world_12345 /\
     content 1 w'
     = firstn (Z.to_nat ((size (vec world_12345) - 2) * 1))
         (content 1 world_12345) /\
     out' = option_map
              (fun o => skipn (Z.to_nat ((size (vec world_12345) - 2) * 1))
                          (content 1 world_12345)
                        ++ skipn (Z.to_nat (2 * 1)) o) (Some [x00; x00])).
Proof.
  apply (pop_multi_takes_the_back world_12345 2 1 (Some [x00; x00])).
  - unfold wf, SIZE_MOD. simpl. lia.
  - unfold is_size, SIZE_MOD. lia.
  - intros o Ho. injection Ho as <-. simpl. lia.
Defined.

(** X2 at a concrete input: the first two elements of [1,2,3,4,5] shifted
    out into an array of the caller. *)
Lemma shift_multi_advances_the_start_witness :
  exists ok out' w',
    vec2_shift_multi 2 1 (Some [x00; x00]) world_12345 = Ret ((ok, out'), w') /\
    (ok = FALSE <-> 2 > size (vec world_12345)) /\
    (ok = FALSE \/ 2 = 0 -> w' = world_12345 /\ out' = (Some [x00; x00])) /\
    (ok = TRUE -> 0 < 2 ->
     heap w' = heap world_12345 /\ allocator w' = allocator world_12345 /\
     vec w' = front_advanced 1 2 (vec world_12345) /\
     content 1 w'
     = skipn (Z.to_nat (2 * 1)) (content 1 world_12345) /\
     out' = option_map
              (fun o => firstn (Z.to_nat (2 * 1)) (content 1 world_12345)
                        ++ skipn (Z.to_nat (2 * 1)) o) (Some [x00; x00]) /\
     wf 1 w').
Proof.
  apply (shift_multi_advances_the_start world_12345 2 1 (Some [x00; x00])).
  - unfold wf, SIZE_MOD. simpl. lia.
  - unfold is_size, SIZE_MOD. lia.
  - intros o Ho. injection Ho as <-. simpl. lia.
Defined.

(** X3 at a concrete input: two elements removed from the interior of
    [1,2,3,4,5]. *)
Lemma remove_keeps_buffer_valid_witness :
  exists r w',
    _vec2_impl_remove 1 2 1 None world_12345 = Ret (r, w') /\
    wf 1 w' /\
    capacity (vec w') = capacity (vec world_12345) /\
    allocator w' = allocator world_12345 /\
    option_map base (heap w') = option_map base (heap world_12345) /\
    option_map (fun b => length (bytes b)) (heap w')
    = option_map (fun b => length (bytes b)) (heap world_12345).
Proof.
  apply (remove_keeps_buffer_valid world_12345 1 2 1 None).
  - unfold wf, SIZE_MOD. simpl. lia.
  - unfold is_size, SIZE_MOD. lia.
  - unfold is_size, SIZE_MOD. lia.
  - discriminate.
Defined.

(** X4 at a concrete input: element 2 of [1,2,3,4,5]. *)
Lemma get_reads_the_element_witness :
  (vec2_get (vec world_12345) 1 2 = NULL <-> size (vec world_12345) <= 2) /\
  (2 < size (vec world_12345) ->
   load (vec2_get (vec world_12345) 1 2) 1 world_12345
   = Ret (slice (2 * 1) 1 (content 1 world_12345), world_12345)).
Proof.
  apply (get_reads_the_element world_12345 1 2).
  - unfold wf, SIZE_MOD. simpl. lia.
  - lia.
Defined.

(** X5 at a concrete input: the ends of [1,2,3,4,5]. *)
Lemma first_and_last_read_the_ends_witness :
  (vec2_first (vec world_12345) 1 = NULL <-> size (vec world_12345) = 0) /\
  (vec2_last (vec world_12345) 1 = NULL <-> size (vec world_12345) = 0) /\
  (0 < size (vec world_12345) ->
   load (vec2_first (vec world_12345) 1) 1 world_12345
   = Ret (firstn (Z.to_nat 1) (content 1 world_12345), world_12345) /\
   load (vec2_last (vec world_12345) 1) 1 world_12345
   = Ret (skipn (Z.to_nat ((size (vec world_12345) - 1) * 1))
            (content 1 world_12345), world_12345)).
Proof.
  apply (first_and_last_read_the_ends world_12345 1).
  unfold wf, SIZE_MOD. simpl. lia.
Defined.

(** X6 at a concrete input: elements 1 and 2 of [1,2,3,4,5] assigned. *)
Lemma assign_overwrites_in_place_witness :
  exists ok w',
    _vec2_impl_assign 1 (Some [x08; x09]) 2 1 world_12345 = Ret (ok, w') /\
    (ok = FALSE <->
     1 >= size (vec world_12345) \/ 2 > size (vec world_12345) - 1) /\
    (ok = FALSE -> w' = world_12345) /\
    (ok = TRUE ->
     vec w' = vec world_12345 /\ allocator w' = allocator world_12345 /\
     content 1 w'
     = firstn (Z.to_nat (1 * 1)) (content 1 world_12345)
       ++ firstn (Z.to_nat (2 * 1)) [x08; x09]
       ++ skipn (Z.to_nat ((1 + 2) * 1)) (content 1 world_12345) /\
     wf 1 w').
Proof.
  apply (assign_overwrites_in_place world_12345 1 2 1 [x08; x09]).
  - unfold wf, SIZE_MOD. simpl. lia.
  - unfold is_size, SIZE_MOD. lia.
  - unfold is_size, SIZE_MOD. lia.
  - simpl. lia.
Defined.

(** X7 at a concrete input: element 2 of [1,2,3,4,5] assigned through the
    macro. *)
Lemma assign_macro_agrees_witness :
  vec2_assign 2 [x09] 1 world_12345
  = (ok <- _vec2_impl_assign 2 (Some [x09]) 1 1 ;;
     upd_vec (set_idx 2) ;;;
     ret ok) world_12345.
Proof.
  apply (assign_macro_agrees world_12345 2 1 [x09]).
  - unfold wf, SIZE_MOD. simpl. lia.
  - unfold is_size, SIZE_MOD. lia.
  - reflexivity.
Defined.

(** X8 at a concrete input: 9 inserted at the end of [1,2,3,4,5] through
    the macro. *)
Lemma insert_macro_agrees_witness :
  vec2_insert 0%nat 5 [x09] 1 world_12345
  = (ok <- _vec2_impl_insert 0%nat 5 (Some [x09]) 1 1 ;;
     (if ok then upd_vec (set_idx 5) else ret tt) ;;;
     ret ok) world_12345.
Proof.
  apply (insert_macro_agrees 0%nat world_12345 5 1 [x09]).
  - unfold wf, SIZE_MOD. simpl. lia.
  - unfold is_size, SIZE_MOD. lia.
  - unfold is_size, SIZE_MOD. lia.
  - reflexivity.
Defined.

(** X9 at a concrete input: a hole for one element at the end of
    [1,2,3,4,5], which has room for it. *)
Lemma create_hole_leaves_size_witness :
  size (vec world_12345_idx5) = size (vec world_12345) /\
  capacity (vec world_12345) <= capacity (vec world_12345_idx5) /\
  (TRUE = TRUE ->
   _idx (vec world_12345_idx5) = 5 /\ 0 < 1 /\ 5 <= size (vec world_12345)) /\
  (TRUE = FALSE -> same_buffer world_12345 world_12345_idx5).
Proof.
  apply (create_hole_leaves_size 0%nat 5 1 1 TRUE world_12345 world_12345_idx5).
  vm_compute. reflexivity.
Defined.

(** X10 at a concrete input: room for four more elements reserved in a
    full buffer of sixteen. *)
Lemma reserve_grows_by_additional_witness :
  exists ok w',
    vec2_reserve 4 1 world_full_16 = Ret (ok, w') /\
    (4 <= capacity (vec world_full_16) - size (vec world_full_16) ->
     ok = TRUE /\ w' = world_full_16) /\
    (ok = FALSE -> same_buffer world_full_16 w') /\
    (ok = TRUE ->
     wf 1 w' /\
     content 1 w' = content 1 world_full_16 /\
     size (vec w') = size (vec world_full_16) /\
     _start (vec w') = _start (vec world_full_16) /\
     capacity (vec w')
     = (if 4 <=? capacity (vec world_full_16) - size (vec world_full_16)
        then capacity (vec world_full_16)
        else capacity (vec world_full_16) + 4)).
Proof.
  apply (reserve_grows_by_additional world_full_16 4 1).
  - unfold wf, SIZE_MOD. simpl. lia.
  - unfold is_size, SIZE_MOD. lia.
Defined.

(** X11 at a concrete input: [1,2,3,4,5] cleared. *)
Lemma clear_resets_and_is_idempotent_witness :
  vec2_clear 1 world_12345 = Ret (tt, initial_world (allocator world_12345)) /\
  (vec2_clear 1 ;;; vec2_clear 1) world_12345
  = Ret (tt, initial_world (allocator world_12345)).
Proof.
  apply (clear_resets_and_is_idempotent world_12345 1).
  unfold wf, SIZE_MOD. simpl. lia.
Defined.

(** X12 at a concrete input: shrink-to-fit of a buffer that removals at
    the front have emptied. *)
Lemma shrink_of_empty_releases_witness :
  vec2_shrink_to_fit 1 world_emptied
  = Ret (TRUE, initial_world (allocator world_emptied)).
Proof.
  apply (shrink_of_empty_releases world_emptied 1).
  - unfold wf, SIZE_MOD. simpl. lia.
  - reflexivity.
Defined.

(** X13 at a concrete input: shrink-to-fit of two elements in a block of
    64. *)
Lemma shrink_keeps_content_witness :
  exists ok w',
    vec2_shrink_to_fit 1 world_2_of_64 = Ret (ok, w') /\
    wf 1 w' /\
    content 1 w' = content 1 world_2_of_64 /\
    size (vec w') = size (vec world_2_of_64) /\
    (size (vec world_2_of_64) = capacity (vec world_2_of_64)
     \/ capacity (vec world_2_of_64) <= VEC2_INITIAL_CAPACITY ->
     ok = TRUE /\ w' = world_2_of_64) /\
    (ok = TRUE ->
     size (vec world_2_of_64) < capacity (vec world_2_of_64) ->
     VEC2_INITIAL_CAPACITY < capacity (vec world_2_of_64) ->
     _start (vec w') = 0 /\
     capacity (vec w') = size (vec world_2_of_64) /\
     exists b',
       heap w' = Some b' /\
       Z.of_nat (length (bytes b'))
       = Z.max (size (vec world_2_of_64)) VEC2_INITIAL_CAPACITY * 1).
Proof.
  apply (shrink_keeps_content world_2_of_64 1).
  - unfold wf, SIZE_MOD. simpl. lia.
  - simpl. lia.
Defined.

(** X14 at a concrete input: elements 1 and 3 of [1,2,3,4,5] exchanged. *)
Lemma swap_exchanges_small_elements_witness :
  exists w',
    _vec2_impl_swap (S 0%nat) 1 3 1 world_12345 = Ret (TRUE, w') /\
    _vec2_impl_swap (S 0%nat) 3 1 1 world_12345 = Ret (TRUE, w') /\
    vec w' = vec world_12345 /\
    wf 1 w' /\
    content 1 w' = [x01] ++ [x04] ++ [x03] ++ [x02] ++ [x05].
Proof.
  apply (swap_exchanges_small_elements 0%nat world_12345 1 1 3
           [x01] [x02] [x03] [x04] [x05]).
  - unfold wf, SIZE_MOD. simpl. lia.
  - unfold VEC2_SWAP_SIZE. lia.
  - lia.
  - reflexivity.
  - reflexivity.
  - reflexivity.
  - reflexivity.
  - reflexivity.
Defined.

(** X15 at a concrete input: the two elements of 48 bytes of
    [world_two_of_48]. *)
Lemma swap_of_even_chunks_changes_nothing_witness :
  _vec2_impl_swap 2%nat 0 1 48 world_two_of_48 = Ret (TRUE, world_two_of_48).
Proof.
  apply (swap_of_even_chunks_changes_nothing 2%nat 1%nat world_two_of_48
           48 0 1).
  - unfold wf, SIZE_MOD. simpl. lia.
  - reflexivity.
  - simpl. lia.
  - simpl. lia.
  - simpl. lia.
  - discriminate.
Defined.

(** X16 at a concrete input: 9 pushed onto [1,2,3,4,5]. *)
Lemma push_multi_appends_witness :
  content 1 world_123459
  = content 1 world_12345 ++ firstn (Z.to_nat (1 * 1)) [x09] /\
  size (vec world_123459) = size (vec world_12345) + 1 /\
  wf 1 world_123459.
Proof.
  apply (push_multi_appends 0%nat world_12345 world_123459 1 1 [x09]).
  - unfold wf, SIZE_MOD. simpl. lia.
  - unfold UINT_MOD. simpl. lia.
  - simpl. lia.
  - simpl. lia.
  - vm_compute. reflexivity.
Defined.

(** X17 at a concrete input: 9 pushed onto [1,2,3,4,5] and popped again. *)
Lemma push_then_pop_round_trip_witness :
  exists w2,
    vec2_pop_multi 1 1 (Some [x00]) world_123459
    = Ret ((TRUE, Some ([x09] ++ skipn (Z.to_nat (1 * 1)) [x00])), w2) /\
    content 1 w2 = content 1 world_12345 /\
    size (vec w2) = size (vec world_12345) /\
    wf 1 w2.
Proof.
  apply (push_then_pop_round_trip 0%nat world_12345 world_123459 1 1 [x09]
           [x00]).
  - unfold wf, SIZE_MOD. simpl. lia.
  - unfold UINT_MOD. simpl. lia.
  - simpl. lia.
  - reflexivity.
  - simpl. lia.
  - vm_compute. reflexivity.
Defined.

(** X18 at a concrete input: the first two elements of [1,2,3,4,5] taken
    off and put back. *)
Lemma shift_then_unshift_round_trip_witness :
  exists out' w1 w2,
    vec2_shift_multi 2 1 (Some [x00; x00]) world_12345
    = Ret ((TRUE, Some out'), w1) /\
    vec2_unshift_multi 0%nat (Some out') 2 1 w1 = Ret (TRUE, w2) /\
    content 1 w2 = content 1 world_12345 /\
    size (vec w2) = size (vec world_12345) /\
    capacity (vec w2) = capacity (vec world_12345) /\
    wf 1 w2.
Proof.
  apply (shift_then_unshift_round_trip 0%nat world_12345 2 1 [x00; x00]).
  - unfold wf, SIZE_MOD. simpl. lia.
  - simpl. lia.
  - simpl. lia.
Defined.

(** X19 at a concrete input: a second element pushed into a buffer of
    capacity one. *)
Lemma insert_into_capacity_one_never_returns_witness :
  vec2_insert_multi 5%nat 1 (Some [x02]) 1 1 world_1_of_1 = Diverge.
Proof.
  apply (insert_into_capacity_one_never_returns 5%nat world_1_of_1 1 1 1 [x02]).
  - unfold wf, SIZE_MOD. simpl. lia.
  - reflexivity.
  - simpl. lia.
  - lia.
  - unfold SIZE_MOD. simpl. lia.
Defined.


(** X21 at a concrete input: a push onto a full buffer of sixteen, which
    grows to twenty-four. *)
Lemma push_grows_by_half_witness :
  exists w',
    vec2_push_multi (S 0%nat) (Some [x09]) 1 1 world_full_16 = Ret (TRUE, w') /\
    capacity (vec w')
    = capacity (vec world_full_16) + first_addition (vec world_full_16) /\
    size (vec w') = size (vec world_full_16) + 1 /\
    content 1 w'
    = content 1 world_full_16 ++ firstn (Z.to_nat (1 * 1)) [x09] /\
    wf 1 w'.
Proof.
  apply (push_grows_by_half 0%nat world_full_16 1 1 [x09] 2000%positive [] []).
  - unfold wf, SIZE_MOD. simpl. lia.
  - simpl. lia.
  - unfold UINT_MOD. simpl. lia.
  - unfold first_addition, shr1. simpl. change (Z.shiftr 16 1) with 8. lia.
  - simpl. lia.
  - unfold first_addition, shr1, SIZE_MOD. simpl.
    change (Z.shiftr 16 1) with 8. lia.
  - reflexivity.
  - simpl. lia.
Defined.

(** X22 at a concrete input: [3,1,2] sorted by the value of the bytes. *)
Lemma sort_permutes_the_elements_witness :
  _vec2_impl_sort None 1 world_312 = Ret (FALSE, world_312) /\
  exists w',
    _vec2_impl_sort (Some byte_cmp) 1 world_312 = Ret (TRUE, w') /\
    vec w' = vec world_312 /\ allocator w' = allocator world_312 /\
    wf 1 w' /\
    (size (vec world_312) = 0 -> w' = world_312) /\
    Permutation
      (chunks (Z.to_nat (size (vec world_312))) (Z.to_nat 1)
         (content 1 w'))
      (chunks (Z.to_nat (size (vec world_312))) (Z.to_nat 1)
         (content 1 world_312)).
Proof.
  apply (sort_permutes_the_elements world_312 1 byte_cmp).
  unfold wf, SIZE_MOD. simpl. lia.
Defined.
